(** * test-case-helper: the import / reconcile / export pipeline of [src/main.js]

    A shallow embedding of the pure helpers of [src/main.js]
    ([formatDateTime], [escapeCsvField], [splitCsvLine], [parseCsv],
    [normalizeSteps], [summarize], [casesToCsv], [buildReportCsv]) and of
    the methods of the Alpine component that touch the case collection
    ([applyRows], [setStatus], [setAllStatus], [persist],
    [restoreFromLocal]).

    JavaScript strings are sequences of UTF-16 code units; they are modelled
    as lists of code units, so that [line[i]], [trim], [split] and the
    regular expressions of the source keep their code-unit semantics.
    Counters are integers; the pass rate goes through binary64 arithmetic,
    as in the source.  A case is a record whose fields are strings (and a
    list of strings for the steps); the text kept in [localStorage] is
    modelled up to JSON syntax, as text that does not parse or as the data
    it parses to.  The methods of the component are functions on the state
    of the component and the store; the clock they read is an argument, one
    value for each reading; a call that throws returns the exception.

    The first part holds the definitions, the second part the properties. *)

From Stdlib Require Import ZArith NArith Lia List Bool String Ascii DecimalString.
From Stdlib Require Import Floats Uint63.
From stdpp Require Import base option list gmap sorting.

Set Default Proof Using "Type".
Local Open Scope N_scope.

(** ** JavaScript strings *)

Module JsString.

(** One UTF-16 code unit, and strings of them. *)
Abbreviation char := N (only parsing).
Abbreviation jsstring := (list N) (only parsing).

(** Decoding of a UTF-8 literal of this file into UTF-16 code units, so
    that the constants below read like the ones of the source. *)
Fixpoint utf16_of_bytes (bs : list N) : jsstring :=
  match bs with
  | [] => []
  | b0 :: t0 =>
    if b0 <? 128 then b0 :: utf16_of_bytes t0
    else if b0 <? 224 then
      match t0 with
      | b1 :: t1 => ((b0 mod 32) * 64 + b1 mod 64) :: utf16_of_bytes t1
      | [] => []
      end
    else if b0 <? 240 then
      match t0 with
      | b1 :: b2 :: t2 =>
        ((b0 mod 16) * 4096 + (b1 mod 64) * 64 + b2 mod 64) :: utf16_of_bytes t2
      | _ => []
      end
    else
      match t0 with
      | b1 :: b2 :: b3 :: t3 =>
        let cp := (b0 mod 8) * 262144 + (b1 mod 64) * 4096
                  + (b2 mod 64) * 64 + b3 mod 64 in
        let v := cp - 65536 in
        (55296 + v / 1024) :: (56320 + v mod 1024) :: utf16_of_bytes t3
      | _ => []
      end
  end.

Definition js (s : string) : jsstring :=
  utf16_of_bytes (List.map N_of_ascii (list_ascii_of_string s)).

Definition QUOTE : char := 34.     (* the double quote *)
Definition COMMA : char := 44.
Definition LF : char := 10.        (* \n *)
Definition CR : char := 13.        (* \r *)
Definition SLASH : char := 47.
Definition LT : char := 60.        (* < *)
Definition GT : char := 62.        (* > *)

(** ECMAScript WhiteSpace and LineTerminator code units: what
    [String.prototype.trim] strips and what [\s] matches. *)
Definition is_ws (c : char) : bool :=
  ((9 <=? c) && (c <=? 13)) || (c =? 32) || (c =? 160) || (c =? 5760)
  || ((8192 <=? c) && (c <=? 8202)) || (c =? 8232) || (c =? 8233)
  || (c =? 8239) || (c =? 8287) || (c =? 12288) || (c =? 65279).

Fixpoint trimStart (s : jsstring) : jsstring :=
  match s with
  | [] => []
  | c :: t => if is_ws c then trimStart t else s
  end.

Definition trimEnd (s : jsstring) : jsstring := rev (trimStart (rev s)).

(** [s.trim()] *)
Definition trim (s : jsstring) : jsstring := trimEnd (trimStart s).

(** [Boolean(s)] for a string: the empty string is the only falsy one. *)
Definition truthy (s : jsstring) : bool :=
  match s with [] => false | _ => true end.

(** [a || b] on strings. *)
Definition or_else (a b : jsstring) : jsstring := if truthy a then a else b.

(** [xs.join(sep)] *)
Fixpoint join (sep : jsstring) (xs : list jsstring) : jsstring :=
  match xs with
  | [] => []
  | [x] => x
  | x :: rest => x ++ sep ++ join sep rest
  end.

(** [s.includes(sub)] *)
Fixpoint starts_with (sub s : jsstring) : bool :=
  match sub, s with
  | [], _ => true
  | a :: sub', b :: s' => (a =? b) && starts_with sub' s'
  | _ :: _, [] => false
  end.

Fixpoint includes (s sub : jsstring) : bool :=
  starts_with sub s ||
  match s with
  | [] => false
  | _ :: t => includes t sub
  end.

(** String equality [a === b]. *)
Definition eqb (a b : jsstring) : bool := bool_decide (a = b).

End JsString.
Import JsString.

(** ** CSV helpers *)

(** [escapeCsvField]: the test for a quote, a comma or a newline, and the
    replacement of every quote by two quotes. *)
Definition needs_quoting (value : jsstring) : bool :=
  existsb (fun c => (c =? QUOTE) || (c =? COMMA) || (c =? LF)) value.

Fixpoint double_quotes (value : jsstring) : jsstring :=
  match value with
  | [] => []
  | c :: t => if c =? QUOTE then QUOTE :: QUOTE :: double_quotes t
              else c :: double_quotes t
  end.

Definition escapeCsvField (value : jsstring) : jsstring :=
  if needs_quoting value then QUOTE :: double_quotes value ++ [QUOTE]
  else value.

(** [splitCsvLine]: the [for] loop as written, over the index [i] (which the
    body bumps a second time on a doubled quote).  [line !! i] is [line[i]],
    [None] standing for [undefined]; the recursion is bounded by [fuel], and
    [None] as a result means that the fuel ran out. *)
Fixpoint splitCsvLine_loop (fuel : nat) (line : jsstring) (i : nat)
    (cells : list jsstring) (current : jsstring) (inQuotes : bool)
    : option (list jsstring) :=
  match fuel with
  | O => None
  | S fuel' =>
    match line !! i with
    | None => Some (cells ++ [current])
    | Some ch =>
      if ch =? QUOTE then
        let nextIsQuote := bool_decide (line !! (i + 1)%nat = Some QUOTE) in
        if inQuotes && nextIsQuote
        then splitCsvLine_loop fuel' line (i + 2) cells (current ++ [QUOTE]) inQuotes
        else splitCsvLine_loop fuel' line (i + 1) cells current (negb inQuotes)
      else if (ch =? COMMA) && negb inQuotes
      then splitCsvLine_loop fuel' line (i + 1) (cells ++ [current]) [] inQuotes
      else splitCsvLine_loop fuel' line (i + 1) cells (current ++ [ch]) inQuotes
    end
  end.

Definition splitCsvLine_fuel (line : jsstring) : option (list jsstring) :=
  splitCsvLine_loop (S (length line)) line 0 [] [] false.

(** The same scan by recursion on the rest of the line; by
    [splitCsvLine_fuel_total] below, [splitCsvLine line] is what the loop
    returns. *)
Fixpoint split_scan (rest : jsstring) (cells : list jsstring)
    (current : jsstring) (inQuotes : bool) : list jsstring :=
  match rest with
  | [] => cells ++ [current]
  | ch :: rest' =>
    if ch =? QUOTE then
      match rest' with
      | ch' :: rest'' =>
        if inQuotes && (ch' =? QUOTE)
        then split_scan rest'' cells (current ++ [QUOTE]) inQuotes
        else split_scan rest' cells current (negb inQuotes)
      | [] => split_scan rest' cells current (negb inQuotes)
      end
    else if (ch =? COMMA) && negb inQuotes
    then split_scan rest' (cells ++ [current]) [] inQuotes
    else split_scan rest' cells (current ++ [ch]) inQuotes
  end.

Definition splitCsvLine (line : jsstring) : list jsstring :=
  split_scan line [] [] false.

(** [text.split(/\r?\n/)] *)
Fixpoint split_lines (text : jsstring) : list jsstring :=
  match text with
  | [] => [[]]
  | c :: t =>
    let cons_first c ls :=
      match ls with
      | l :: ls' => (c :: l) :: ls'
      | [] => [[c]]
      end in
    if c =? LF then [] :: split_lines t
    else if c =? CR then
      match t with
      | c' :: t' => if c' =? LF then [] :: split_lines t'
                    else cons_first c (split_lines t)
      | [] => cons_first c (split_lines t)
      end
    else cons_first c (split_lines t)
  end.

(** [parseCsv] *)
Definition parseCsv (text : jsstring) : list (list jsstring) :=
  List.map splitCsvLine (List.filter truthy (List.map trim (split_lines text))).

(** [parseCsv] with the index loop of the source run on every line; [None]
    would be a loop that did not end within its fuel. *)
Definition parseCsv_loops (text : jsstring) : option (list (list jsstring)) :=
  mapM splitCsvLine_fuel (List.filter truthy (List.map trim (split_lines text))).

(** [line[i + 1] === QUOTE], seen from the rest of the line after
    [line[i]]. *)
Definition next_is_quote (rest : jsstring) : bool :=
  match rest with
  | ch' :: _ => ch' =? QUOTE
  | [] => false
  end.

(** What the scan detects in a line: each code unit is either kept as
    content ([Some c]; for a doubled quote inside quotes, one quote), taken
    as a delimiter ([None]: a comma outside quotes), or dropped (a quote
    that opens or closes a quoted stretch). *)
Fixpoint marks (rest : jsstring) (inQuotes : bool) : list (option char) :=
  match rest with
  | [] => []
  | ch :: rest' =>
    if ch =? QUOTE then
      match rest' with
      | ch' :: rest'' =>
        if inQuotes && (ch' =? QUOTE)
        then Some QUOTE :: marks rest'' inQuotes
        else marks rest' (negb inQuotes)
      | [] => marks rest' (negb inQuotes)
      end
    else if (ch =? COMMA) && negb inQuotes
    then None :: marks rest' inQuotes
    else Some ch :: marks rest' inQuotes
  end.

(** The content between the delimiters. *)
Fixpoint pieces (ms : list (option char)) : list jsstring :=
  match ms with
  | [] => [[]]
  | None :: ms' => [] :: pieces ms'
  | Some c :: ms' =>
    match pieces ms' with
    | p :: ps => (c :: p) :: ps
    | [] => [[c]]
    end
  end.

(** ** Step normalisation *)

(** The regular expression [/<br\s*\/?>/gi].  Under the [i] flag (without
    [u]) a pattern character matches the code units whose upper-case form
    is the same single code unit, and no code unit outside ASCII is folded
    into ASCII: [b] matches [b] and [B] only, likewise [r]. *)
Definition is_b (c : char) : bool := (c =? 98) || (c =? 66).
Definition is_r (c : char) : bool := (c =? 114) || (c =? 82).

(** What follows [<br] in a match: [\s*\/?>].  The result is the number of
    code units matched.  A white-space code unit is neither [/] nor [>], so
    taking all the white space first is the only way to match. *)
Fixpoint match_br_tail (s : jsstring) : option nat :=
  match s with
  | [] => None
  | c :: t =>
    if is_ws c then option_map S (match_br_tail t)
    else if c =? GT then Some 1%nat
    else if c =? SLASH then
      match t with
      | c' :: _ => if c' =? GT then Some 2%nat else None
      | [] => None
      end
    else None
  end.

(** The length of the match of the marker at the start of [s], if any. *)
Definition match_br (s : jsstring) : option nat :=
  match s with
  | c0 :: c1 :: c2 :: t =>
    if (c0 =? LT) && is_b c1 && is_r c2
    then option_map (fun n => (3 + n)%nat) (match_br_tail t)
    else None
  | _ => None
  end.

(** [raw.replace(/<br\s*\/?>/gi, '\n')]: left to right, each match replaced
    by a newline; [skip] counts the code units of the current match that
    are still to be passed over. *)
Fixpoint replace_br_from (skip : nat) (s : jsstring) : jsstring :=
  match s with
  | [] => []
  | c :: t =>
    match skip with
    | S k => replace_br_from k t
    | O =>
      match match_br s with
      | Some n => LF :: replace_br_from (Nat.pred n) t
      | None => c :: replace_br_from O t
      end
    end
  end.

Definition replace_br (raw : jsstring) : jsstring := replace_br_from 0 raw.

(** [s.split(/\n+/)]: the pieces between maximal runs of newlines. *)
Fixpoint split_newlines (s : jsstring) : list jsstring :=
  match s with
  | [] => [[]]
  | c :: t =>
    if c =? LF then
      match t with
      | c' :: _ => if c' =? LF then split_newlines t else [] :: split_newlines t
      | [] => [] :: split_newlines t
      end
    else
      match split_newlines t with
      | l :: ls => (c :: l) :: ls
      | [] => [[c]]
      end
  end.

(** [normalizeSteps] *)
Definition normalizeSteps (raw : jsstring) : list jsstring :=
  List.filter truthy (List.map trim (split_newlines (replace_br raw))).

(** A marker, as the regular expression sees it: a string that the
    expression matches as a whole. *)
Definition is_marker (m : jsstring) : Prop := match_br m = Some (length m).

(** Whether the expression matches anywhere in [s]. *)
Fixpoint has_br (s : jsstring) : bool :=
  match s with
  | [] => false
  | _ :: t => bool_decide (is_Some (match_br s)) || has_br t
  end.

(** ** Constants *)

Definition STATUS_NOT_RUN : jsstring := Eval vm_compute in js "未执行".
Definition STATUS_PASSED : jsstring := Eval vm_compute in js "通过".
Definition STATUS_FAILED : jsstring := Eval vm_compute in js "失败".
Definition STATUS_BLOCKED : jsstring := Eval vm_compute in js "阻塞".
Definition STATUS_SKIPPED : jsstring := Eval vm_compute in js "跳过".

Definition STATUS_OPTIONS : list jsstring :=
  [STATUS_NOT_RUN; STATUS_PASSED; STATUS_FAILED; STATUS_BLOCKED; STATUS_SKIPPED].

Definition PRIORITY_HIGH : jsstring := Eval vm_compute in js "高".
Definition PRIORITY_MEDIUM : jsstring := Eval vm_compute in js "中".
Definition PRIORITY_LOW : jsstring := Eval vm_compute in js "低".
Definition PRIORITY_OTHER : jsstring := Eval vm_compute in js "其他".

Definition PRIORITY_ORDER : list jsstring :=
  [PRIORITY_HIGH; PRIORITY_MEDIUM; PRIORITY_LOW].

(** The marker that [applyRows] looks for in the first cell of a header. *)
Definition HEADER_MARKER : jsstring := Eval vm_compute in js "测试用例".

(** ** Test cases *)

Module Case.

Record t : Type := mk {
  id : jsstring;
  module : jsstring;
  scenario : jsstring;
  precondition : jsstring;
  steps : list jsstring;
  expected : jsstring;
  priority : jsstring;
  remark : jsstring;
  status : jsstring;
  actual : jsstring;
  updatedAt : jsstring;     (* [''] until the first edit *)
}.

Definition with_status (c : t) (s : jsstring) (now : jsstring) : t :=
  mk (id c) (module c) (scenario c) (precondition c) (steps c) (expected c)
     (priority c) (remark c) s (actual c) now.

End Case.

#[global] Instance case_eq_dec : EqDecision Case.t.
Proof. solve_decision. Defined.

(** ** Numbers

    Counts and lengths are JavaScript Numbers holding small integers; they
    are modelled as [Z].  The pass rate is computed in binary64 arithmetic,
    modelled with the primitive floats. *)

Module JsNumber.

(** The Number holding the integer [z] (exact below [2^53]). *)
Definition of_Z (z : Z) : float :=
  if (z <? 0)%Z then PrimFloat.opp (PrimFloat.of_uint63 (Uint63.of_Z (- z)))
  else PrimFloat.of_uint63 (Uint63.of_Z z).

(** The integer [floor (m * 2^e + 1/2)]. *)
Definition round_half_up (m e : Z) : Z :=
  if (0 <=? e)%Z then (m * 2 ^ e)%Z
  else ((2 * m + 2 ^ (- e)) / 2 ^ (1 - e))%Z.

(** [Math.round]: the integer nearest to [x], ties going towards plus
    infinity.  The zeros give [0]; an infinity or a NaN, which [Math.round]
    returns unchanged, has no integer to stand for it and gives [None]. *)
Definition Math_round (x : float) : option Z :=
  match Prim2SF x with
  | S754_zero _ => Some 0%Z
  | S754_finite s m e =>
    Some (round_half_up (if s then Z.neg m else Z.pos m) e)
  | S754_infinity _ | S754_nan => None
  end.

(** [String(n)] for an integer. *)
Definition to_string (z : Z) : jsstring :=
  js (DecimalString.NilZero.string_of_int (Z.to_int z)).

End JsNumber.

(** ** Aggregation *)

Module Summary.

(** The object that [summarize] returns.  The properties of [statusCount]
    that hold a number are in [statusCount]; [statusText] holds the others,
    which the object gains for a status that names a method of
    [Object.prototype] (see [summarize_step]). *)
Record t : Type := mk {
  total : Z;
  executed : Z;
  statusCount : gmap jsstring Z;
  statusText : gmap jsstring nat;
  priorityCount : gmap jsstring Z;
  passRate : option Z;
}.

End Summary.

(** [obj[key] += 1] on an object whose [key] holds a number. *)
Definition incr (key : jsstring) (obj : gmap jsstring Z) : gmap jsstring Z :=
  match obj !! key with
  | Some n => <[key := (n + 1)%Z]> obj
  | None => obj
  end.

(** [obj[key] || 0] *)
Definition count_of (obj : gmap jsstring Z) (key : jsstring) : Z :=
  default 0%Z (obj !! key).

(** The two [reduce] calls that build the zeroed counters. *)
Definition zero_counts (keys : list jsstring) (init : gmap jsstring Z)
    : gmap jsstring Z :=
  fold_left (fun acc cur => <[cur := 0%Z]> acc) keys init.

(** The methods that every object inherits from [Object.prototype]. *)
Definition OBJECT_PROTOTYPE_METHODS : list jsstring :=
  Eval vm_compute in
  [js "constructor"; js "__defineGetter__"; js "__defineSetter__";
   js "hasOwnProperty"; js "__lookupGetter__"; js "__lookupSetter__";
   js "isPrototypeOf"; js "propertyIsEnumerable"; js "toString"; js "valueOf";
   js "toLocaleString"].

(** The body of [cases.forEach] in [summarize].  The test
    [statusCount[c.status] !== undefined] holds for the five keys, whose
    counter is then bumped.  It also holds for a status that names a method
    the object inherits: there [+= 1] adds 1 to a function, which gives the
    text of the function followed by the digit 1, kept as a property of the
    object under that name; every further case with that status appends one
    more digit.  [statusText] records the number of digits (the text of a
    built-in function is left to the engine).  The accessor [__proto__] is
    inherited as well, but a string assigned to it is ignored.  For any
    other status nothing happens. *)
Definition summarize_step
    (acc : gmap jsstring Z * gmap jsstring nat * gmap jsstring Z)
    (c : Case.t) : gmap jsstring Z * gmap jsstring nat * gmap jsstring Z :=
  let '(statusCount, statusText, priorityCount) := acc in
  let '(statusCount, statusText) :=
    if bool_decide (is_Some (statusCount !! Case.status c))
    then (incr (Case.status c) statusCount, statusText)
    else
      match statusText !! Case.status c with
      | Some n => (statusCount, <[Case.status c := S n]> statusText)
      | None =>
        if bool_decide (Case.status c ∈ OBJECT_PROTOTYPE_METHODS)
        then (statusCount, <[Case.status c := 1%nat]> statusText)
        else (statusCount, statusText)
      end in
  let priorityCount :=
    if bool_decide (Case.priority c ∈ PRIORITY_ORDER)
    then incr (Case.priority c) priorityCount
    else incr PRIORITY_OTHER priorityCount in
  (statusCount, statusText, priorityCount).

(** [Math.round((passed / total) * 100)] *)
Definition pass_rate (passed total : Z) : option Z :=
  JsNumber.Math_round
    (PrimFloat.mul (PrimFloat.div (JsNumber.of_Z passed) (JsNumber.of_Z total))
                   (JsNumber.of_Z 100)).

(** [summarize] *)
Definition summarize (cases : list Case.t) : Summary.t :=
  let statusCount := zero_counts STATUS_OPTIONS ∅ in
  let priorityCount := zero_counts PRIORITY_ORDER {[ PRIORITY_OTHER := 0%Z ]} in
  let '(statusCount, statusText, priorityCount) :=
    fold_left summarize_step cases (statusCount, ∅, priorityCount) in
  let total := Z.of_nat (length cases) in
  let executed := (total - count_of statusCount STATUS_NOT_RUN)%Z in
  let passRate :=
    if (total =? 0)%Z then Some 0%Z
    else pass_rate (count_of statusCount STATUS_PASSED) total in
  Summary.mk total executed statusCount statusText priorityCount passRate.


(** ** The report *)

(** [`${n}`] for a counter read from an object. *)
Definition template_count (n : option Z) : jsstring :=
  match n with
  | Some z => JsNumber.to_string z
  | None => js "undefined"
  end.

(** [`${passRate}`]; [None] is a Number that is not an integer. *)
Definition template_rate (n : option Z) : jsstring :=
  match n with
  | Some z => JsNumber.to_string z
  | None => js "NaN"
  end.

Definition LABEL_SUMMARY : jsstring := Eval vm_compute in js "摘要".
Definition LABEL_VALUE : jsstring := Eval vm_compute in js "值".
Definition LABEL_TOTAL : jsstring := Eval vm_compute in js "用例总数".
Definition LABEL_EXECUTED : jsstring := Eval vm_compute in js "已执行".
Definition LABEL_PASS_RATE : jsstring := Eval vm_compute in js "通过率".
Definition LABEL_PRIORITIES : jsstring := Eval vm_compute in js "高/中/低优先级".
Definition LABEL_ABNORMAL : jsstring := Eval vm_compute in js "异常用例汇总".
Definition LABEL_MODULE : jsstring := Eval vm_compute in js "模块".
Definition LABEL_SCENARIO : jsstring := Eval vm_compute in js "场景".
Definition LABEL_STATUS : jsstring := Eval vm_compute in js "状态".
Definition LABEL_REMARK_ACTUAL : jsstring := Eval vm_compute in js "备注/实际".
Definition LABEL_NO_ABNORMAL : jsstring := Eval vm_compute in js "无异常".
Definition LABEL_UNGROUPED : jsstring := Eval vm_compute in js "未分组".
Definition LABEL_LISTING : jsstring := Eval vm_compute in js "当前筛选用例".
Definition LABEL_PRIORITY : jsstring := Eval vm_compute in js "优先级".
Definition LABEL_EXPECTED : jsstring := Eval vm_compute in js "预期结果".
Definition LABEL_ACTUAL_REMARK : jsstring := Eval vm_compute in js "实际/备注".
Definition DASH : jsstring := Eval vm_compute in js "-".

(** The rows pushed before the abnormal cases. *)
Definition report_head (s : Summary.t) : list (list jsstring) :=
  let statusCount := Summary.statusCount s in
  let priorityCount := Summary.priorityCount s in
  [ [LABEL_SUMMARY; LABEL_VALUE];
    [LABEL_TOTAL; JsNumber.to_string (Summary.total s)];
    [LABEL_EXECUTED; JsNumber.to_string (Summary.executed s)];
    [STATUS_PASSED; JsNumber.to_string (count_of statusCount STATUS_PASSED)];
    [STATUS_FAILED; JsNumber.to_string (count_of statusCount STATUS_FAILED)];
    [STATUS_BLOCKED; JsNumber.to_string (count_of statusCount STATUS_BLOCKED)];
    [STATUS_SKIPPED; JsNumber.to_string (count_of statusCount STATUS_SKIPPED)];
    [LABEL_PASS_RATE; template_rate (Summary.passRate s) ++ js "%"];
    [LABEL_PRIORITIES;
     template_count (priorityCount !! PRIORITY_HIGH) ++ js "/"
     ++ template_count (priorityCount !! PRIORITY_MEDIUM) ++ js "/"
     ++ template_count (priorityCount !! PRIORITY_LOW)];
    [];
    [LABEL_ABNORMAL; LABEL_MODULE; LABEL_SCENARIO; LABEL_STATUS; LABEL_REMARK_ACTUAL] ].

Definition abnormal_row (item : Case.t) : list jsstring :=
  [ Case.id item;
    or_else (Case.module item) LABEL_UNGROUPED;
    Case.scenario item;
    Case.status item;
    or_else (or_else (Case.actual item) (Case.remark item)) DASH ].

Definition listing_header : list jsstring :=
  [LABEL_LISTING; LABEL_MODULE; LABEL_SCENARIO; LABEL_STATUS; LABEL_PRIORITY;
   LABEL_EXPECTED; LABEL_ACTUAL_REMARK].

Definition listing_row (item : Case.t) : list jsstring :=
  [ Case.id item;
    or_else (Case.module item) LABEL_UNGROUPED;
    Case.scenario item;
    Case.status item;
    or_else (Case.priority item) DASH;
    Case.expected item;
    or_else (or_else (Case.actual item) (Case.remark item)) DASH ].

Definition has_status (s : jsstring) (c : Case.t) : bool :=
  JsString.eqb (Case.status c) s.

(** [rows.push(r)] *)
Definition push {A} (rows : list A) (r : A) : list A := rows ++ [r].

(** The rows of [buildReportCsv], pushed in the order of the source. *)
Definition report_rows (cases : list Case.t) : list (list jsstring) :=
  let s := summarize cases in
  let failed := List.filter (has_status STATUS_FAILED) cases in
  let blocked := List.filter (has_status STATUS_BLOCKED) cases in
  let abnormal := failed ++ blocked in
  let rows := report_head s in
  let rows :=
    match abnormal with
    | [] => push rows [LABEL_NO_ABNORMAL; []; []; []; []]
    | _ => fold_left (fun rows item => push rows (abnormal_row item)) abnormal rows
    end in
  let rows := push rows [] in
  let rows := push rows listing_header in
  fold_left (fun rows item => push rows (listing_row item)) cases rows.

(** [rows.map((r) => r.map(escapeCsvField).join(',')).join('\n')] *)
Definition rows_to_csv (rows : list (list jsstring)) : jsstring :=
  join [LF] (List.map (fun r => join [COMMA] (List.map escapeCsvField r)) rows).

(** [buildReportCsv] *)
Definition buildReportCsv (cases : list Case.t) : jsstring :=
  rows_to_csv (report_rows cases).

(** ** Local storage and the persisted snapshot *)

(** What [JSON.parse] makes of a stored text.  Only the shape that
    [restoreFromLocal] reads is kept: [null] (whose properties cannot be
    read), a value without the three properties, and an object whose
    properties [cases], [sourceFile] and [lastSavedAt] are each absent or
    of the type [persist] writes. *)
Inductive json_data : Type :=
  | JNull
  | JOther
  | JSnapshot (cases : option (list Case.t)) (sourceFile : option jsstring)
              (lastSavedAt : option jsstring).

(** The text stored under [STORAGE_KEY]: either text that [JSON.parse]
    rejects, or the JSON text of some data. *)
Inductive blob : Type :=
  | Malformed (raw : jsstring)
  | Json (data : json_data).

Inductive error : Type := SyntaxError | TypeError | RangeError.

(** Computations that may throw. *)
Inductive result (A : Type) : Type :=
  | Ok (a : A)
  | Throw (e : error).
Arguments Ok {A} a.
Arguments Throw {A} e.

Definition bind {A B} (r : result A) (k : A -> result B) : result B :=
  match r with
  | Ok a => k a
  | Throw e => Throw e
  end.

Notation "'let*' x ':=' r 'in' k" := (bind r (fun x => k))
  (at level 10, x name, r at level 100, k at level 200).

(** [try { body } catch (err) { handler }] *)
Definition try_catch {A} (body : result A) (handler : error -> A) : A :=
  match body with
  | Ok a => a
  | Throw e => handler e
  end.

Definition JSON_parse (raw : blob) : result json_data :=
  match raw with
  | Malformed _ => Throw SyntaxError
  | Json data => Ok data
  end.

(** [data.cases], [data.sourceFile], [data.lastSavedAt]: reading a property
    of [null] throws, reading a missing one gives [undefined]. *)
Definition get_cases (data : json_data) : result (option (list Case.t)) :=
  match data with
  | JNull => Throw TypeError
  | JOther => Ok None
  | JSnapshot cases _ _ => Ok cases
  end.

Definition get_sourceFile (data : json_data) : result (option jsstring) :=
  match data with
  | JNull => Throw TypeError
  | JOther => Ok None
  | JSnapshot _ sourceFile _ => Ok sourceFile
  end.

Definition get_lastSavedAt (data : json_data) : result (option jsstring) :=
  match data with
  | JNull => Throw TypeError
  | JOther => Ok None
  | JSnapshot _ _ lastSavedAt => Ok lastSavedAt
  end.

(** ** The component *)

Record filters : Type := mk_filters {
  search : jsstring;
  filter_module : jsstring;
  filter_priority : jsstring;
  filter_status : jsstring;
  onlyChanged : bool;
  onlyFailed : bool;
}.

(** The data of the component that the modelled methods read or write
    ([modules], [loading] and [view] are not among them).  [lastSavedAt] is
    [null] or a time stamp. *)
Record state : Type := mk_state {
  cases : list Case.t;
  current_filters : filters;
  sourceFile : jsstring;
  message : jsstring;
  lastSavedAt : option jsstring;
  dirty : bool;
}.

(** The component together with the entry of [localStorage] under
    [STORAGE_KEY] ([None]: no entry). *)
Record world : Type := mk_world {
  app : state;
  localStorage : option blob;
}.

Definition initial_filters : filters := mk_filters [] [] [] [] false false.

Definition initial_state : state :=
  mk_state [] initial_filters [] [] None false.

Definition set_cases (st : state) (cs : list Case.t) : state :=
  mk_state cs (current_filters st) (sourceFile st) (message st)
           (lastSavedAt st) (dirty st).

Definition set_dirty (st : state) (d : bool) : state :=
  mk_state (cases st) (current_filters st) (sourceFile st) (message st)
           (lastSavedAt st) d.

Definition set_message (st : state) (msg : jsstring) : state :=
  mk_state (cases st) (current_filters st) (sourceFile st) msg
           (lastSavedAt st) (dirty st).

(** [toast]: the message is set (the timer that clears it two seconds later
    is left out). *)
Definition toast (st : state) (msg : jsstring) : state := set_message st msg.

Definition MSG_EMPTY_FILE : jsstring := Eval vm_compute in js "文件内容为空".

(** The clock as one call of a method reads it: [now k] is what the [k]-th
    evaluation of [new Date().toISOString()] within the call returns,
    counted from 0.  Nothing is assumed of the readings. *)
Definition clock : Type := nat -> jsstring.

(** [persist]; [now] is the one reading [new Date().toISOString()] of its
    body. *)
Definition persist (w : world) (now : jsstring) : world :=
  let st := app w in
  let payload := JSnapshot (Some (cases st)) (Some (sourceFile st)) (Some now) in
  mk_world
    (mk_state (cases st) (current_filters st) (sourceFile st) (message st)
              (Some now) false)
    (Some (Json payload)).

(** [markDirty] *)
Definition markDirty (w : world) (now : jsstring) : world :=
  persist (mk_world (set_dirty (app w) true) (localStorage w)) now.

(** [restoreFromLocal] *)
Definition restoreFromLocal (w : world) : world :=
  match localStorage w with
  | None => w
  | Some raw =>
    let st := app w in
    let st' :=
      try_catch
        (let* data := JSON_parse raw in
         let* cs := get_cases data in
         let* sf := get_sourceFile data in
         let* ls := get_lastSavedAt data in
         Ok (mk_state (default [] cs) (current_filters st)
                      (or_else (default [] sf) []) (message st)
                      (match ls with
                       | Some t => if truthy t then Some t else None
                       | None => None
                       end)
                      (dirty st)))
        (fun err => st) in
    mk_world st' (localStorage w)
  end.

Definition MSG_PLEASE_IMPORT : jsstring :=
  Eval vm_compute in js "请导入测试用例文件（CSV 或 XLSX）开始使用".

(** [init]: the component starts from [initial_state] and loads what the
    store holds ([refreshLookups] only touches [modules]). *)
Definition init (store : option blob) : world :=
  let w := restoreFromLocal (mk_world initial_state store) in
  match cases (app w) with
  | [] => mk_world (set_message (app w) MSG_PLEASE_IMPORT) (localStorage w)
  | _ => w
  end.

(** [row[k] || ''] *)
Definition cell (row : list jsstring) (k : nat) : jsstring :=
  or_else (default [] (row !! k)) [].

(** [headerLine[0] && headerLine[0].includes('测试用例') ? 1 : 0] *)
Definition startIndex (rows : list (list jsstring)) : nat :=
  match rows with
  | headerLine :: _ =>
    match headerLine !! 0%nat with
    | Some h => if truthy h && includes h HEADER_MARKER then 1%nat else 0%nat
    | None => 0%nat
    end
  | [] => 0%nat
  end.

(** [this.cases.reduce((acc, item) => { acc[item.id] = item; return acc }, {})].
    The object is used as a map from identifiers to cases.  (An identifier
    that names a property of [Object.prototype] and is not a key reads as a
    value without [status], [actual] and [updatedAt], which [reconcile]
    treats like a missing entry.) *)
Definition savedMap (cs : list Case.t) : gmap jsstring Case.t :=
  fold_left (fun acc item => <[Case.id item := item]> acc) cs ∅.

(** [saved.status || '未执行'] and its two siblings, where [saved] is
    [savedMap[id] || {}]: a property of [{}] is [undefined]. *)
Definition saved_field (saved : option Case.t) (field : Case.t -> jsstring)
    (fallback : jsstring) : jsstring :=
  match saved with
  | Some item => or_else (field item) fallback
  | None => fallback
  end.

(** The callback of [rows.slice(startIndex).map] in [applyRows]. *)
Definition reconcile (saved_map : gmap jsstring Case.t)
    (row : list jsstring) : Case.t :=
  let id := cell row 0 in
  let saved := saved_map !! id in
  Case.mk id (cell row 1) (cell row 2) (cell row 3)
          (normalizeSteps (cell row 4)) (cell row 5) (cell row 6) (cell row 7)
          (saved_field saved Case.status STATUS_NOT_RUN)
          (saved_field saved Case.actual [])
          (saved_field saved Case.updatedAt []).

(** The case that [savedMap] holds for an identifier: the last case of the
    collection with that identifier. *)
Definition prior (cs : list Case.t) (id : jsstring) : option Case.t :=
  last (List.filter (fun c => JsString.eqb (Case.id c) id) cs).

(** [applyRows], on rows of strings, as [parseCsv] produces them. *)
Definition applyRows (w : world) (rows : list (list jsstring))
    (filename : jsstring) (now : jsstring) : world :=
  match rows with
  | [] => mk_world (toast (app w) MSG_EMPTY_FILE) (localStorage w)
  | _ =>
    let st := app w in
    let saved_map := savedMap (cases st) in
    let cs := List.map (reconcile saved_map) (drop (startIndex rows) rows) in
    let st := mk_state cs (current_filters st) filename (message st)
                       (lastSavedAt st) false in
    persist (mk_world st (localStorage w)) now
  end.

(** [applyCsv] *)
Definition applyCsv (w : world) (text : jsstring) (filename : jsstring)
    (now : jsstring) : world :=
  applyRows w (parseCsv text) filename now.

(** [setStatus(item, status)]; [item] is the element of [this.cases] at
    index [i], which the method updates in place.  The clock is read twice:
    for [item.updatedAt], and then by [persist]. *)
Definition setStatus (w : world) (i : nat) (status : jsstring)
    (now : clock) : world :=
  let st := app w in
  match cases st !! i with
  | Some item =>
    let cs := <[i := Case.with_status item status (now 0%nat)]> (cases st) in
    markDirty (mk_world (set_cases st cs) (localStorage w)) (now 1%nat)
  | None => w
  end.

(** [clearLocal] (without the reload half a second later). *)
Definition clearLocal (w : world) : world := mk_world (app w) None.

Section Filtering.

(** [String.prototype.toLowerCase], which follows the Unicode case
    mappings, is taken as given. *)
Variable toLowerCase : jsstring -> jsstring.

(** The predicate of [filteredCases]. *)
Definition visible (f : filters) (item : Case.t) : bool :=
  let search := toLowerCase (trim (search f)) in
  if truthy (filter_module f) && negb (JsString.eqb (Case.module item) (filter_module f))
  then false
  else if truthy (filter_priority f) && negb (JsString.eqb (Case.priority item) (filter_priority f))
  then false
  else if truthy (filter_status f) && negb (JsString.eqb (Case.status item) (filter_status f))
  then false
  else if onlyChanged f && JsString.eqb (Case.status item) STATUS_NOT_RUN
          && negb (truthy (Case.actual item))
  then false
  else if onlyFailed f
          && negb (bool_decide (Case.status item ∈ [STATUS_FAILED; STATUS_BLOCKED]))
  then false
  else if truthy search then
    let haystack :=
      toLowerCase (join (js " ")
        [Case.id item; Case.module item; Case.scenario item;
         Case.expected item; Case.remark item; Case.actual item]) in
    includes haystack search
  else true.

Definition filteredCases (st : state) : list Case.t :=
  List.filter (visible (current_filters st)) (cases st).

(** The [forEach] of [setAllStatus] seen from the collection: the cases
    that the filter shows are updated in their order, the one that comes
    when [k] cases have been updated getting the reading [now k]; the
    others stay. *)
Fixpoint stamp_shown (shown : Case.t -> bool) (status : jsstring) (now : clock)
    (k : nat) (cs : list Case.t) : list Case.t :=
  match cs with
  | [] => []
  | item :: rest =>
    if shown item
    then Case.with_status item status (now k)
         :: stamp_shown shown status now (S k) rest
    else item :: stamp_shown shown status now k rest
  end.

(** [setAllStatus]: the filtered view is computed first; each of its cases,
    which it shares with [this.cases], is then updated in place, with a
    reading of the clock of its own; [persist] reads the clock once
    more. *)
Definition setAllStatus (w : world) (status : jsstring) (now : clock) : world :=
  let st := app w in
  let view := filteredCases st in
  let cs := stamp_shown (visible (current_filters st)) status now 0 (cases st) in
  markDirty (mk_world (set_cases st cs) (localStorage w)) (now (length view)).

(** The operations on the case collection and on the store. *)
Inductive operation : Type :=
  | Import (rows : list (list jsstring)) (filename : jsstring)
  | ImportCsv (text : jsstring) (filename : jsstring)
  | SetStatus (i : nat) (status : jsstring)
  | SetAllStatus (status : jsstring)
  | Save
  | Restore
  | ClearLocal.

Definition step (w : world) (o : operation * clock) : world :=
  let '(o, now) := o in
  match o with
  | Import rows filename => applyRows w rows filename (now 0%nat)
  | ImportCsv text filename => applyCsv w text filename (now 0%nat)
  | SetStatus i status => setStatus w i status now
  | SetAllStatus status => setAllStatus w status now
  | Save => persist w (now 0%nat)
  | Restore => restoreFromLocal w
  | ClearLocal => clearLocal w
  end.

(** A run: the operations in order, each with the clock as it reads it. *)
Definition run (w : world) (ops : list (operation * clock)) : world :=
  fold_left step ops w.

End Filtering.

(** ** Definitions used to state the properties *)

(** [current] put in front of the first piece. *)
Definition prepend (current : jsstring) (ps : list jsstring) : list jsstring :=
  match ps with
  | p :: ps' => (current ++ p) :: ps'
  | [] => [current]
  end.

(** A case with the given identifier and execution state, the other fields
    empty; used in the scenarios. *)
Definition case_with (id status actual updatedAt : jsstring) : Case.t :=
  Case.mk id [] [] [] [] [] [] [] status actual updatedAt.

(** A clock that moves: its [k]-th reading is [prefix] followed by the
    number [k]; used in the scenarios. *)
Definition ticks (prefix : jsstring) : clock :=
  fun k => prefix ++ JsNumber.to_string (Z.of_nat k).

(** Every case of the collection has one of the five statuses. *)
Definition status_invariant (st : state) : Prop :=
  Forall (fun c => In (Case.status c) STATUS_OPTIONS) (cases st).

(** The same for the cases of a stored snapshot, if the store holds one. *)
Definition store_invariant (store : option blob) : Prop :=
  match store with
  | Some (Json (JSnapshot (Some cs) _ _)) =>
    Forall (fun c => In (Case.status c) STATUS_OPTIONS) cs
  | _ => True
  end.

Definition world_invariant (w : world) : Prop :=
  status_invariant (app w) /\ store_invariant (localStorage w).

(** An operation that sets a status sets one of the five. *)
Definition sets_known_status (o : operation) : Prop :=
  match o with
  | SetStatus _ status | SetAllStatus status => In status STATUS_OPTIONS
  | _ => True
  end.

(** The three blocks of the report, written out row by row and cell by
    cell from what the report is to show.  Nothing of the model of
    [buildReportCsv] is used here: the labels are literals, the cases are
    picked by comparing their status, the counts are numbers of cases, and a
    missing text is replaced where the report shows a stand-in. *)
Definition count_cases (p : Case.t -> bool) (cases : list Case.t) : Z :=
  Z.of_nat (length (List.filter p cases)).

Definition status_is (s : jsstring) (c : Case.t) : bool :=
  bool_decide (Case.status c = s).

Definition priority_is (p : jsstring) (c : Case.t) : bool :=
  bool_decide (Case.priority c = p).

(** The text, or the stand-in when there is no text. *)
Definition text_or (text stand_in : jsstring) : jsstring :=
  match text with
  | [] => stand_in
  | _ :: _ => text
  end.

(** The summary: the counts, the pass rate and the priorities. *)
Definition summary_block (cases : list Case.t) : list (list jsstring) :=
  let total := Z.of_nat (length cases) in
  let passed := count_cases (status_is (js "通过")) cases in
  [ [js "摘要"; js "值"];
    [js "用例总数"; JsNumber.to_string total];
    [js "已执行";
     JsNumber.to_string (total - count_cases (status_is (js "未执行")) cases)];
    [js "通过"; JsNumber.to_string passed];
    [js "失败"; JsNumber.to_string (count_cases (status_is (js "失败")) cases)];
    [js "阻塞"; JsNumber.to_string (count_cases (status_is (js "阻塞")) cases)];
    [js "跳过"; JsNumber.to_string (count_cases (status_is (js "跳过")) cases)];
    [js "通过率";
     (if (total =? 0)%Z then js "0" else template_rate (pass_rate passed total))
     ++ js "%"];
    [js "高/中/低优先级";
     JsNumber.to_string (count_cases (priority_is (js "高")) cases) ++ js "/"
     ++ JsNumber.to_string (count_cases (priority_is (js "中")) cases) ++ js "/"
     ++ JsNumber.to_string (count_cases (priority_is (js "低")) cases)] ].

(** The abnormal cases: the header of the section, then the failed cases
    followed by the blocked cases, each kind in the order of the
    collection; one row saying so when there is none. *)
Definition abnormal_block (cases : list Case.t) : list (list jsstring) :=
  let shows (c : Case.t) :=
    [ Case.id c; text_or (Case.module c) (js "未分组"); Case.scenario c;
      Case.status c; text_or (text_or (Case.actual c) (Case.remark c)) (js "-") ] in
  let failed := List.filter (status_is (js "失败")) cases in
  let blocked := List.filter (status_is (js "阻塞")) cases in
  [js "异常用例汇总"; js "模块"; js "场景"; js "状态"; js "备注/实际"]
  :: match failed, blocked with
     | [], [] => [[js "无异常"; []; []; []; []]]
     | _, _ => List.map shows failed ++ List.map shows blocked
     end.

(** The listing: its header, then every given case, in order. *)
Definition listing_block (cases : list Case.t) : list (list jsstring) :=
  let shows (c : Case.t) :=
    [ Case.id c; text_or (Case.module c) (js "未分组"); Case.scenario c;
      Case.status c; text_or (Case.priority c) (js "-"); Case.expected c;
      text_or (text_or (Case.actual c) (Case.remark c)) (js "-") ] in
  [js "当前筛选用例"; js "模块"; js "场景"; js "状态"; js "优先级"; js "预期结果";
   js "实际/备注"]
  :: List.map shows cases.

(** A float that is a zero, or positive and at most [c * 2^k], with its
    exponent between [elo] and [ehi]; [lo] is an exponent below all those
    at hand, so that the comparison is one of integers. *)
Definition sf_below (f : spec_float) (c k lo elo ehi : Z) : Prop :=
  match f with
  | S754_zero _ => True
  | S754_finite s m e =>
    s = false /\ (elo <= e <= ehi)%Z /\
    (Z.pos m * 2 ^ (e - lo) <= c * 2 ^ (k - lo))%Z
  | _ => False
  end.

(** The float [100]. *)
Definition SF_100 : spec_float :=
  S754_finite false 7036874417766400 (-46)%Z.

(** The part of [summarize_step] that counts statuses. *)
Definition status_step (statusCount : gmap (list N) Z) (c : Case.t)
    : gmap (list N) Z :=
  if bool_decide (is_Some (statusCount !! Case.status c))
  then incr (Case.status c) statusCount else statusCount.

(** ** The plain export *)

Definition CSV_HEADERS : list jsstring :=
  Eval vm_compute in
  [js "测试用例ID"; js "测试模块"; js "测试场景"; js "前置条件"; js "测试步骤";
   js "预期结果"; js "优先级"; js "备注"].

Definition LABEL_EXEC_STATUS : jsstring := Eval vm_compute in js "执行状态".
Definition LABEL_ACTUAL_RESULT : jsstring := Eval vm_compute in js "实际结果".
Definition LABEL_LAST_UPDATE : jsstring := Eval vm_compute in js "最后更新时间".

(** The header row of [casesToCsv]. *)
Definition export_header : list jsstring :=
  CSV_HEADERS ++ [LABEL_EXEC_STATUS; LABEL_ACTUAL_RESULT; LABEL_LAST_UPDATE].

(** [xs.map(f)] for a callback that may throw: the first exception ends the
    call. *)
Fixpoint map_result {A B} (f : A -> result B) (xs : list A) : result (list B) :=
  match xs with
  | [] => Ok []
  | x :: rest =>
    let* y := f x in
    let* ys := map_result f rest in
    Ok (y :: ys)
  end.

Section PlainExport.

(** What [Intl.DateTimeFormat('zh-CN', ...).format(new Date(value))] prints
    is taken as given: [format_date value] is the text for a string that
    [new Date] reads as a date, and [None] for any other string, whose
    [Invalid Date] makes [format] throw a [RangeError]. *)
Variable format_date : jsstring -> option jsstring.

(** [formatDateTime] on a time stamp held as a string. *)
Definition formatDateTime (value : jsstring) : result jsstring :=
  if truthy value then
    match format_date value with
    | Some text => Ok text
    | None => Throw RangeError
    end
  else Ok [].

(** The callback of [cases.map] in [casesToCsv]. *)
Definition export_row (item : Case.t) : result (list jsstring) :=
  let* time :=
    if truthy (Case.updatedAt item) then formatDateTime (Case.updatedAt item)
    else Ok [] in
  Ok [ Case.id item;
       Case.module item;
       Case.scenario item;
       Case.precondition item;
       join [LF] (Case.steps item);
       Case.expected item;
       Case.priority item;
       Case.remark item;
       Case.status item;
       Case.actual item;              (* [item.actual ?? '']: a string here *)
       time ].

(** [casesToCsv]: the text, or the exception of the first case whose time
    stamp cannot be formatted. *)
Definition casesToCsv (cases : list Case.t) : result jsstring :=
  let* rows := map_result export_row cases in
  Ok (rows_to_csv (export_header :: rows)).

End PlainExport.

(** ** The cards, the module list and the filter setters *)

(** The [value] of a card: a Number or a string. *)
Inductive card_value : Type :=
  | NumberValue (n : Z)
  | TextValue (s : jsstring).

Record card : Type := mk_card {
  label : jsstring;
  value : card_value;
  sub : jsstring;
  badgeClass : jsstring;
  desc : jsstring;
}.

(** [statCards].  The percentage of the second card is
    [total ? Math.round((executed / total) * 100) : 0], the computation of
    [pass_rate] on [executed]. *)
Definition statCards (cases : list Case.t) : list card :=
  let s := summarize cases in
  let total := Summary.total s in
  let executed := Summary.executed s in
  let statusCount := Summary.statusCount s in
  [ mk_card LABEL_TOTAL (NumberValue total) (js "全部")
      (js "bg-slate-100 text-slate-700 ring-slate-200") (js "含未执行用例");
    mk_card LABEL_EXECUTED (NumberValue executed)
      (template_rate (if (total =? 0)%Z then Some 0%Z else pass_rate executed total)
       ++ js "%")
      (js "bg-blue-50 text-blue-700 ring-blue-200")
      (js "未执行：" ++ JsNumber.to_string (count_of statusCount STATUS_NOT_RUN));
    mk_card (js "通过 / 失败 / 阻塞")
      (TextValue (JsNumber.to_string (count_of statusCount STATUS_PASSED) ++ js " / "
                  ++ JsNumber.to_string (count_of statusCount STATUS_FAILED) ++ js " / "
                  ++ JsNumber.to_string (count_of statusCount STATUS_BLOCKED)))
      (js "通过率 " ++ template_rate (Summary.passRate s) ++ js "%")
      (js "bg-emerald-50 text-emerald-700 ring-emerald-200")
      (js "跳过：" ++ JsNumber.to_string (count_of statusCount STATUS_SKIPPED)) ].

(** [a < b] on strings: the order of the code units, a proper prefix coming
    first.  It is the order of [Array.prototype.sort] without a comparator. *)
Fixpoint str_ltb (a b : jsstring) : bool :=
  match a, b with
  | _, [] => false
  | [], _ :: _ => true
  | x :: a', y :: b' => (x <? y) || ((x =? y) && str_ltb a' b')
  end.

(** [Array.from(new Set(xs))]: the distinct values, in the order of their
    first occurrence; [add_distinct] is [Set.prototype.add]. *)
Definition add_distinct (acc : list jsstring) (x : jsstring) : list jsstring :=
  if bool_decide (x ∈ acc) then acc else acc ++ [x].

Definition distinct (xs : list jsstring) : list jsstring :=
  fold_left add_distinct xs [].

(** [xs.sort()], as an insertion sort.  The strings sorted below are
    pairwise distinct and the order is total, so that every sorting
    procedure gives this list, as is shown among the properties. *)
Fixpoint sort_insert (x : jsstring) (l : list jsstring) : list jsstring :=
  match l with
  | [] => [x]
  | y :: l' => if str_ltb y x then y :: sort_insert x l' else x :: l
  end.

Definition sort (xs : list jsstring) : list jsstring :=
  fold_right sort_insert [] xs.

(** [refreshLookups]: the list it assigns to [this.modules]. *)
Definition refreshLookups (cs : list Case.t) : list jsstring :=
  sort (distinct (List.filter truthy (List.map Case.module cs))).

Definition set_filters (st : state) (f : filters) : state :=
  mk_state (cases st) f (sourceFile st) (message st) (lastSavedAt st) (dirty st).

(** [resetFilters] *)
Definition resetFilters (st : state) : state := set_filters st initial_filters.

(** [quickFilter] *)
Definition quickFilter (st : state) (type : jsstring) : state :=
  let f := current_filters st in
  if JsString.eqb type PRIORITY_HIGH then
    set_filters st (mk_filters (search f) (filter_module f) PRIORITY_HIGH
                               (filter_status f) (onlyChanged f) (onlyFailed f))
  else if JsString.eqb type STATUS_FAILED then
    set_filters st (mk_filters (search f) (filter_module f) (filter_priority f)
                               STATUS_FAILED (onlyChanged f) (onlyFailed f))
  else if JsString.eqb type STATUS_BLOCKED then
    set_filters st (mk_filters (search f) (filter_module f) (filter_priority f)
                               STATUS_BLOCKED (onlyChanged f) (onlyFailed f))
  else st.

(** ** Definitions used to state the further properties *)

(** The line that [rows_to_csv] writes for a row. *)
Definition row_line (r : list jsstring) : jsstring :=
  join [COMMA] (List.map escapeCsvField r).

Definition has_LF (s : jsstring) : bool := existsb (N.eqb LF) s.

(** A row that survives the line-based reading of [parseCsv]: it has a
    field, no field holds a newline, and its line is neither empty nor
    changed by [trim]. *)
Definition readable_row (r : list jsstring) : bool :=
  truthy (row_line r) && forallb (fun f => negb (has_LF f)) r
  && JsString.eqb (trim (row_line r)) (row_line r).

(** A tight string: it is not empty and neither its first nor its last
    code unit is white space.  (Said without [trim], so that it says what
    [trim] has to achieve.) *)
Definition tight (s : jsstring) : bool :=
  match head s, last s with
  | Some c, Some c' => negb (is_ws c) && negb (is_ws c')
  | _, _ => false
  end.

(** A step as [normalizeSteps] leaves it: not empty, not changed by [trim],
    without a newline. *)
Definition normalized_step (s : jsstring) : bool :=
  truthy s && JsString.eqb (trim s) s && negb (has_LF s).

(** A case whose status is none of the five. *)
Definition unknown_status (c : Case.t) : bool :=
  negb (bool_decide (Case.status c ∈ STATUS_OPTIONS)).

Definition has_priority (p : jsstring) (c : Case.t) : bool :=
  JsString.eqb (Case.priority c) p.

(** A case whose priority is none of the three. *)
Definition other_priority (c : Case.t) : bool :=
  negb (bool_decide (Case.priority c ∈ PRIORITY_ORDER)).

(** The part of [summarize_step] that counts priorities. *)
Definition priority_step (priorityCount : gmap (list N) Z) (c : Case.t)
    : gmap (list N) Z :=
  if bool_decide (Case.priority c ∈ PRIORITY_ORDER)
  then incr (Case.priority c) priorityCount
  else incr PRIORITY_OTHER priorityCount.

(** Whether [priority_step] bumps the counter [k] for the case [c]. *)
Definition bumps (k : jsstring) (c : Case.t) : bool :=
  if bool_decide (Case.priority c ∈ PRIORITY_ORDER)
  then JsString.eqb (Case.priority c) k
  else JsString.eqb PRIORITY_OTHER k.

(** The order of [str_ltb], strict and not. *)
Definition str_lt (a b : jsstring) : Prop := str_ltb a b = true.
Definition str_le (a b : jsstring) : Prop := str_ltb b a = false.

(** What the page shows after a reload: [init] on the store as it is. *)
Definition reload (w : world) : world := init (localStorage w).

(** The collection and the file name are those that a reload would show. *)
Definition reload_safe (w : world) : Prop :=
  cases (app (reload w)) = cases (app w) /\
  sourceFile (app (reload w)) = sourceFile (app w).

(** An operation other than the clearing of the store. *)
Definition keeps_store (o : operation) : Prop :=
  match o with
  | ClearLocal => False
  | _ => True
  end.

(** A case whose exported row [parseCsv] and [normalizeSteps] read back:
    its time stamp, if it has one, can be formatted, so that the row is
    written; the row is readable line by line (which, the steps being
    joined by newlines, leaves room for one step at most); and the steps
    are normalised and give no match of the marker. *)
Definition reimportable (format_date : jsstring -> option jsstring)
    (c : Case.t) : bool :=
  match export_row format_date c with
  | Ok row =>
    readable_row row && forallb normalized_step (Case.steps c)
    && negb (has_br (join [LF] (Case.steps c)))
  | Throw _ => false
  end.

(** Two cases with the same identifier and descriptive fields. *)
Definition same_description (c c' : Case.t) : Prop :=
  Case.id c' = Case.id c /\ Case.module c' = Case.module c /\
  Case.scenario c' = Case.scenario c /\
  Case.precondition c' = Case.precondition c /\
  Case.steps c' = Case.steps c /\ Case.expected c' = Case.expected c /\
  Case.priority c' = Case.priority c /\ Case.remark c' = Case.remark c.

(** ** The name of a backup file *)










(** [text.split('\n')], the lines without the special case of the carriage
    return; used to show that [trim] makes that case redundant. *)
Fixpoint split_LF (text : jsstring) : list jsstring :=
  match text with
  | [] => [[]]
  | c :: t =>
    if c =? LF then [] :: split_LF t
    else match split_LF t with
         | l :: ls => (c :: l) :: ls
         | [] => [[c]]
         end
  end.

(** A line and the same line, possibly with one more carriage return at
    its end. *)
Definition up_to_CR (l l' : jsstring) : Prop := l' = l \/ l' = l ++ [CR].

(** A text cut into blocks at its empty lines, as a reader does who goes
    through the report line by line: the lines are the pieces between the
    newlines, and an empty line ends a block. *)
Fixpoint group_blocks (lines : list jsstring) : list (list jsstring) :=
  match lines with
  | [] => [[]]
  | [] :: rest => [] :: group_blocks rest
  | l :: rest =>
    match group_blocks rest with
    | b :: bs => (l :: b) :: bs
    | [] => [[l]]
    end
  end.

Definition text_blocks (text : jsstring) : list (list jsstring) :=
  group_blocks (split_LF text).

(** A case none of whose fields shown in the report holds a newline. *)
Definition shown_without_LF (c : Case.t) : bool :=
  forallb (fun field => negb (has_LF field))
    [ Case.id c; Case.module c; Case.scenario c; Case.status c;
      Case.priority c; Case.expected c; Case.actual c; Case.remark c ].

(** * Properties *)

(** ** The model on small inputs *)

Example js_code_units :
  js "a,b" = [97; 44; 98] /\ STATUS_NOT_RUN = [26410; 25191; 34892] /\
  HEADER_MARKER = [27979; 35797; 29992; 20363].
Proof. repeat split; reflexivity. Qed.

Example trim_ex : trim (js "  a b " ++ [CR]) = js "a b".
Proof. reflexivity. Qed.

Example escapeCsvField_ex :
  escapeCsvField (js "a,b") = QUOTE :: js "a,b" ++ [QUOTE] /\
  escapeCsvField (js "x" ++ [QUOTE] ++ js "y")
  = QUOTE :: js "x" ++ [QUOTE; QUOTE] ++ js "y" ++ [QUOTE] /\
  escapeCsvField (js "plain") = js "plain".
Proof. repeat split; reflexivity. Qed.

Example splitCsvLine_ex :
  splitCsvLine_fuel (js "a," ++ [QUOTE] ++ js "b,c" ++ [QUOTE; QUOTE; QUOTE] ++ js ",d")
  = Some [js "a"; js "b,c" ++ [QUOTE]; js "d"].
Proof. vm_compute. reflexivity. Qed.

Example parseCsv_ex :
  parseCsv (js "a,b" ++ [CR; LF] ++ js "  c , d  " ++ [LF; LF] ++ js "e")
  = [[js "a"; js "b"]; [js "c "; js " d"]; [js "e"]].
Proof. vm_compute. reflexivity. Qed.

Example normalizeSteps_ex :
  normalizeSteps (js "open <BR/> click<br  >" ++ [LF; LF] ++ js " check ")
  = [js "open"; js "click"; js "check"].
Proof. vm_compute. reflexivity. Qed.

(** The pass rate follows the binary64 arithmetic of the source: 29 passed
    cases out of 200 give [(29 / 200) * 100 = 14.499999999999998], which
    [Math.round] takes to 14. *)
Example pass_rate_ex :
  pass_rate 1 5 = Some 20%Z /\ pass_rate 29 200 = Some 14%Z /\
  pass_rate 1 3 = Some 33%Z /\ pass_rate 7 7 = Some 100%Z.
Proof. vm_compute. repeat split; reflexivity. Qed.

(** A status that names an inherited method: two cases with the status
    [toString] leave the five counters at zero, and the object holds under
    that name the text of the method followed by two digits. *)
Example summarize_inherited_ex :
  let s := summarize [case_with (js "T1") (js "toString") [] [];
                      case_with (js "T2") (js "toString") [] [];
                      case_with (js "T3") (js "__proto__") [] []] in
  Summary.statusText s !! js "toString" = Some 2%nat /\
  Summary.statusText s !! js "__proto__" = None /\
  Summary.statusCount s !! js "toString" = None /\
  Summary.statusCount s !! STATUS_NOT_RUN = Some 0%Z /\
  Summary.total s = 3%Z /\ Summary.executed s = 3%Z /\
  Summary.passRate s = Some 0%Z.
Proof. vm_compute. repeat split; reflexivity. Qed.

(** ** The CSV helpers *)

Section CsvFacts.

(** Induction following the look-ahead of the scan: a step continues with
    the rest of the line or, after a doubled quote, with the rest of that. *)
Lemma scan_ind (P : jsstring -> Prop) :
  P [] ->
  (forall x l, P l -> P (tail l) -> P (x :: l)) ->
  forall l, P l.
Proof.
  intros H0 Hstep l.
  assert (P l /\ P (tail l)) as [? _]; [|assumption].
  induction l as [|y l [IHl IHt]]; split; cbn [tail]; auto.
Qed.

(** The index loop and the structural scan agree, and the loop never runs
    out of fuel when given more steps than there are characters left. *)
Lemma splitCsvLine_loop_scan fuel line i cells current inQuotes :
  (length line - i < fuel)%nat ->
  splitCsvLine_loop fuel line i cells current inQuotes
  = Some (split_scan (drop i line) cells current inQuotes).
Proof.
  revert i cells current inQuotes.
  induction fuel as [|fuel IH]; intros i cells current inQuotes Hf; [lia|].
  cbn [splitCsvLine_loop].
  replace (i + 1)%nat with (S i) by lia.
  replace (i + 2)%nat with (S (S i)) by lia.
  lazymatch goal with
  | |- match ?x with _ => _ end = _ => destruct x as [ch|] eqn:Hi
  end.
  - pose proof (lookup_lt_Some _ _ _ Hi) as Hlt.
    rewrite (drop_S _ _ _ Hi). cbn [split_scan].
    destruct (ch =? QUOTE) eqn:Hq.
    + case_bool_decide as Hd.
      * rewrite (drop_S _ _ _ Hd).
        change (QUOTE =? QUOTE) with true.
        destruct inQuotes; cbn [andb]; rewrite IH by lia;
          rewrite ?(drop_S _ _ _ Hd); reflexivity.
      * assert (match drop (S i) line with
                | [] => split_scan (drop (S i) line) cells current (negb inQuotes)
                | ch' :: rest'' =>
                  if inQuotes && (ch' =? QUOTE)
                  then split_scan rest'' cells (current ++ [QUOTE]) inQuotes
                  else split_scan (drop (S i) line) cells current (negb inQuotes)
                end = split_scan (drop (S i) line) cells current (negb inQuotes))
          as ->.
        { destruct (drop (S i) line) as [|ch' rest''] eqn:Hd'; [reflexivity|].
          destruct (N.eqb_spec ch' QUOTE) as [->|Hne];
            [|rewrite andb_false_r; reflexivity].
          exfalso. apply Hd.
          rewrite <- (Nat.add_0_r (S i)), <- lookup_drop, Hd'. reflexivity. }
        rewrite andb_false_r. apply IH. lia.
    + destruct ((ch =? COMMA) && negb inQuotes); apply IH; lia.
  - apply lookup_ge_None in Hi. rewrite drop_ge by lia. reflexivity.
Qed.

Lemma splitCsvLine_fuel_total line :
  splitCsvLine_fuel line = Some (splitCsvLine line).
Proof.
  unfold splitCsvLine_fuel, splitCsvLine.
  rewrite splitCsvLine_loop_scan by lia. rewrite drop_0. reflexivity.
Qed.

(** One step of the scan, whatever the length of the rest. *)
Lemma split_scan_cons ch rest cells current inQuotes :
  split_scan (ch :: rest) cells current inQuotes =
  if ch =? QUOTE then
    if inQuotes && next_is_quote rest
    then split_scan (tail rest) cells (current ++ [QUOTE]) inQuotes
    else split_scan rest cells current (negb inQuotes)
  else if (ch =? COMMA) && negb inQuotes
  then split_scan rest (cells ++ [current]) [] inQuotes
  else split_scan rest cells (current ++ [ch]) inQuotes.
Proof.
  destruct rest; cbn [split_scan next_is_quote tail];
    rewrite ?andb_false_r; reflexivity.
Qed.

Lemma marks_cons ch rest inQuotes :
  marks (ch :: rest) inQuotes =
  if ch =? QUOTE then
    if inQuotes && next_is_quote rest
    then Some QUOTE :: marks (tail rest) inQuotes
    else marks rest (negb inQuotes)
  else if (ch =? COMMA) && negb inQuotes
  then None :: marks rest inQuotes
  else Some ch :: marks rest inQuotes.
Proof.
  destruct rest; cbn [marks next_is_quote tail];
    rewrite ?andb_false_r; reflexivity.
Qed.

Lemma pieces_nonempty ms : pieces ms <> [].
Proof.
  destruct ms as [|[c|] ms]; cbn; [discriminate| |discriminate].
  destruct (pieces ms); discriminate.
Qed.

Lemma prepend_pieces_Some current c ms :
  prepend current (pieces (Some c :: ms)) = prepend (current ++ [c]) (pieces ms).
Proof.
  cbn [pieces]. destruct (pieces ms); cbn; rewrite <- ?app_assoc; reflexivity.
Qed.

(** The scan cuts the content of the line at the delimiters it detects. *)
Lemma split_scan_pieces rest : forall cells current inQuotes,
  split_scan rest cells current inQuotes
  = cells ++ prepend current (pieces (marks rest inQuotes)).
Proof.
  induction rest as [|x l IHl IHt] using scan_ind; intros cells current q.
  - cbn. rewrite app_nil_r. reflexivity.
  - rewrite split_scan_cons, marks_cons. destruct (x =? QUOTE).
    + destruct (q && next_is_quote l); [|apply IHl].
      rewrite IHt, prepend_pieces_Some. reflexivity.
    + destruct ((x =? COMMA) && negb q).
      * rewrite IHl. cbn [pieces prepend]. rewrite app_nil_r.
        pose proof (pieces_nonempty (marks l q)) as Hne.
        destruct (pieces (marks l q)); [congruence|].
        cbn. rewrite <- app_assoc. reflexivity.
      * rewrite IHl, prepend_pieces_Some. reflexivity.
Qed.

Lemma splitCsvLine_pieces line :
  splitCsvLine line = pieces (marks line false).
Proof.
  unfold splitCsvLine. rewrite split_scan_pieces. cbn.
  pose proof (pieces_nonempty (marks line false)).
  destruct (pieces (marks line false)); [congruence | reflexivity].
Qed.

Lemma parseCsv_loops_total text : parseCsv_loops text = Some (parseCsv text).
Proof.
  unfold parseCsv_loops, parseCsv.
  induction (List.filter truthy (List.map trim (split_lines text))) as [|l ls IH].
  - reflexivity.
  - cbn [mapM List.map]. rewrite splitCsvLine_fuel_total. cbn.
    rewrite IH. reflexivity.
Qed.

(** *** Trimming *)

Lemma trimStart_split s :
  exists pre, s = pre ++ trimStart s /\ forallb is_ws pre = true.
Proof.
  induction s as [|c t [pre [Ht Hpre]]]; [exists []; split; reflexivity|].
  cbn [trimStart]. destruct (is_ws c) eqn:Hc.
  - exists (c :: pre). cbn. rewrite Hc, Hpre. split; [congruence | reflexivity].
  - exists []. split; reflexivity.
Qed.

Lemma trimStart_head s c t : trimStart s = c :: t -> is_ws c = false.
Proof.
  induction s as [|x s IH]; cbn [trimStart]; [discriminate|].
  destruct (is_ws x) eqn:Hx; [exact IH|]. intros [= -> _]. exact Hx.
Qed.

Lemma trimStart_id c t : is_ws c = false -> trimStart (c :: t) = c :: t.
Proof. intros H. cbn. rewrite H. reflexivity. Qed.

Lemma trimEnd_last s t c : trimEnd s = t ++ [c] -> is_ws c = false.
Proof.
  unfold trimEnd. intros H.
  apply (f_equal (@rev N)) in H. rewrite rev_involutive, rev_app_distr in H.
  cbn in H. eapply trimStart_head, H.
Qed.

Lemma trimEnd_id t c : is_ws c = false -> trimEnd (t ++ [c]) = t ++ [c].
Proof.
  intros H. unfold trimEnd. rewrite rev_app_distr.
  change (rev [c] ++ rev t) with (c :: rev t).
  rewrite trimStart_id by exact H.
  change (c :: rev t) with (rev [c] ++ rev t).
  rewrite <- rev_app_distr, rev_involutive. reflexivity.
Qed.

Lemma trimEnd_split s :
  exists post, s = trimEnd s ++ post /\ forallb is_ws post = true.
Proof.
  unfold trimEnd. destruct (trimStart_split (rev s)) as [pre [Hs Hpre]].
  exists (rev pre). split.
  - rewrite <- rev_app_distr, <- Hs, rev_involutive. reflexivity.
  - rewrite forallb_forall in *. intros x Hx. apply Hpre, in_rev, Hx.
Qed.

(** A trimmed string is empty, or begins and ends with a code unit that is
    not white space. *)
Lemma trim_ends s :
  trim s = [] \/
  (exists c t, trim s = c :: t /\ is_ws c = false) /\
  (exists t c, trim s = t ++ [c] /\ is_ws c = false).
Proof.
  unfold trim. destruct (trimEnd (trimStart s)) as [|c t] eqn:He; [left; reflexivity|].
  right. split.
  - exists c, t. split; [reflexivity|].
    destruct (trimEnd_split (trimStart s)) as [post [Hs _]].
    rewrite He in Hs. eapply trimStart_head. exact Hs.
  - destruct (exists_last (l := c :: t)) as [t' [c' Hl]]; [discriminate|].
    exists t', c'. split; [exact Hl|].
    rewrite Hl in He. eapply trimEnd_last, He.
Qed.

Lemma trim_id c t c' :
  is_ws c = false -> is_ws c' = false ->
  trim (c :: t ++ [c']) = c :: t ++ [c'].
Proof.
  intros Hc Hc'. unfold trim. rewrite trimStart_id by exact Hc.
  apply (trimEnd_id (c :: t)). exact Hc'.
Qed.

(** *** Escaping and parsing back *)

Lemma double_quotes_no_LF value :
  ~ In LF value -> ~ In LF (double_quotes value).
Proof.
  induction value as [|c t IH]; [auto|]. intros Hn. cbn [double_quotes].
  assert (~ In LF t) as Ht by (intros H; apply Hn; right; exact H).
  assert (c <> LF) as Hc by (intros ->; apply Hn; left; reflexivity).
  destruct (c =? QUOTE) eqn:Hq.
  - intros [H|[H|H]]; [discriminate H | discriminate H | exact (IH Ht H)].
  - intros [H|H]; [congruence | exact (IH Ht H)].
Qed.

Lemma split_lines_no_LF text : ~ In LF text -> split_lines text = [text].
Proof.
  induction text as [|c t IH]; [reflexivity|]. intros Hn.
  assert (~ In LF t) as Ht by (intros H; apply Hn; right; exact H).
  assert ((c =? LF) = false) as Hc.
  { apply N.eqb_neq. intros ->. apply Hn. left. reflexivity. }
  cbn [split_lines]. rewrite Hc, (IH Ht).
  destruct (c =? CR); [|reflexivity].
  destruct t as [|c' t']; [reflexivity|].
  destruct (N.eqb_spec c' LF) as [->|_]; [|reflexivity].
  exfalso. apply Ht. left. reflexivity.
Qed.

(** Inside quotes, the scan undoes the doubling of the quotes. *)
Lemma split_scan_double_quotes value : forall cells current,
  split_scan (double_quotes value ++ [QUOTE]) cells current true
  = cells ++ [current ++ value].
Proof.
  induction value as [|c t IH]; intros cells current.
  - cbn. rewrite app_nil_r. reflexivity.
  - cbn [double_quotes]. destruct (c =? QUOTE) eqn:Hq.
    + apply N.eqb_eq in Hq. subst c.
      change ((QUOTE :: QUOTE :: double_quotes t) ++ [QUOTE])
        with (QUOTE :: QUOTE :: (double_quotes t ++ [QUOTE])).
      rewrite split_scan_cons. cbn [next_is_quote tail andb].
      change (QUOTE =? QUOTE) with true. cbv iota.
      rewrite IH, <- app_assoc. reflexivity.
    + change ((c :: double_quotes t) ++ [QUOTE])
        with (c :: (double_quotes t ++ [QUOTE])).
      rewrite split_scan_cons, Hq. cbn [negb]. rewrite andb_false_r.
      rewrite IH, <- app_assoc. reflexivity.
Qed.

Lemma splitCsvLine_quoted value :
  splitCsvLine (QUOTE :: double_quotes value ++ [QUOTE]) = [value].
Proof.
  unfold splitCsvLine. rewrite split_scan_cons.
  change (QUOTE =? QUOTE) with true. cbn [andb negb].
  apply (split_scan_double_quotes value [] []).
Qed.

(** A field that has to be quoted and that holds no newline comes back as
    it was: one row of one cell. *)
Lemma escapeCsvField_roundtrip value :
  needs_quoting value = true -> ~ In LF value ->
  parseCsv (escapeCsvField value) = [[value]].
Proof.
  intros Hq Hn. unfold escapeCsvField, parseCsv. rewrite Hq.
  rewrite split_lines_no_LF.
  - cbn [List.map]. rewrite (trim_id QUOTE (double_quotes value) QUOTE) by reflexivity.
    cbn [List.filter truthy List.map]. rewrite splitCsvLine_quoted. reflexivity.
  - intros [H|H]; [discriminate H|].
    apply in_app_or in H. destruct H as [H|[H|[]]]; [|discriminate H].
    exact (double_quotes_no_LF value Hn H).
Qed.

(** *** The outermost cells of a row *)

Lemma marks_snoc c : c <> QUOTE -> forall rest inQuotes,
  exists inQuotes',
    marks (rest ++ [c]) inQuotes = marks rest inQuotes ++ marks [c] inQuotes'.
Proof.
  intros Hc. apply N.eqb_neq in Hc.
  induction rest as [|x l IHl IHt] using scan_ind; intros q.
  - exists q. reflexivity.
  - change ((x :: l) ++ [c]) with (x :: (l ++ [c])). rewrite !marks_cons.
    assert (next_is_quote (l ++ [c]) = next_is_quote l) as ->.
    { destruct l; [cbn; exact Hc | reflexivity]. }
    destruct (x =? QUOTE).
    + destruct (q && next_is_quote l) eqn:Hb.
      * destruct l as [|y l']; [cbn in Hb; rewrite andb_false_r in Hb; discriminate|].
        cbn [tail app]. cbn [tail] in IHt.
        destruct (IHt q) as [q' Hq']. exists q'. simpl tail. rewrite Hq'. reflexivity.
      * apply IHl.
    + destruct ((x =? COMMA) && negb q);
        destruct (IHl q) as [q' ->]; exists q'; reflexivity.
Qed.

Lemma pieces_snoc_None ms : pieces (ms ++ [None]) = pieces ms ++ [[]].
Proof.
  induction ms as [|[c|] ms IH]; [reflexivity| |];
    rewrite <- app_comm_cons; simpl pieces; rewrite IH; [|reflexivity].
  pose proof (pieces_nonempty ms).
  destruct (pieces ms); [congruence | reflexivity].
Qed.

Lemma pieces_snoc_Some ms c :
  exists ps p, pieces ms = ps ++ [p] /\ pieces (ms ++ [Some c]) = ps ++ [p ++ [c]].
Proof.
  induction ms as [|[x|] ms (ps & p & IH1 & IH2)].
  - exists [], []. split; reflexivity.
  - rewrite <- app_comm_cons. simpl pieces. rewrite IH1, IH2.
    destruct ps as [|p0 ps'].
    + exists [], (x :: p). split; reflexivity.
    + exists ((x :: p0) :: ps'), p. split; reflexivity.
  - rewrite <- app_comm_cons. simpl pieces. rewrite IH1, IH2.
    exists ([] :: ps), p. split; reflexivity.
Qed.

Lemma last_pieces_None ms : last (pieces (ms ++ [None])) = Some [].
Proof. rewrite pieces_snoc_None. apply last_snoc. Qed.

Lemma last_pieces_Some ms c :
  exists p, last (pieces (ms ++ [Some c])) = Some (p ++ [c]).
Proof.
  destruct (pieces_snoc_Some ms c) as (ps & p & _ & ->).
  exists p. apply last_snoc.
Qed.

(** The first cell of a line that starts with neither white space nor a
    quote starts with no white space. *)
Lemma splitCsvLine_first c t :
  is_ws c = false -> c <> QUOTE ->
  exists first, head (splitCsvLine (c :: t)) = Some first /\ trimStart first = first.
Proof.
  intros Hw Hq. apply N.eqb_neq in Hq.
  rewrite splitCsvLine_pieces, marks_cons, Hq.
  destruct ((c =? COMMA) && negb false).
  - exists []. split; reflexivity.
  - cbn [pieces]. destruct (pieces (marks t false)) as [|p ps];
      (eexists; split; [reflexivity | apply trimStart_id, Hw]).
Qed.

(** The last cell of a line that ends with neither white space nor a quote
    ends with no white space. *)
Lemma splitCsvLine_last t c :
  is_ws c = false -> c <> QUOTE ->
  exists lst, last (splitCsvLine (t ++ [c])) = Some lst /\ trimEnd lst = lst.
Proof.
  intros Hw Hq. rewrite splitCsvLine_pieces.
  destruct (marks_snoc c Hq t false) as [q' ->].
  apply N.eqb_neq in Hq. cbn [marks]. rewrite Hq.
  destruct ((c =? COMMA) && negb q').
  - exists []. split; [apply last_pieces_None | reflexivity].
  - destruct (last_pieces_Some (marks t false) c) as [p Hp].
    exists (p ++ [c]). split; [exact Hp | apply trimEnd_id, Hw].
Qed.

End CsvFacts.

(** *** The claims about the CSV helpers *)

(** Claim C1, at the input where the code departs from it: a field that
    holds a newline is quoted by [escapeCsvField], but [parseCsv] cuts the
    text at every newline before it looks at the quotes, so the field comes
    back as two rows of one cell each and not as the original string. *)
Theorem escapeCsvField_newline_not_restored :
  let field := js "a" ++ [LF] ++ js "b" in
  needs_quoting field = true /\
  escapeCsvField field = QUOTE :: js "a" ++ [LF] ++ js "b" ++ [QUOTE] /\
  parseCsv (escapeCsvField field) = [[js "a"]; [js "b"]] /\
  parseCsv (escapeCsvField field) <> [[field]].
Proof. vm_compute. repeat split; discriminate. Qed.

(** Claim C7: parsing is total.  For every text the index loops of
    [splitCsvLine], run on the non-blank trimmed lines in order, all end
    and give the rows of [parseCsv]; each row holds, cell by cell, the
    content that lies between the delimiters detected in its line; and a
    line with an unterminated quote is parsed like any other (the rest of
    the line is one cell). *)
Theorem parseCsv_total text :
  parseCsv_loops text = Some (parseCsv text) /\
  Forall2 (fun row line => row = pieces (marks line false))
          (parseCsv text)
          (List.filter truthy (List.map trim (split_lines text))) /\
  parseCsv (QUOTE :: js "ab,cd") = [[js "ab,cd"]].
Proof.
  split; [apply parseCsv_loops_total|]. split; [|reflexivity].
  unfold parseCsv.
  induction (List.filter truthy (List.map trim (split_lines text))) as [|l ls IH];
    constructor; [apply splitCsvLine_pieces | exact IH].
Qed.

(** Claim C10 as stated fails: a quoted first (or last) cell keeps the
    white space that the quotes enclose, because the trimmed line starts
    and ends with the quote. *)
Lemma parseCsv_keeps_quoted_whitespace :
  ~ (forall text row,
       In row (parseCsv text) ->
       (exists first, head row = Some first /\ trimStart first = first) /\
       (exists lst, last row = Some lst /\ trimEnd lst = lst)).
Proof.
  intros H.
  destruct (H (QUOTE :: js " a " ++ [QUOTE] ++ js ",b") [js " a "; js "b"])
    as [(first & Hf & Ht) _].
  - vm_compute. left. reflexivity.
  - injection Hf as <-. vm_compute in Ht. discriminate Ht.
Qed.

(** Claim C10, amended: every parsed row is the split of a trimmed,
    non-empty physical line; its first cell starts with no white space
    unless the trimmed line starts with a quote, and its last cell ends
    with no white space unless the trimmed line ends with a quote. *)
Theorem parseCsv_outer_cells text row :
  In row (parseCsv text) ->
  exists line,
    In line (split_lines text) /\ trim line <> [] /\
    row = splitCsvLine (trim line) /\
    (head (trim line) <> Some QUOTE ->
     exists first, head row = Some first /\ trimStart first = first) /\
    (last (trim line) <> Some QUOTE ->
     exists lst, last row = Some lst /\ trimEnd lst = lst).
Proof.
  unfold parseCsv. intros Hrow.
  apply in_map_iff in Hrow. destruct Hrow as (tl & <- & Hin).
  apply filter_In in Hin. destruct Hin as [Hin Htruthy].
  apply in_map_iff in Hin. destruct Hin as (line & <- & Hline).
  exists line. split; [exact Hline|].
  split; [intros He; rewrite He in Htruthy; discriminate|].
  split; [reflexivity|].
  destruct (trim_ends line) as [He|[(c & t & Hc & Hwc) (t' & c' & Hc' & Hwc')]];
    [rewrite He in Htruthy; discriminate|].
  split.
  - rewrite Hc. intros Hq. apply splitCsvLine_first; [exact Hwc|].
    intros ->. apply Hq. reflexivity.
  - rewrite Hc'. intros Hq. apply splitCsvLine_last; [exact Hwc'|].
    intros ->. apply Hq. apply last_snoc.
Qed.

(** An instance: the line [  x , y  ] gives the cells [x ] and [ y]. *)
Lemma parseCsv_outer_cells_witness :
  exists line,
    In line (split_lines (js "  x , y  ")) /\ trim line <> [] /\
    [js "x "; js " y"] = splitCsvLine (trim line) /\
    (head (trim line) <> Some QUOTE ->
     exists first, head [js "x "; js " y"] = Some first /\ trimStart first = first) /\
    (last (trim line) <> Some QUOTE ->
     exists lst, last [js "x "; js " y"] = Some lst /\ trimEnd lst = lst).
Proof.
  apply (parseCsv_outer_cells (js "  x , y  ") [js "x "; js " y"]).
  vm_compute. left. reflexivity.
Defined.

(** ** Step normalisation *)

Section StepFacts.

Lemma match_br_tail_app t r n :
  match_br_tail t = Some n -> match_br_tail (t ++ r) = Some n.
Proof.
  revert n. induction t as [|c t IH]; intros n; simpl; [discriminate|].
  destruct (is_ws c).
  - destruct (match_br_tail t) as [k|]; [|discriminate].
    intros H. rewrite (IH k eq_refl). exact H.
  - destruct (c =? GT); [trivial|]. destruct (c =? SLASH); [|trivial].
    destruct t; [discriminate | trivial].
Qed.

Lemma match_br_app s r n : match_br s = Some n -> match_br (s ++ r) = Some n.
Proof.
  destruct s as [|c0 [|c1 [|c2 t]]]; simpl; try discriminate.
  destruct ((c0 =? LT) && is_b c1 && is_r c2); [|discriminate].
  destruct (match_br_tail t) as [k|] eqn:Hk; [|discriminate].
  rewrite (match_br_tail_app _ r _ Hk). trivial.
Qed.

(** A match cannot run into a following [<]. *)
Lemma match_br_tail_before_LT t r :
  match_br_tail t = None -> match_br_tail (t ++ LT :: r) = None.
Proof.
  induction t as [|c t IH]; simpl; [reflexivity|].
  destruct (is_ws c).
  - destruct (match_br_tail t); [discriminate|]. rewrite IH; reflexivity.
  - destruct (c =? GT); [discriminate|]. destruct (c =? SLASH); [|trivial].
    destruct t; [reflexivity | trivial].
Qed.

Lemma match_br_before_LT s r :
  s <> [] -> match_br s = None -> match_br (s ++ LT :: r) = None.
Proof.
  destruct s as [|c0 [|c1 [|c2 t]]]; intros Hs; [congruence| | |].
  - intros _. simpl. rewrite andb_false_r. destruct r; reflexivity.
  - intros _. simpl. rewrite andb_false_r. reflexivity.
  - simpl. destruct ((c0 =? LT) && is_b c1 && is_r c2); [|trivial].
    destruct (match_br_tail t) eqn:Hk; [discriminate|].
    rewrite (match_br_tail_before_LT _ _ Hk). trivial.
Qed.

Lemma is_marker_shape m : is_marker m -> exists m', m = LT :: m'.
Proof.
  unfold is_marker. destruct m as [|c0 [|c1 [|c2 t]]]; cbn [match_br]; try discriminate.
  destruct (N.eqb_spec c0 LT) as [->|]; [eauto | discriminate].
Qed.

Lemma replace_br_from_skip a b :
  replace_br_from (length a) (a ++ b) = replace_br_from 0 b.
Proof. induction a as [|c a IH]; [reflexivity | exact IH]. Qed.

Lemma has_br_cons c t :
  has_br (c :: t) = false -> match_br (c :: t) = None /\ has_br t = false.
Proof.
  cbn [has_br]. intros H. apply orb_false_elim in H. destruct H as [H1 H2].
  split; [|exact H2]. apply bool_decide_eq_false in H1.
  destruct (match_br (c :: t)); [exfalso; apply H1; eauto | reflexivity].
Qed.

Lemma has_br_app_r a b : has_br (a ++ b) = false -> has_br b = false.
Proof.
  induction a as [|c a IH]; [trivial|]. intros H.
  change ((c :: a) ++ b) with (c :: (a ++ b)) in H.
  apply has_br_cons in H. apply IH, H.
Qed.

Lemma has_br_app_l a b : has_br (a ++ b) = false -> has_br a = false.
Proof.
  induction a as [|c a IH]; [reflexivity|]. intros H.
  change ((c :: a) ++ b) with (c :: (a ++ b)) in H.
  apply has_br_cons in H. destruct H as [Hm Hb].
  cbn [has_br]. rewrite (IH Hb), orb_false_r.
  apply bool_decide_eq_false. intros [n Hn].
  apply (match_br_app _ b) in Hn.
  change ((c :: a) ++ b) with (c :: (a ++ b)) in Hn. congruence.
Qed.

(** Without a match, nothing is replaced. *)
Lemma replace_br_none s : has_br s = false -> replace_br s = s.
Proof.
  unfold replace_br. induction s as [|c t IH]; [reflexivity|]. intros H.
  destruct (has_br_cons _ _ H) as [Hm Ht].
  cbn [replace_br_from]. rewrite Hm, (IH Ht). reflexivity.
Qed.

(** A marker after a marker-free text is replaced by one newline, and the
    replacement goes on behind it. *)
Lemma replace_br_marker p1 m p2 :
  has_br p1 = false -> is_marker m ->
  replace_br (p1 ++ m ++ p2) = p1 ++ [LF] ++ replace_br p2.
Proof.
  intros Hp Hm. unfold replace_br.
  destruct (is_marker_shape m Hm) as [m' ->].
  induction p1 as [|c t IH].
  - change ([] ++ (LT :: m') ++ p2) with (LT :: (m' ++ p2)).
    pose proof (match_br_app (LT :: m') p2 _ Hm) as Hm2.
    change ((LT :: m') ++ p2) with (LT :: (m' ++ p2)) in Hm2.
    cbn [replace_br_from]. rewrite Hm2.
    change (Nat.pred (length (LT :: m'))) with (length m').
    rewrite replace_br_from_skip. reflexivity.
  - destruct (has_br_cons _ _ Hp) as [Hc Ht].
    pose proof (match_br_before_LT (c :: t) (m' ++ p2) ltac:(discriminate) Hc) as Hn.
    change ((c :: t) ++ LT :: m' ++ p2) with (c :: (t ++ (LT :: m') ++ p2)) in Hn.
    change ((c :: t) ++ (LT :: m') ++ p2) with (c :: (t ++ (LT :: m') ++ p2)).
    cbn [replace_br_from]. rewrite Hn.
    change ((c :: t) ++ [LF] ++ replace_br_from 0 p2)
      with (c :: (t ++ [LF] ++ replace_br_from 0 p2)).
    f_equal. apply (IH Ht).
Qed.

Lemma split_newlines_no_LF s : ~ In LF s -> split_newlines s = [s].
Proof.
  induction s as [|c t IH]; [reflexivity|]. intros Hn.
  assert ((c =? LF) = false) as Hc.
  { apply N.eqb_neq. intros ->. apply Hn. left. reflexivity. }
  cbn [split_newlines]. rewrite Hc, IH; [reflexivity|].
  intros H. apply Hn. right. exact H.
Qed.

Lemma split_newlines_two p1 p2 :
  ~ In LF p1 -> ~ In LF p2 -> split_newlines (p1 ++ [LF] ++ p2) = [p1; p2].
Proof.
  intros H1 H2. induction p1 as [|c t IH].
  - change ([] ++ [LF] ++ p2) with (LF :: p2). cbn [split_newlines].
    change (LF =? LF) with true. cbv iota.
    rewrite (split_newlines_no_LF p2 H2).
    destruct p2 as [|c' p2']; [reflexivity|].
    destruct (N.eqb_spec c' LF) as [->|_]; [|reflexivity].
    exfalso. apply H2. left. reflexivity.
  - assert ((c =? LF) = false) as Hc.
    { apply N.eqb_neq. intros ->. apply H1. left. reflexivity. }
    change ((c :: t) ++ [LF] ++ p2) with (c :: (t ++ [LF] ++ p2)).
    cbn [split_newlines]. rewrite Hc, IH; [reflexivity|].
    intros H. apply H1. right. exact H.
Qed.

Lemma join_cons2 sep (f f' : list N) fs :
  join sep (f :: f' :: fs) = f ++ sep ++ join sep (f' :: fs).
Proof. reflexivity. Qed.

(** Fragments joined by a marker become the fragments joined by newlines,
    when the latter text holds no marker of its own. *)
Lemma replace_br_join m fs :
  is_marker m -> has_br (join [LF] fs) = false ->
  replace_br (join m fs) = join [LF] fs.
Proof.
  intros Hm. induction fs as [|f [|f' fs] IH]; intros Hb.
  - reflexivity.
  - apply replace_br_none, Hb.
  - rewrite join_cons2 in Hb |- *.
    rewrite replace_br_marker; [|exact (has_br_app_l _ _ Hb) | exact Hm].
    rewrite IH; [reflexivity|].
    apply has_br_app_r in Hb. apply (has_br_app_r [LF]) in Hb. exact Hb.
Qed.

End StepFacts.

(** ** Reconciliation *)

Section MergeFacts.

Lemma fold_insert_lookup (cs : list Case.t) : forall (m : gmap (list N) Case.t) k,
  fold_left (fun acc item => <[Case.id item := item]> acc) cs m !! k
  = match prior cs k with
    | Some c => Some c
    | None => m !! k
    end.
Proof.
  unfold prior. induction cs as [|c cs IH]; intros m k; [reflexivity|].
  cbn [fold_left List.filter]. rewrite IH. unfold JsString.eqb at 2.
  case_bool_decide as Hk.
  - destruct (List.filter _ cs) as [|c' l] eqn:Hf.
    + cbn. rewrite <- Hk. apply lookup_insert_eq.
    + change (last (c :: c' :: l)) with (last (c' :: l)).
      destruct (last (c' :: l)) eqn:Hl; [reflexivity|].
      apply last_None in Hl. discriminate Hl.
  - destruct (last (List.filter _ cs)); [reflexivity|].
    apply lookup_insert_ne. exact Hk.
Qed.

(** [savedMap[id]] is the last case with that identifier, if any. *)
Lemma savedMap_lookup cs k : savedMap cs !! k = prior cs k.
Proof.
  unfold savedMap. rewrite fold_insert_lookup.
  destruct (prior cs k); [reflexivity | apply lookup_empty].
Qed.

Lemma prior_In cs k c : prior cs k = Some c -> In c cs /\ Case.id c = k.
Proof.
  unfold prior. intros H.
  assert (In c (List.filter (fun c => JsString.eqb (Case.id c) k) cs)) as Hin.
  { apply list_elem_of_In. eapply last_Some_elem_of, H. }
  apply filter_In in Hin. destruct Hin as [Hin Hk]. split; [exact Hin|].
  unfold JsString.eqb in Hk. apply bool_decide_eq_true in Hk. exact Hk.
Qed.

Lemma prior_None cs k : prior cs k = None -> forall c, In c cs -> Case.id c <> k.
Proof.
  unfold prior. intros H c Hin Hk. apply last_None in H.
  assert (In c (List.filter (fun c => JsString.eqb (Case.id c) k) cs)) as Hf.
  { apply filter_In. split; [exact Hin|].
    unfold JsString.eqb. apply bool_decide_eq_true. exact Hk. }
  rewrite H in Hf. exact Hf.
Qed.

(** With pairwise distinct identifiers, every case is the one found under
    its own identifier. *)
Lemma prior_NoDup cs c :
  NoDup (List.map Case.id cs) -> In c cs -> prior cs (Case.id c) = Some c.
Proof.
  intros Hnd Hin. destruct (prior cs (Case.id c)) as [c'|] eqn:Hp.
  - apply prior_In in Hp. destruct Hp as [Hin' Hid]. f_equal.
    clear -Hnd Hin Hin' Hid. induction cs as [|x cs IH]; [destruct Hin|].
    cbn [List.map] in Hnd. apply NoDup_cons in Hnd. destruct Hnd as [Hx Hnd].
    assert (forall y, In y cs -> Case.id y <> Case.id x) as Hfresh.
    { intros y Hy Heq. apply Hx. rewrite <- Heq.
      apply list_elem_of_In, in_map, Hy. }
    destruct Hin as [->|Hin], Hin' as [->|Hin']; auto.
    + exfalso. eapply Hfresh; eauto.
    + exfalso. eapply Hfresh; eauto.
  - exfalso. eapply prior_None; eauto.
Qed.

Lemma or_else_nonempty (a b : list N) : a <> [] -> or_else a b = a.
Proof. destruct a; [congruence | reflexivity]. Qed.

Lemma or_else_nil (a : list N) : or_else a [] = a.
Proof. destruct a; reflexivity. Qed.

(** The cases after an import of at least one row. *)
Lemma applyRows_cases w rows filename now :
  rows <> [] ->
  cases (app (applyRows w rows filename now))
  = List.map (reconcile (savedMap (cases (app w)))) (drop (startIndex rows) rows).
Proof. destruct rows; [congruence | reflexivity]. Qed.

End MergeFacts.

(** Claim C2: after an import, the case made from each data row (the rows
    after the optional header) has the row's identifier; when the prior
    collection holds a case with that identifier (the last one, should there
    be several), the new case has its status (a status that is not the empty
    string, as the five values are), its actual result and its time stamp;
    otherwise it has status not-run, an empty actual result and no time
    stamp.  In the scenario, rows 1 to 3 are imported over a collection
    that knows row 2 as passed: row 2 stays passed, rows 1 and 3 are
    not-run. *)
Theorem applyRows_reconciles :
  (forall w rows filename now i row,
     drop (startIndex rows) rows !! i = Some row ->
     exists c,
       cases (app (applyRows w rows filename now)) !! i = Some c /\
       Case.id c = cell row 0 /\
       match prior (cases (app w)) (cell row 0) with
       | Some p =>
         (Case.status p <> [] -> Case.status c = Case.status p) /\
         Case.actual c = Case.actual p /\
         Case.updatedAt c = Case.updatedAt p
       | None =>
         Case.status c = STATUS_NOT_RUN /\ Case.actual c = [] /\
         Case.updatedAt c = []
       end) /\
  (let w := mk_world
              (set_cases initial_state
                 [case_with (js "TC-2") STATUS_PASSED (js "ok") (js "2024-01-01T00:00:00.000Z")])
              None in
   let rows := [[js "TC-1"; js "m"]; [js "TC-2"; js "m"]; [js "TC-3"; js "m"]] in
   List.map Case.status (cases (app (applyRows w rows (js "f.csv") (js "t"))))
   = [STATUS_NOT_RUN; STATUS_PASSED; STATUS_NOT_RUN]).
Proof.
  split; [|vm_compute; reflexivity].
  intros w rows filename now i row Hrow.
  assert (rows <> []) as Hne.
  { intros ->. rewrite drop_nil in Hrow. discriminate Hrow. }
  rewrite applyRows_cases by exact Hne.
  exists (reconcile (savedMap (cases (app w))) row). split.
  - rewrite list_lookup_fmap, Hrow. reflexivity.
  - split; [reflexivity|]. unfold reconcile. cbn [Case.status Case.actual Case.updatedAt].
    rewrite savedMap_lookup.
    destruct (prior (cases (app w)) (cell row 0)) as [p|]; cbn [saved_field].
    + split; [apply or_else_nonempty|]. split; apply or_else_nil.
    + auto.
Qed.

(** An instance: the second data row of an import with a header row, over
    a collection that knows its identifier as failed. *)
Lemma applyRows_reconciles_witness :
  let prior_case := case_with (js "TC-2") STATUS_FAILED (js "crash") (js "t0") in
  let w := mk_world (set_cases initial_state [prior_case]) None in
  let rows := [[js "测试用例ID"]; [js "TC-1"]; [js "TC-2"]] in
  exists c,
    cases (app (applyRows w rows (js "f.csv") (js "t1"))) !! 1%nat = Some c /\
    Case.id c = cell [js "TC-2"] 0 /\
    match prior (cases (app w)) (cell [js "TC-2"] 0) with
    | Some p =>
      (Case.status p <> [] -> Case.status c = Case.status p) /\
      Case.actual c = Case.actual p /\
      Case.updatedAt c = Case.updatedAt p
    | None =>
      Case.status c = STATUS_NOT_RUN /\ Case.actual c = [] /\
      Case.updatedAt c = []
    end.
Proof.
  intros prior_case w rows.
  apply (proj1 applyRows_reconciles w rows (js "f.csv") (js "t1") 1%nat [js "TC-2"]).
  vm_compute. reflexivity.
Defined.

(** Claim C8 as stated fails when two cases share an identifier: both rows
    then take the state of the later one. *)
Lemma applyRows_not_idempotent_on_duplicates :
  ~ (forall w rows filename now,
       List.map (fun row => cell row 0) (drop (startIndex rows) rows)
       = List.map Case.id (cases (app w)) ->
       List.map Case.status (cases (app (applyRows w rows filename now)))
       = List.map Case.status (cases (app w))).
Proof.
  intros H.
  specialize (H (mk_world
                   (set_cases initial_state
                      [case_with (js "TC-1") STATUS_PASSED [] [];
                       case_with (js "TC-1") STATUS_FAILED [] []])
                   None)
                [[js "TC-1"]; [js "TC-1"]] (js "f.csv") (js "t")).
  vm_compute in H. specialize (H eq_refl). discriminate H.
Qed.

(** Claim C8, amended: when the identifiers of the collection are pairwise
    distinct and no status is the empty string, an import whose data rows
    carry the same identifiers in the same order leaves the status, the
    actual result and the time stamp of every case as they were. *)
Theorem applyRows_idempotent w rows filename now :
  NoDup (List.map Case.id (cases (app w))) ->
  Forall (fun c => Case.status c <> []) (cases (app w)) ->
  List.map (fun row => cell row 0) (drop (startIndex rows) rows)
  = List.map Case.id (cases (app w)) ->
  let after := cases (app (applyRows w rows filename now)) in
  List.map Case.status after = List.map Case.status (cases (app w)) /\
  List.map Case.actual after = List.map Case.actual (cases (app w)) /\
  List.map Case.updatedAt after = List.map Case.updatedAt (cases (app w)).
Proof.
  intros Hnd Hst Hids after. subst after.
  destruct rows as [|r rows'] eqn:Hrows.
  { change (cases (app (applyRows w [] filename now))) with (cases (app w)).
    repeat split; reflexivity. }
  rewrite <- Hrows in *. rewrite applyRows_cases by (rewrite Hrows; discriminate).
  assert (forall c, In c (cases (app w)) ->
            savedMap (cases (app w)) !! Case.id c = Some c /\ Case.status c <> [])
    as Hsaved.
  { intros c Hin. split.
    - rewrite savedMap_lookup. apply prior_NoDup; assumption.
    - rewrite Forall_forall in Hst. apply Hst, list_elem_of_In, Hin. }
  clear Hnd Hst Hrows.
  revert Hids Hsaved.
  generalize (savedMap (cases (app w))) as m.
  generalize (drop (startIndex rows) rows) as data.
  induction (cases (app w)) as [|c cs IH]; intros data m Hids Hsaved;
    destruct data as [|row data']; try discriminate Hids.
  - repeat split; reflexivity.
  - cbn [List.map] in Hids. injection Hids as Hid Hids.
    destruct (IH data' m Hids) as (IH1 & IH2 & IH3).
    { intros c' Hin. apply Hsaved. right. exact Hin. }
    destruct (Hsaved c (or_introl eq_refl)) as [Hm Hs].
    cbn [List.map]. rewrite IH1, IH2, IH3.
    unfold reconcile. cbn [Case.status Case.actual Case.updatedAt].
    rewrite Hid, Hm. cbn [saved_field].
    rewrite or_else_nonempty by exact Hs. rewrite !or_else_nil.
    repeat split; reflexivity.
Qed.

(** An instance: two cases with distinct identifiers, imported again under
    a header row. *)
Lemma applyRows_idempotent_witness :
  let w := mk_world
             (set_cases initial_state
                [case_with (js "TC-1") STATUS_PASSED (js "fine") (js "t0");
                 case_with (js "TC-2") STATUS_BLOCKED [] (js "t1")])
             None in
  let rows := [[js "测试用例ID"; js "x"]; [js "TC-1"; js "a"]; [js "TC-2"; js "b"]] in
  let after := cases (app (applyRows w rows (js "f.csv") (js "t2"))) in
  List.map Case.status after = List.map Case.status (cases (app w)) /\
  List.map Case.actual after = List.map Case.actual (cases (app w)) /\
  List.map Case.updatedAt after = List.map Case.updatedAt (cases (app w)).
Proof.
  intros w rows.
  apply (applyRows_idempotent w rows (js "f.csv") (js "t2")).
  - apply (bool_decide_unpack _). vm_compute. exact I.
  - repeat constructor; vm_compute; discriminate.
  - vm_compute. reflexivity.
Defined.

(** ** The status of a case *)

Section StatusFacts.

Variable toLowerCase : list N -> list N.

Lemma persist_invariant w now :
  status_invariant (app w) -> world_invariant (persist w now).
Proof. intros H. split; exact H. Qed.

Lemma markDirty_invariant w now :
  status_invariant (app w) -> world_invariant (markDirty w now).
Proof. intros H. apply persist_invariant. exact H. Qed.

Lemma reconcile_status m row :
  (forall k p, m !! k = Some p -> In (Case.status p) STATUS_OPTIONS) ->
  In (Case.status (reconcile m row)) STATUS_OPTIONS.
Proof.
  intros Hm. unfold reconcile. cbn [Case.status].
  destruct (m !! cell row 0) as [p|] eqn:Hp; cbn [saved_field].
  - specialize (Hm _ _ Hp). unfold or_else.
    destruct (truthy (Case.status p)); [exact Hm | left; reflexivity].
  - left. reflexivity.
Qed.

Lemma applyRows_invariant w rows filename now :
  world_invariant w -> world_invariant (applyRows w rows filename now).
Proof.
  intros [Hst Hstore]. destruct rows as [|r rows'].
  - split; [exact Hst | exact Hstore].
  - apply persist_invariant. unfold status_invariant. cbn [app cases].
    apply Forall_forall. intros c Hc.
    apply list_elem_of_In, in_map_iff in Hc. destruct Hc as (row & <- & _).
    apply reconcile_status. intros k p Hp.
    rewrite savedMap_lookup in Hp. apply prior_In in Hp. destruct Hp as [Hin _].
    unfold status_invariant in Hst. rewrite Forall_forall in Hst.
    apply Hst, list_elem_of_In, Hin.
Qed.

Lemma setStatus_invariant w i status now :
  In status STATUS_OPTIONS ->
  world_invariant w -> world_invariant (setStatus w i status now).
Proof.
  intros Hs [Hst Hstore]. unfold setStatus.
  destruct (cases (app w) !! i) as [item|] eqn:Hi; [|split; assumption].
  apply markDirty_invariant. unfold status_invariant. cbn [app cases set_cases].
  apply Forall_insert; [exact Hst | exact Hs].
Qed.

(** A case of the collection after the [forEach] of [setAllStatus] is a
    case that was there, or a shown one with the new status and some
    reading of the clock. *)
Lemma stamp_shown_In shown status now cs : forall k c,
  In c (stamp_shown shown status now k cs) ->
  (In c cs /\ shown c = false) \/
  exists item j, In item cs /\ shown item = true /\
                 c = Case.with_status item status (now j).
Proof.
  induction cs as [|x cs IH]; intros k c; cbn [stamp_shown]; [intros []|].
  destruct (shown x) eqn:Hx.
  - intros [<-|Hc].
    + right. exists x, k. repeat split; [left; reflexivity | exact Hx].
    + destruct (IH _ _ Hc) as [[Hin Hs]|(item & j & Hin & Hs & ->)].
      * left. split; [right; exact Hin | exact Hs].
      * right. exists item, j. repeat split; [right; exact Hin | exact Hs].
  - intros [<-|Hc].
    + left. split; [left; reflexivity | exact Hx].
    + destruct (IH _ _ Hc) as [[Hin Hs]|(item & j & Hin & Hs & ->)].
      * left. split; [right; exact Hin | exact Hs].
      * right. exists item, j. repeat split; [right; exact Hin | exact Hs].
Qed.

Lemma setAllStatus_invariant w status now :
  In status STATUS_OPTIONS ->
  world_invariant w -> world_invariant (setAllStatus toLowerCase w status now).
Proof.
  intros Hs [Hst _]. unfold setAllStatus.
  apply markDirty_invariant. unfold status_invariant. cbn [app cases set_cases].
  apply Forall_forall. intros c Hc.
  apply list_elem_of_In, stamp_shown_In in Hc.
  destruct Hc as [[Hin _]|(item & j & _ & _ & ->)]; [|exact Hs].
  unfold status_invariant in Hst. rewrite Forall_forall in Hst.
  apply Hst, list_elem_of_In, Hin.
Qed.

Lemma restoreFromLocal_invariant w :
  world_invariant w -> world_invariant (restoreFromLocal w).
Proof.
  destruct w as [st store]. intros [Hst Hstore]. unfold restoreFromLocal.
  cbn [app localStorage] in *.
  destruct store as [[raw|[| |cs sf ls]]|]; cbn; (split; [|exact Hstore]);
    try exact Hst.
  - constructor.
  - destruct cs as [cs|]; [exact Hstore | constructor].
Qed.

Lemma step_invariant w o now :
  sets_known_status o ->
  world_invariant w -> world_invariant (step toLowerCase w (o, now)).
Proof.
  intros Ho Hw. destruct o; cbn [step].
  - apply applyRows_invariant, Hw.
  - apply applyRows_invariant, Hw.
  - apply setStatus_invariant; assumption.
  - apply setAllStatus_invariant; assumption.
  - apply persist_invariant, Hw.
  - apply restoreFromLocal_invariant, Hw.
  - split; [apply Hw | exact I].
Qed.

End StatusFacts.

(** Claim C6 as stated fails: [setStatus] stores whatever string it is
    given, and [restoreFromLocal] takes the statuses of the stored snapshot
    as they are. *)
Lemma status_invariant_not_enforced :
  ~ (forall ops,
       status_invariant
         (app (run (fun s => s) (mk_world initial_state None) ops))) /\
  ~ (forall store, status_invariant (app (restoreFromLocal (mk_world initial_state store)))).
Proof.
  split; intros H.
  - specialize (H [(Import [[js "TC-1"]] (js "f.csv"), ticks (js "t0-"));
                   (SetStatus 0 (js "done"), ticks (js "t1-"))]).
    vm_compute in H. apply Forall_cons in H. destruct H as [H _].
    repeat (destruct H as [H|H]; [discriminate H|]). exact H.
  - specialize (H (Some (Json (JSnapshot
                     (Some [case_with (js "TC-1") (js "done") [] []]) None None)))).
    vm_compute in H. apply Forall_cons in H. destruct H as [H _].
    repeat (destruct H as [H|H]; [discriminate H|]). exact H.
Qed.

(** Claim C6, amended: when every status edit supplies one of the five
    values, and the store is empty or holds a snapshot whose statuses are
    among the five (as every snapshot written by [persist] from such a
    collection is), then after any sequence of imports, status edits, saves,
    restores and clearings every case of the collection, and of the stored
    snapshot, has one of the five statuses. *)
Theorem status_invariant_preserved toLowerCase w ops :
  world_invariant w ->
  Forall (fun o => sets_known_status (fst o)) ops ->
  world_invariant (run toLowerCase w ops).
Proof.
  unfold run. revert w. induction ops as [|[o now] ops IH]; intros w Hw Hops.
  - exact Hw.
  - apply Forall_cons in Hops. destruct Hops as [Ho Hops].
    cbn [fold_left]. apply IH; [|exact Hops].
    apply step_invariant; assumption.
Qed.

(** An instance: a fresh start, an import, two edits, a save and a
    restore. *)
Lemma status_invariant_preserved_witness :
  world_invariant
    (run (fun s => s) (init None)
       [(ImportCsv (js "测试用例ID,测试模块" ++ [LF] ++ js "TC-1,login" ++ [LF] ++ js "TC-2,pay")
                   (js "cases.csv"), ticks (js "t0-"));
        (SetStatus 1 STATUS_FAILED, ticks (js "t1-"));
        (SetAllStatus STATUS_SKIPPED, ticks (js "t2-"));
        (Save, ticks (js "t3-"));
        (Restore, ticks (js "t4-"))]).
Proof.
  apply status_invariant_preserved.
  - split; [constructor | exact I].
  - repeat constructor; vm_compute; tauto.
Defined.

(** ** Loading *)

(** Claim C9: loading is permissive.  When the stored text does not parse
    (or parses to [null], whose properties cannot be read), the error is
    caught: [restoreFromLocal] leaves the state it finds untouched, so that
    the component starts with its empty state (no case, no file name, no
    save time).  When the text parses to an object, each of the three
    properties is taken if it is present and defaults otherwise: the empty
    collection, the empty file name, the [null] time stamp. *)
Theorem restoreFromLocal_permissive :
  (forall st store,
     (exists raw, store = Some (Malformed raw)) \/ store = Some (Json JNull) ->
     restoreFromLocal (mk_world st store) = mk_world st store /\
     cases (app (init store)) = [] /\
     sourceFile (app (init store)) = [] /\
     lastSavedAt (app (init store)) = None) /\
  (forall st cs sf t,
     let st' := app (restoreFromLocal
                  (mk_world st (Some (Json (JSnapshot cs sf t))))) in
     cases st' = default [] cs /\
     sourceFile st' = default [] sf /\
     lastSavedAt st' = match t with
                       | Some t' => if truthy t' then Some t' else None
                       | None => None
                       end) /\
  (forall st,
     let st' := app (restoreFromLocal (mk_world st (Some (Json JOther)))) in
     cases st' = [] /\ sourceFile st' = [] /\ lastSavedAt st' = None).
Proof.
  split; [|split].
  - intros st store [[raw ->]| ->]; repeat split; reflexivity.
  - intros st cs sf t. cbn. repeat split. apply or_else_nil.
  - intros st. repeat split; reflexivity.
Qed.

(** Two instances: a text that does not parse, and an object without the
    three properties. *)
Lemma restoreFromLocal_permissive_witness :
  restoreFromLocal (mk_world initial_state (Some (Malformed (js "{oops"))))
  = mk_world initial_state (Some (Malformed (js "{oops"))) /\
  cases (app (restoreFromLocal
                (mk_world initial_state (Some (Json (JSnapshot None None None)))))) = [].
Proof.
  split.
  - apply (proj1 restoreFromLocal_permissive). left. eexists. reflexivity.
  - apply (proj1 (proj2 restoreFromLocal_permissive) initial_state None None None).
Defined.

(** ** The report *)

(** Appends brought to the form [x1 :: ... :: (l1 ++ (l2 ++ ...))]. *)
Ltac normalize_app :=
  repeat (rewrite <- app_assoc || rewrite <- app_comm_cons || rewrite app_nil_l).

Section ReportFacts.

Lemma fold_push {A B} (f : A -> B) (l : list A) : forall rows,
  fold_left (fun rows item => push rows (f item)) l rows = rows ++ List.map f l.
Proof.
  induction l as [|x l IH]; intros rows; cbn [fold_left List.map].
  - rewrite app_nil_r. reflexivity.
  - rewrite IH. unfold push. rewrite <- app_assoc. reflexivity.
Qed.

Lemma join_app sep (xs ys : list (list N)) :
  xs <> [] -> ys <> [] ->
  join sep (xs ++ ys) = join sep xs ++ sep ++ join sep ys.
Proof.
  intros Hx Hy. induction xs as [|x [|x' xs] IH]; [congruence| |].
  - destruct ys; [congruence | reflexivity].
  - change ((x :: x' :: xs) ++ ys) with (x :: (x' :: xs) ++ ys).
    change (join sep (x :: (x' :: xs) ++ ys))
      with (x ++ sep ++ join sep ((x' :: xs) ++ ys)).
    rewrite IH by discriminate. rewrite join_cons2, <- !app_assoc. reflexivity.
Qed.

Lemma rows_to_csv_app xs ys :
  xs <> [] -> ys <> [] ->
  rows_to_csv (xs ++ ys) = rows_to_csv xs ++ [LF] ++ rows_to_csv ys.
Proof.
  intros Hx Hy. unfold rows_to_csv. rewrite map_app.
  apply join_app; intros H; apply map_eq_nil in H; contradiction.
Qed.

(** An empty row is an empty line. *)
Lemma rows_to_csv_blank ys :
  ys <> [] -> rows_to_csv ([] :: ys) = [LF] ++ rows_to_csv ys.
Proof.
  intros Hy. apply (rows_to_csv_app [[]] ys); [discriminate | exact Hy].
Qed.

End ReportFacts.

(** ** Aggregation *)

(** *** Binary64 arithmetic of the pass rate

    The primitive floats are specified by the functions of [SpecFloat];
    what follows bounds the results of the division and of the
    multiplication that [pass_rate] performs. *)

Section Binary64.

Local Open Scope Z_scope.


Lemma pow2_pos a : 0 < 2 ^ a \/ a < 0.
Proof. destruct (Z.le_gt_cases 0 a); [left; apply Z.pow_pos_nonneg; lia | right; lia]. Qed.

Lemma pow2_add a b : 0 <= a -> 0 <= b -> 2 ^ (a + b) = 2 ^ a * 2 ^ b.
Proof. intros. apply Z.pow_add_r; assumption. Qed.

Lemma pow2_lt_inv a b : 0 <= b -> 2 ^ a < 2 ^ b -> a < b.
Proof. intros Hb H. apply (Z.pow_lt_mono_r_iff 2); [lia | exact Hb | exact H]. Qed.

Lemma digits2_pos_bounds p :
  2 ^ (Z.pos (digits2_pos p) - 1) <= Z.pos p < 2 ^ Z.pos (digits2_pos p).
Proof.
  induction p as [p IH|p IH|]; cbn [digits2_pos]; [| |cbn; lia];
    rewrite Pos2Z.inj_succ;
    replace (Z.succ (Z.pos (digits2_pos p)) - 1) with (Z.pos (digits2_pos p) - 1 + 1) by lia;
    rewrite Z.pow_succ_r by lia;
    (rewrite pow2_add by lia); change (2 ^ 1) with 2; lia.
Qed.

Lemma Zdigits2_bounds m :
  0 < m -> 2 ^ (Zdigits2 m - 1) <= m < 2 ^ Zdigits2 m.
Proof. destruct m as [|p|p]; [lia | intros _; apply digits2_pos_bounds | lia]. Qed.

Lemma Zdigits2_pos m : 0 < m -> 0 < Zdigits2 m.
Proof. destruct m; cbn; lia. Qed.

Lemma Zdigits2_unique m k :
  0 < k -> 2 ^ (k - 1) <= m < 2 ^ k -> Zdigits2 m = k.
Proof.
  intros Hk [Hl Hu].
  assert (0 < m) as Hm by (pose proof (Z.pow_pos_nonneg 2 (k - 1)); lia).
  pose proof (Zdigits2_bounds m Hm) as [Hl' Hu']. pose proof (Zdigits2_pos m Hm).
  assert (k - 1 < Zdigits2 m) by (apply pow2_lt_inv; lia).
  assert (Zdigits2 m - 1 < k) by (apply pow2_lt_inv; lia).
  lia.
Qed.

Lemma shr_1_m mrs : 0 <= shr_m mrs -> shr_m (shr_1 mrs) = shr_m mrs / 2.
Proof.
  destruct mrs as [m r s]. cbn [shr_m]. intros Hm.
  rewrite <- Z.div2_div. destruct m as [|[p|p|]|p]; try reflexivity; lia.
Qed.

Lemma pow2_xO p : 2 ^ Z.pos p~0 = 2 ^ Z.pos p * 2 ^ Z.pos p.
Proof. rewrite <- pow2_add by lia. f_equal. lia. Qed.

Lemma pow2_xI p : 2 ^ Z.pos p~1 = 2 * (2 ^ Z.pos p * 2 ^ Z.pos p).
Proof.
  rewrite <- pow2_add, <- Z.pow_succ_r by lia. f_equal. lia.
Qed.

Lemma shr_iter_m p : forall mrs,
  0 <= shr_m mrs ->
  shr_m (SpecFloat.iter_pos shr_1 p mrs) = shr_m mrs / 2 ^ Z.pos p.
Proof.
  assert (forall a b c, 0 <= a -> 0 < b -> 0 < c -> a / b / c = a / (b * c)) as Hdd.
  { intros. apply Z.div_div; lia. }
  assert (forall q, 0 < 2 ^ Z.pos q) as Hp by (intros; apply Z.pow_pos_nonneg; lia).
  induction p as [p IH|p IH|]; intros mrs Hm; cbn [SpecFloat.iter_pos].
  - assert (0 <= shr_m (shr_1 mrs)) as H1.
    { rewrite shr_1_m by exact Hm. apply Z.div_pos; lia. }
    assert (0 <= shr_m (SpecFloat.iter_pos shr_1 p (shr_1 mrs))) as H2.
    { rewrite IH by exact H1. apply Z.div_pos; [lia | apply Hp]. }
    rewrite IH, IH, shr_1_m by assumption.
    pose proof (Hp p).
    rewrite (Hdd _ 2) by lia. rewrite Hdd by lia.
    rewrite pow2_xI. f_equal. ring.
  - assert (0 <= shr_m (SpecFloat.iter_pos shr_1 p mrs)) as H2.
    { rewrite IH by exact Hm. apply Z.div_pos; [lia | apply Hp]. }
    rewrite IH, IH by assumption.
    pose proof (Hp p). rewrite Hdd by lia. rewrite pow2_xO. reflexivity.
  - rewrite shr_1_m by exact Hm. reflexivity.
Qed.

(** The first component of [shr_fexp]: the mantissa shifted to the exponent
    the format asks for, never below the exponent it came with. *)
Lemma shr_fexp_spec m e l :
  0 <= m ->
  let e1 := Z.max (fexp 53 1024 (Zdigits2 m + e)) e in
  exists mrs, shr_fexp 53 1024 m e l = (mrs, e1) /\ shr_m mrs = m / 2 ^ (e1 - e).
Proof.
  intros Hm e1. unfold shr_fexp, shr.
  assert (shr_m (shr_record_of_loc m l) = m) as Hrec by (destruct l as [|[]]; reflexivity).
  destruct (fexp 53 1024 (Zdigits2 m + e) - e) as [|n|n] eqn:Hn.
  - exists (shr_record_of_loc m l). replace e1 with e by lia.
    rewrite Z.sub_diag, Z.div_1_r. auto.
  - eexists. split; [f_equal; lia|].
    rewrite shr_iter_m by lia.
    rewrite Hrec. f_equal. f_equal. lia.
  - exists (shr_record_of_loc m l). replace e1 with e by lia.
    rewrite Z.sub_diag, Z.div_1_r. auto.
Qed.

Lemma shr_fexp_noshift m e l :
  fexp 53 1024 (Zdigits2 m + e) <= e ->
  shr_fexp 53 1024 m e l = (shr_record_of_loc m l, e).
Proof.
  intros H. unfold shr_fexp, shr.
  destruct (fexp 53 1024 (Zdigits2 m + e) - e) eqn:Hn; [reflexivity | lia | reflexivity].
Qed.

Lemma round_nearest_even_bounds m l :
  m <= round_nearest_even m l <= m + 1.
Proof. destruct l as [|[]]; cbn; try destruct (Z.even m); lia. Qed.

Lemma fexp_le m e c k lo :
  0 <= m -> 0 < c < 2 ^ 53 -> -1074 <= k -> lo <= e -> lo <= k ->
  m * 2 ^ (e - lo) <= c * 2 ^ (k - lo) ->
  fexp 53 1024 (Zdigits2 m + e) <= Z.max e k.
Proof.
  intros Hm Hc Hk He Hlo Hle. unfold fexp, emin.
  destruct (Z.eq_dec m 0) as [->|Hm0]; [cbn [Zdigits2]; lia|].
  pose proof (Zdigits2_bounds m ltac:(lia)) as [Hd _].
  pose proof (Zdigits2_pos m ltac:(lia)) as Hdp.
  assert (0 < 2 ^ (e - lo)) as Hpe by (apply Z.pow_pos_nonneg; lia).
  assert (0 < 2 ^ (k - lo)) as Hpk by (apply Z.pow_pos_nonneg; lia).
  assert (2 ^ (Zdigits2 m - 1 + (e - lo)) < 2 ^ (53 + (k - lo))) as Hlt.
  { rewrite !pow2_add by lia. nia. }
  apply pow2_lt_inv in Hlt; lia.
Qed.

Lemma floor_bound m m1 c A N K :
  0 < A -> 0 < N -> 0 < K -> N * m1 <= m ->
  (m + 1) * A <= c * (K * (N * A)) ->
  (m1 + 1) * (N * A) <= c * (K * (N * A)).
Proof.
  intros HA HN HK Hfloor Hle.
  assert (m + 1 <= c * K * N) as H1.
  { apply (Z.mul_le_mono_pos_r _ _ A); lia. }
  assert (m1 < c * K) as H2.
  { apply (Z.mul_lt_mono_pos_r N); lia. }
  assert ((m1 + 1) * (N * A) <= c * K * (N * A)) as H3.
  { apply Z.mul_le_mono_nonneg_r; nia. }
  lia.
Qed.

(** Rounding does not go above a bound that the format can represent: when
    the value to round lies in [[m * 2^e, (m + 1) * 2^e)] and
    [(m + 1) * 2^e <= c * 2^k], the rounded float is at most [c * 2^k]. *)
Lemma binary_round_aux_upper m e l c k lo :
  0 <= m -> 0 < c < 2 ^ 53 -> -1074 <= k <= 900 -> lo <= e -> lo <= k ->
  (m + 1) * 2 ^ (e - lo) <= c * 2 ^ (k - lo) ->
  sf_below (binary_round_aux 53 1024 false m e l) c k lo e (Z.max e k).
Proof.
  intros Hm Hc Hk He Hlo Hle.
  assert (0 < 2 ^ (e - lo)) as Hpe by (apply Z.pow_pos_nonneg; lia).
  assert (0 < 2 ^ (k - lo)) as Hpk by (apply Z.pow_pos_nonneg; lia).
  assert (e < 53 + k) as Hek.
  { assert (2 ^ (e - lo) < 2 ^ (53 + (k - lo))) as Hlt
      by (rewrite pow2_add by lia; nia).
    apply pow2_lt_inv in Hlt; lia. }
  unfold binary_round_aux.
  destruct (shr_fexp_spec m e l Hm) as (mrs1 & -> & Hm1).
  set (e1 := Z.max (fexp 53 1024 (Zdigits2 m + e)) e) in *.
  assert (e <= e1 <= Z.max e k) as He1.
  { pose proof (fexp_le m e c k lo Hm Hc ltac:(lia) He Hlo ltac:(nia)). lia. }
  assert (0 < 2 ^ (e1 - e)) as Hpn by (apply Z.pow_pos_nonneg; lia).
  assert (0 < 2 ^ (e1 - lo)) as Hp1 by (apply Z.pow_pos_nonneg; lia).
  assert (0 <= shr_m mrs1) as Hm1pos by (rewrite Hm1; apply Z.div_pos; lia).
  assert ((shr_m mrs1 + 1) * 2 ^ (e1 - lo) <= c * 2 ^ (k - lo)) as Hle1.
  { destruct (Z.eq_dec e1 e) as [Heq|Hne].
    - rewrite Hm1, Heq, Z.sub_diag, Z.div_1_r. exact Hle.
    - assert (e1 <= k) as He1k by lia.
      assert (0 < 2 ^ (k - e1)) as Hpk1 by (apply Z.pow_pos_nonneg; lia).
      replace (2 ^ (e1 - lo)) with (2 ^ (e1 - e) * 2 ^ (e - lo))
        by (rewrite <- pow2_add by lia; f_equal; lia).
      replace (2 ^ (k - lo)) with (2 ^ (k - e1) * (2 ^ (e1 - e) * 2 ^ (e - lo)))
        in Hle |- * by (rewrite <- !pow2_add by lia; f_equal; lia).
      pose proof (Z.mul_div_le m (2 ^ (e1 - e)) Hpn) as Hfloor.
      rewrite <- Hm1 in Hfloor.
      apply (floor_bound m); assumption. }
  set (m2 := round_nearest_even (shr_m mrs1) (loc_of_shr_record mrs1)).
  pose proof (round_nearest_even_bounds (shr_m mrs1) (loc_of_shr_record mrs1)) as Hm2.
  fold m2 in Hm2.
  assert (m2 * 2 ^ (e1 - lo) <= c * 2 ^ (k - lo)) as Hle2 by nia.
  destruct (shr_fexp_spec m2 e1 loc_Exact ltac:(lia)) as (mrs2 & -> & Hm3).
  set (e2 := Z.max (fexp 53 1024 (Zdigits2 m2 + e1)) e1) in *.
  assert (e1 <= e2 <= Z.max e k) as He2.
  { pose proof (fexp_le m2 e1 c k lo ltac:(lia) Hc ltac:(lia) ltac:(lia) Hlo Hle2). lia. }
  assert (0 < 2 ^ (e2 - e1)) as Hpn2 by (apply Z.pow_pos_nonneg; lia).
  assert (0 <= shr_m mrs2) as Hm3pos by (rewrite Hm3; apply Z.div_pos; lia).
  assert (shr_m mrs2 * 2 ^ (e2 - lo) <= c * 2 ^ (k - lo)) as Hle3.
  { replace (e2 - lo) with ((e2 - e1) + (e1 - lo)) by lia.
    rewrite pow2_add by lia.
    pose proof (Z.mul_div_le m2 (2 ^ (e2 - e1)) Hpn2) as Hfloor.
    rewrite <- Hm3 in Hfloor. nia. }
  destruct (shr_m mrs2) as [|m3|m3] eqn:Hs; [exact I| |lia].
  replace (e2 <=? 1024 - 53) with true by (symmetry; apply Z.leb_le; lia).
  cbn [sf_below]. repeat split; try lia.
Qed.

Lemma sf_below_weaken f c k lo elo ehi elo' ehi' :
  elo' <= elo -> ehi <= ehi' ->
  sf_below f c k lo elo ehi -> sf_below f c k lo elo' ehi'.
Proof.
  intros H1 H2. destruct f as [| | |s m e]; cbn [sf_below]; try tauto.
  intros (Hs & He & Hle). repeat split; try assumption; lia.
Qed.

Lemma pos_iter_xO p k : Z.pos (Pos.iter xO p k) = Z.pos p * 2 ^ Z.pos k.
Proof.
  apply (Pos.iter_ind _ xO p (fun k r => Z.pos r = Z.pos p * 2 ^ Z.pos k)).
  - rewrite Pos2Z.inj_xO. change (2 ^ 1) with 2. lia.
  - intros q r IH. rewrite Pos2Z.inj_xO, IH, Pos2Z.inj_succ, Z.pow_succ_r by lia. lia.
Qed.

(** A mantissa of 53 digits with an exponent in range needs no rounding. *)
Lemma binary_round_aux_exact m e :
  Zdigits2 (Z.pos m) = 53 -> -1074 <= e <= 971 ->
  binary_round_aux 53 1024 false (Z.pos m) e loc_Exact = S754_finite false m e.
Proof.
  intros Hd He. unfold binary_round_aux.
  assert (fexp 53 1024 (Zdigits2 (Z.pos m) + e) <= e) as Hf
    by (rewrite Hd; unfold fexp, emin; lia).
  rewrite (shr_fexp_noshift _ _ _ Hf).
  cbn [shr_record_of_loc shr_m loc_of_shr_record round_nearest_even].
  rewrite (shr_fexp_noshift _ _ _ Hf). cbn [shr_record_of_loc shr_m].
  replace (e <=? 1024 - 53) with true by (symmetry; apply Z.leb_le; lia).
  reflexivity.
Qed.

(** The float of a positive integer below [2^53] is that integer, written
    with a mantissa of 53 digits. *)
Lemma binary_normalize_int z :
  0 < z < 2 ^ 53 ->
  exists m,
    binary_normalize 53 1024 z 0 false = S754_finite false m (Zdigits2 z - 53) /\
    Z.pos m = z * 2 ^ (53 - Zdigits2 z) /\
    Zdigits2 (Z.pos m) = 53.
Proof.
  intros [Hz Hz53]. destruct z as [|p|p]; try lia.
  pose proof (Zdigits2_bounds (Z.pos p) Hz) as [Hl Hu].
  pose proof (Zdigits2_pos (Z.pos p) Hz) as Hdp.
  assert (Zdigits2 (Z.pos p) <= 53) as Hd53.
  { assert (Zdigits2 (Z.pos p) - 1 < 53) by (apply pow2_lt_inv; lia). lia. }
  cbn [binary_normalize]. unfold binary_round.
  change (Z.pos (digits2_pos p)) with (Zdigits2 (Z.pos p)).
  set (d := Zdigits2 (Z.pos p)) in *.
  assert (fexp 53 1024 (d + 0) = d - 53) as -> by (unfold fexp, emin; lia).
  assert (exists mz, shl_align p 0 (d - 53) = (mz, d - 53) /\
                     Z.pos mz = Z.pos p * 2 ^ (53 - d)) as (mz & -> & Hmz).
  { unfold shl_align. destruct (d - 53 - 0) as [|q|q] eqn:Hq; [| lia |].
    - exists p. replace (53 - d) with 0 by lia. replace (d - 53) with 0 by lia.
      split; [reflexivity | lia].
    - exists (Pos.iter xO p q). split; [reflexivity|].
      rewrite pos_iter_xO. f_equal. f_equal. lia. }
  assert (Zdigits2 (Z.pos mz) = 53) as Hdz.
  { apply Zdigits2_unique; [lia|]. rewrite Hmz.
    assert (0 < 2 ^ (53 - d)) by (apply Z.pow_pos_nonneg; lia).
    replace (2 ^ (53 - 1)) with (2 ^ (d - 1) * 2 ^ (53 - d))
      by (rewrite <- pow2_add by lia; f_equal; lia).
    replace (2 ^ 53) with (2 ^ d * 2 ^ (53 - d))
      by (rewrite <- pow2_add by lia; f_equal; lia).
    nia. }
  exists mz. split; [apply binary_round_aux_exact; [exact Hdz | lia]|].
  split; [exact Hmz | exact Hdz].
Qed.

Lemma Zdigits2_mono a b : 0 < a <= b -> Zdigits2 a <= Zdigits2 b.
Proof.
  intros [Ha Hab].
  pose proof (Zdigits2_bounds a Ha) as [Hl _].
  pose proof (Zdigits2_bounds b ltac:(lia)) as [_ Hu].
  pose proof (Zdigits2_pos b ltac:(lia)).
  assert (Zdigits2 a - 1 < Zdigits2 b) by (apply pow2_lt_inv; lia). lia.
Qed.

Lemma SFdiv_core_binary_53 m1 e1 m2 e2 :
  Zdigits2 (Z.pos m1) = 53 -> Zdigits2 (Z.pos m2) = 53 ->
  -1021 <= e1 - e2 ->
  SFdiv_core_binary 53 1024 (Z.pos m1) e1 (Z.pos m2) e2
  = (Z.pos m1 * 2 ^ 53 / Z.pos m2, e1 - e2 - 53,
     new_location (Z.pos m2) ((Z.pos m1 * 2 ^ 53) mod Z.pos m2)).
Proof.
  intros Hd1 Hd2 He. unfold SFdiv_core_binary. rewrite Hd1, Hd2.
  replace (Z.min (fexp 53 1024 (53 + e1 - (53 + e2))) (e1 - e2)) with (e1 - e2 - 53)
    by (unfold fexp, emin; lia).
  replace (e1 - e2 - (e1 - e2 - 53)) with 53 by lia.
  cbv zeta iota. rewrite Z.shiftl_mul_pow2 by lia.
  unfold Z.div, Z.modulo. destruct (Z.div_eucl _ _). reflexivity.
Qed.

(** The quotient of two integers [0 < p < t < 2^53] is a float at most
    [1 - 2^-53]. *)
Lemma SFdiv_int_lt p t :
  0 < p < t -> t < 2 ^ 53 ->
  sf_below (SFdiv 53 1024 (binary_normalize 53 1024 p 0 false)
                          (binary_normalize 53 1024 t 0 false))
           (2 ^ 53 - 1) (-53) (-1074) (-1074) (-53).
Proof.
  intros Hp Ht.
  destruct (binary_normalize_int p ltac:(lia)) as (m1 & -> & Hm1 & Hd1).
  destruct (binary_normalize_int t ltac:(lia)) as (m2 & -> & Hm2 & Hd2).
  pose proof (Zdigits2_mono p t ltac:(lia)) as Hmono.
  pose proof (Zdigits2_pos p ltac:(lia)) as Hdp.
  pose proof (Zdigits2_bounds t ltac:(lia)) as [Htl _].
  assert (Zdigits2 t <= 53) as Hdt.
  { assert (Zdigits2 t - 1 < 53) by (apply pow2_lt_inv; lia). lia. }
  set (dp := Zdigits2 p) in *. set (dt := Zdigits2 t) in *.
  cbn [SFdiv xorb]. rewrite SFdiv_core_binary_53 by (assumption || lia).
  eapply sf_below_weaken;
    [| |apply (binary_round_aux_upper _ _ _ (2 ^ 53 - 1) (-53) (-1074))];
    try lia.
  - apply Z.div_pos; lia.
  - assert (0 < 2 ^ (53 - dp)) as Hpp by (apply Z.pow_pos_nonneg; lia).
    assert (0 < 2 ^ (53 - dt)) as Hpt by (apply Z.pow_pos_nonneg; lia).
    assert (0 < 2 ^ (dt - dp)) as Hpd by (apply Z.pow_pos_nonneg; lia).
    assert (2 ^ (53 - dp) = 2 ^ (dt - dp) * 2 ^ (53 - dt)) as Hsplit
      by (rewrite <- pow2_add by lia; f_equal; lia).
    pose proof (Z.mul_div_le (Z.pos m1 * 2 ^ 53) (Z.pos m2) ltac:(lia)) as Hfloor.
    set (q := Z.pos m1 * 2 ^ 53 / Z.pos m2) in *.
    assert (q < (2 ^ 53 - 1) * 2 ^ (dt - dp)) as Hq.
    { apply (Z.mul_lt_mono_pos_r (Z.pos m2)); [lia|].
      rewrite Hm1, Hm2, Hsplit in *. nia. }
    replace (2 ^ (-53 - -1074)) with (2 ^ (dt - dp) * 2 ^ (dp - 53 - (dt - 53) - 53 - -1074))
      by (rewrite <- pow2_add by lia; f_equal; lia).
    assert (0 < 2 ^ (dp - 53 - (dt - 53) - 53 - -1074)) by (apply Z.pow_pos_nonneg; lia).
    nia.
Qed.

(** The quotient of an integer by itself is [1]. *)
Lemma SFdiv_int_same t :
  0 < t < 2 ^ 53 ->
  SFdiv 53 1024 (binary_normalize 53 1024 t 0 false)
                (binary_normalize 53 1024 t 0 false)
  = S754_finite false 4503599627370496 (-52).
Proof.
  intros Ht.
  destruct (binary_normalize_int t Ht) as (m & -> & Hm & Hd).
  cbn [SFdiv xorb]. rewrite SFdiv_core_binary_53 by (assumption || lia).
  rewrite Z.mul_comm, Z.div_mul, Z.mod_mul by lia.
  replace (Zdigits2 t - 53 - (Zdigits2 t - 53) - 53) with (-53) by lia.
  assert (new_location (Z.pos m) 0 = loc_Exact) as ->.
  { unfold new_location. destruct (Z.even (Z.pos m)); reflexivity. }
  vm_compute. reflexivity.
Qed.

(** A float below [1], multiplied by [100], is at most [100]. *)
Lemma SFmul_100_below q :
  sf_below q (2 ^ 53 - 1) (-53) (-1074) (-1074) (-53) ->
  sf_below (SFmul 53 1024 q SF_100) 25 2 (-1120) (-1120) 2.
Proof.
  destruct q as [s| | |s mq eq]; cbn [sf_below]; try tauto.
  intros (-> & Heq & Hle). unfold SF_100. cbn [SFmul xorb].
  eapply sf_below_weaken;
    [| |apply (binary_round_aux_upper _ _ _ 25 2 (-1120))];
    try lia.
  assert (0 < 2 ^ (eq - -1074)) as Hp by (apply Z.pow_pos_nonneg; lia).
  assert (0 < 2 ^ (- eq)) as Hn by (apply Z.pow_pos_nonneg; lia).
  assert (Z.pos mq < 2 ^ (- eq)) as Hmq.
  { apply (Z.mul_lt_mono_pos_r (2 ^ (eq - -1074))); [exact Hp|].
    rewrite <- pow2_add by lia. replace (- eq + (eq - -1074)) with 1074 by lia.
    replace (2 ^ 1074) with (2 ^ 53 * 2 ^ (-53 - -1074)) by (rewrite <- pow2_add by lia; reflexivity).
    assert (0 < 2 ^ (-53 - -1074)) by (apply Z.pow_pos_nonneg; lia). nia. }
  rewrite Pos2Z.inj_mul.
  change (Z.pos 7036874417766400) with (25 * 2 ^ 48).
  replace (2 ^ (2 - -1120)) with (2 ^ 48 * (2 ^ (- eq) * 2 ^ (eq + -46 - -1120)))
    by (rewrite <- !pow2_add by lia; f_equal; lia).
  assert (0 < 2 ^ (eq + -46 - -1120)) by (apply Z.pow_pos_nonneg; lia).
  assert (0 < 2 ^ 48) by (apply Z.pow_pos_nonneg; lia).
  generalize dependent (2 ^ (eq + -46 - -1120)). generalize dependent (2 ^ (- eq)).
  generalize dependent (2 ^ 48). intros P48 HP48 Pn HPn Hmq' Pe HPe.
  assert (Z.pos mq * (25 * P48) + 1 <= 25 * (P48 * Pn)) as Hstep by nia.
  replace (25 * (P48 * (Pn * Pe))) with (25 * (P48 * Pn) * Pe) by ring.
  apply Z.mul_le_mono_nonneg_r; lia.
Qed.

(** Rounding a float of [[0, 100]] to the nearest integer stays there. *)
Lemma round_half_up_100 m e :
  -1120 <= e <= 2 -> Z.pos m * 2 ^ (e - -1120) <= 25 * 2 ^ (2 - -1120) ->
  0 <= JsNumber.round_half_up (Z.pos m) e <= 100.
Proof.
  intros He Hle. unfold JsNumber.round_half_up.
  destruct (Z.leb_spec 0 e) as [H0|H0].
  - assert (0 < 2 ^ e) by (apply Z.pow_pos_nonneg; lia).
    replace (2 ^ (e - -1120)) with (2 ^ e * 2 ^ 1120) in Hle
      by (rewrite <- pow2_add by lia; f_equal; lia).
    replace (2 ^ (2 - -1120)) with (4 * 2 ^ 1120) in Hle
      by (change 4 with (2 ^ 2); rewrite <- pow2_add by lia; f_equal).
    assert (0 < 2 ^ 1120) by (apply Z.pow_pos_nonneg; lia).
    generalize dependent (2 ^ 1120). generalize dependent (2 ^ e). intros. nia.
  - assert (0 < 2 ^ (- e)) as Hn by (apply Z.pow_pos_nonneg; lia).
    replace (2 ^ (1 - e)) with (2 * 2 ^ (- e))
      by (rewrite <- Z.pow_succ_r by lia; f_equal; lia).
    assert (Z.pos m <= 100 * 2 ^ (- e)) as Hm.
    { assert (0 < 2 ^ (e - -1120)) by (apply Z.pow_pos_nonneg; lia).
      apply (Z.mul_le_mono_pos_r _ _ (2 ^ (e - -1120))); [assumption|].
      replace (100 * 2 ^ (- e) * 2 ^ (e - -1120)) with (25 * 2 ^ (2 - -1120)); [exact Hle|].
      replace (2 ^ (2 - -1120)) with (4 * (2 ^ (- e) * 2 ^ (e - -1120))); [lia|].
      change 4 with (2 ^ 2). rewrite <- !pow2_add by lia. f_equal. lia. }
    split.
    + apply Z.div_pos; lia.
    + assert ((2 * Z.pos m + 2 ^ (- e)) / (2 * 2 ^ (- e)) < 101); [|lia].
      apply Z.div_lt_upper_bound; lia.
Qed.

Lemma Prim2SF_of_Z z :
  0 <= z < 2 ^ 53 ->
  Prim2SF (JsNumber.of_Z z) = binary_normalize 53 1024 z 0 false.
Proof.
  intros Hz. unfold JsNumber.of_Z.
  destruct (Z.ltb_spec z 0) as [|_]; [lia|].
  rewrite of_uint63_spec, Uint63.of_Z_spec. unfold prec, emax.
  rewrite Z.mod_small; [reflexivity|].
  split; [lia|]. apply Z.lt_trans with (2 ^ 53); [lia | reflexivity].
Qed.

(** The pass rate of [passed] cases out of [total] is an integer between
    0 and 100. *)
Lemma pass_rate_bounds passed total :
  0 <= passed <= total -> 0 < total < 2 ^ 53 ->
  exists r, pass_rate passed total = Some r /\ 0 <= r <= 100.
Proof.
  intros Hp Ht. unfold pass_rate, JsNumber.Math_round.
  rewrite FloatAxioms.mul_spec, FloatAxioms.div_spec.
  rewrite (Prim2SF_of_Z passed), (Prim2SF_of_Z total) by lia.
  rewrite (Prim2SF_of_Z 100) by (split; [lia | reflexivity]).
  unfold SF64mul, SF64div, prec, emax.
  change (binary_normalize 53 1024 100 0 false) with SF_100.
  destruct (Z.eq_dec passed 0) as [->|Hp0];
    [|destruct (Z.eq_dec passed total) as [->|Hpt]].
  - destruct (binary_normalize_int total Ht) as (m & -> & _).
    cbn. exists 0. split; [reflexivity | lia].
  - rewrite SFdiv_int_same by exact Ht.
    exists 100. split; [vm_compute; reflexivity | lia].
  - pose proof (SFmul_100_below _ (SFdiv_int_lt passed total ltac:(lia) ltac:(lia))) as Hb.
    destruct (SFmul 53 1024 _ SF_100) as [s| | |s m e]; cbn [sf_below] in Hb; try tauto.
    + exists 0. split; [reflexivity | lia].
    + destruct Hb as (-> & He & Hle). eexists. split; [reflexivity|].
      apply round_half_up_100; assumption.
Qed.

End Binary64.

(** *** Counting *)

Section CountFacts.

Local Open Scope Z_scope.

(** The counters of a step, apart from the text properties. *)
Lemma summarize_step_counters sc tx pc c :
  exists tx', summarize_step (sc, tx, pc) c
              = (status_step sc c, tx', priority_step pc c).
Proof.
  unfold summarize_step, status_step, priority_step.
  destruct (bool_decide (is_Some (sc !! Case.status c))); [eauto|].
  destruct (tx !! Case.status c); [eauto|].
  destruct (bool_decide (Case.status c ∈ OBJECT_PROTOTYPE_METHODS)); eauto.
Qed.

Lemma fold_summarize_status cases : forall sc tx pc,
  fst (fst (fold_left summarize_step cases (sc, tx, pc)))
  = fold_left status_step cases sc.
Proof.
  induction cases as [|c cases IH]; intros sc tx pc; [reflexivity|].
  cbn [fold_left]. destruct (summarize_step_counters sc tx pc c) as [tx' ->].
  apply IH.
Qed.

Lemma status_step_lookup sc c s :
  status_step sc c !! s
  = if has_status s c then Z.succ <$> sc !! s else sc !! s.
Proof.
  unfold status_step, has_status, JsString.eqb, incr.
  destruct (decide (Case.status c = s)) as [Hs|Hs].
  - rewrite (bool_decide_eq_true_2 _ Hs). subst s.
    destruct (sc !! Case.status c) as [n|] eqn:Hn.
    + rewrite bool_decide_eq_true_2 by eauto.
      rewrite lookup_insert_eq. reflexivity.
    + rewrite bool_decide_eq_false_2 by (intros [? ?]; discriminate).
      rewrite Hn. reflexivity.
  - rewrite (bool_decide_eq_false_2 _ Hs).
    case_bool_decide as Hsome; [|reflexivity].
    destruct Hsome as [n Hn]. rewrite Hn.
    apply lookup_insert_ne. exact Hs.
Qed.

(** Each counter grows by the number of cases with its status. *)
Lemma fold_status_lookup cases : forall sc s,
  fold_left status_step cases sc !! s
  = (fun n => n + Z.of_nat (length (List.filter (has_status s) cases)))
      <$> sc !! s.
Proof.
  induction cases as [|c cases IH]; intros sc s; cbn [fold_left List.filter].
  - destruct (sc !! s); cbn; [f_equal; lia | reflexivity].
  - rewrite IH, status_step_lookup. destruct (has_status s c).
    + destruct (sc !! s); cbn; [f_equal; lia | reflexivity].
    + reflexivity.
Qed.

Lemma summarize_count cases s :
  In s STATUS_OPTIONS ->
  count_of (Summary.statusCount (summarize cases)) s
  = Z.of_nat (length (List.filter (has_status s) cases)).
Proof.
  intros Hs. unfold summarize.
  pose proof (fold_summarize_status cases (zero_counts STATUS_OPTIONS ∅) ∅
                (zero_counts PRIORITY_ORDER {[PRIORITY_OTHER := 0]})) as Hfold.
  destruct (fold_left summarize_step cases _) as [[sc tx] pc]. cbn [fst] in Hfold.
  cbn [Summary.statusCount]. unfold count_of.
  rewrite Hfold, fold_status_lookup.
  assert (zero_counts STATUS_OPTIONS ∅ !! s = Some 0) as ->.
  { repeat (destruct Hs as [<-|Hs]; [vm_compute; reflexivity|]). destruct Hs. }
  cbn. lia.
Qed.

Lemma summarize_total cases :
  Summary.total (summarize cases) = Z.of_nat (length cases).
Proof.
  unfold summarize. destruct (fold_left summarize_step cases _) as [[sc tx] pc].
  reflexivity.
Qed.

Lemma summarize_executed cases :
  Summary.executed (summarize cases)
  = Summary.total (summarize cases) - count_of (Summary.statusCount (summarize cases)) STATUS_NOT_RUN.
Proof.
  unfold summarize. destruct (fold_left summarize_step cases _) as [[sc tx] pc].
  reflexivity.
Qed.

Lemma summarize_passRate cases :
  Summary.passRate (summarize cases)
  = if Summary.total (summarize cases) =? 0 then Some 0
    else pass_rate (count_of (Summary.statusCount (summarize cases)) STATUS_PASSED)
                   (Summary.total (summarize cases)).
Proof.
  unfold summarize. destruct (fold_left summarize_step cases _) as [[sc tx] pc].
  reflexivity.
Qed.

End CountFacts.

(** Claim C3: for every case collection (with fewer than [2^53] cases, as
    every array has), [executed] is [total] minus the number of cases that
    are not-run, the pass rate is an integer between 0 and 100, and it is 0
    when [total] is 0; the collection with the statuses passed, failed,
    blocked, not-run, not-run has total 5, executed 3 and pass rate 20. *)
Theorem summarize_equations :
  (forall cases,
     let s := summarize cases in
     Summary.total s = Z.of_nat (length cases) /\
     Summary.executed s
     = (Summary.total s
        - Z.of_nat (length (List.filter (has_status STATUS_NOT_RUN) cases)))%Z /\
     (Summary.total s = 0%Z -> Summary.passRate s = Some 0%Z) /\
     ((Z.of_nat (length cases) < 2 ^ 53)%Z ->
      exists r, Summary.passRate s = Some r /\ (0 <= r <= 100)%Z)) /\
  (let s := summarize
              (List.map (fun status => case_with [] status [] [])
                 [STATUS_PASSED; STATUS_FAILED; STATUS_BLOCKED;
                  STATUS_NOT_RUN; STATUS_NOT_RUN]) in
   Summary.total s = 5%Z /\ Summary.executed s = 3%Z /\
   Summary.passRate s = Some 20%Z).
Proof.
  split; [|vm_compute; repeat split].
  intros cases s. subst s. split; [apply summarize_total|].
  split.
  { rewrite summarize_executed, summarize_count; [reflexivity | left; reflexivity]. }
  rewrite summarize_passRate, summarize_total. split.
  - intros H0. rewrite H0. reflexivity.
  - intros Hlen. destruct (Z.eqb_spec (Z.of_nat (length cases)) 0) as [|Hne].
    + exists 0%Z. split; [reflexivity | lia].
    + rewrite summarize_count by (right; left; reflexivity).
      apply pass_rate_bounds; [|lia].
      pose proof (filter_length_le (has_status STATUS_PASSED) cases). lia.
Qed.

(** An instance: two passed cases out of three. *)
Lemma summarize_equations_witness :
  let cases := List.map (fun status => case_with [] status [] [])
                 [STATUS_PASSED; STATUS_PASSED; STATUS_SKIPPED] in
  exists r, Summary.passRate (summarize cases) = Some r /\ (0 <= r <= 100)%Z.
Proof.
  intros cases.
  apply (proj2 (proj2 (proj2 (proj1 summarize_equations cases)))).
  vm_compute. reflexivity.
Defined.

(** * Further properties of the code *)

(** ** Rows written by the serialiser and read by the parser *)

Section RowFacts.

Lemma needs_quoting_cons c t :
  needs_quoting (c :: t) = false ->
  (c =? QUOTE) = false /\ (c =? COMMA) = false /\ (c =? LF) = false /\
  needs_quoting t = false.
Proof.
  unfold needs_quoting. cbn [existsb]. rewrite !orb_false_iff. tauto.
Qed.

(** Outside quotes, a field without quote and comma is taken as it is. *)
Lemma split_scan_plain v : needs_quoting v = false -> forall rest cells current,
  split_scan (v ++ rest) cells current false
  = split_scan rest cells (current ++ v) false.
Proof.
  induction v as [|c t IH]; intros Hq rest cells current.
  - rewrite app_nil_r. reflexivity.
  - apply needs_quoting_cons in Hq as (Hc1 & Hc2 & _ & Ht).
    rewrite <- app_comm_cons, split_scan_cons, Hc1, Hc2. cbn [andb].
    rewrite (IH Ht), <- app_assoc. reflexivity.
Qed.

(** Inside quotes, the scan undoes the doubling up to the closing quote,
    provided that quote is not followed by another one. *)
Lemma split_scan_quoted v : forall rest cells current,
  next_is_quote rest = false ->
  split_scan (double_quotes v ++ QUOTE :: rest) cells current true
  = split_scan rest cells (current ++ v) false.
Proof.
  induction v as [|c t IH]; intros rest cells current Hn.
  - rewrite app_nil_r, app_nil_l, split_scan_cons, Hn. reflexivity.
  - cbn [double_quotes]. destruct (c =? QUOTE) eqn:Hq.
    + apply N.eqb_eq in Hq. subst c.
      rewrite <- !app_comm_cons, split_scan_cons. cbn [next_is_quote tail andb].
      change (QUOTE =? QUOTE) with true. cbv iota.
      rewrite (IH _ _ _ Hn), <- app_assoc. reflexivity.
    + rewrite <- app_comm_cons, split_scan_cons, Hq. cbn [negb].
      rewrite andb_false_r, (IH _ _ _ Hn), <- app_assoc. reflexivity.
Qed.

Lemma split_scan_escaped v rest cells :
  next_is_quote rest = false ->
  split_scan (escapeCsvField v ++ rest) cells [] false
  = split_scan rest cells v false.
Proof.
  intros Hn. unfold escapeCsvField. destruct (needs_quoting v) eqn:Hq.
  - rewrite <- app_comm_cons, <- app_assoc, split_scan_cons.
    change (QUOTE =? QUOTE) with true. cbn [andb negb].
    apply (split_scan_quoted v rest cells [] Hn).
  - apply (split_scan_plain v Hq rest cells []).
Qed.

Lemma split_scan_row f fs : forall cells,
  split_scan (row_line (f :: fs)) cells [] false = cells ++ f :: fs.
Proof.
  unfold row_line. revert f. induction fs as [|g fs IH]; intros f cells.
  - cbn [List.map join].
    rewrite <- (app_nil_r (escapeCsvField f)), split_scan_escaped by reflexivity.
    reflexivity.
  - cbn [List.map]. rewrite join_cons2.
    change ([COMMA] ++ ?x) with (COMMA :: x).
    rewrite split_scan_escaped by reflexivity.
    rewrite split_scan_cons. cbn [negb]. change (COMMA =? QUOTE) with false.
    change (COMMA =? COMMA) with true. cbv iota. cbn [andb].
    change (escapeCsvField g :: List.map escapeCsvField fs) with
      (List.map escapeCsvField (g :: fs)).
    rewrite IH, <- app_assoc. reflexivity.
Qed.

End RowFacts.

(** X1: a row of fields written by the serialiser, each field escaped and
    the fields joined by commas, is split back into the same fields by
    [splitCsvLine], whatever the fields hold (commas, quotes, newlines,
    white space); the row must have a field, since an empty row and a row
    of one empty field are written as the same empty line. *)
Theorem splitCsvLine_escaped_row (fields : list jsstring) :
  fields <> [] ->
  splitCsvLine (join [COMMA] (List.map escapeCsvField fields)) = fields.
Proof.
  destruct fields as [|f fs]; [congruence|]. intros _.
  apply (split_scan_row f fs []).
Qed.

Lemma splitCsvLine_escaped_row_witness :
  let fields := [js "a,b"; [QUOTE]; js " x" ++ [LF; QUOTE; QUOTE] ++ js "y "; []] in
  fields <> [] /\
  splitCsvLine (join [COMMA] (List.map escapeCsvField fields)) = fields.
Proof.
  split; [discriminate|]. apply splitCsvLine_escaped_row. discriminate.
Defined.

Section FileFacts.

Lemma has_LF_false s : has_LF s = false -> ~ In LF s.
Proof.
  unfold has_LF. intros H Hin.
  assert (existsb (N.eqb LF) s = true) as Ht; [|congruence].
  apply existsb_exists. exists LF. split; [exact Hin | reflexivity].
Qed.

(** One step of [split_lines] at a code unit that does not end a line. *)
Lemma split_lines_cons c t :
  c <> LF -> (c = CR -> forall t', t <> LF :: t') ->
  split_lines (c :: t)
  = match split_lines t with l :: ls => (c :: l) :: ls | [] => [[c]] end.
Proof.
  intros Hc Hcr. apply N.eqb_neq in Hc.
  destruct t as [|c' t']; cbn [split_lines]; rewrite Hc.
  - destruct (c =? CR); reflexivity.
  - destruct (N.eqb_spec c CR) as [->|_]; [|reflexivity].
    destruct (N.eqb_spec c' LF) as [->|_]; [|reflexivity].
    exfalso. exact (Hcr eq_refl t' eq_refl).
Qed.

(** A line that holds no newline and does not end with a carriage return
    is cut off at the newline that follows it. *)
Lemma split_lines_app l : ~ In LF l -> last l <> Some CR -> forall rest,
  split_lines (l ++ LF :: rest) = l :: split_lines rest.
Proof.
  induction l as [|c t IH]; intros Hn Hl rest; [reflexivity|].
  assert (~ In LF t) as Ht by (intros H; apply Hn; right; exact H).
  assert (c <> LF) as Hc by (intros ->; apply Hn; left; reflexivity).
  rewrite <- app_comm_cons, split_lines_cons; [|exact Hc|].
  - rewrite IH; [reflexivity | exact Ht |].
    destruct t as [|c' t']; [discriminate|]. exact Hl.
  - intros -> t' Heq. destruct t as [|c' t'']; [apply Hl; reflexivity|].
    rewrite <- app_comm_cons in Heq. injection Heq as -> _.
    apply Ht. left. reflexivity.
Qed.

Lemma parseCsv_line l rest :
  ~ In LF l -> last l <> Some CR ->
  parseCsv (l ++ LF :: rest)
  = (if truthy (trim l) then [splitCsvLine (trim l)] else []) ++ parseCsv rest.
Proof.
  intros Hn Hl. unfold parseCsv. rewrite split_lines_app by assumption.
  cbn [List.map List.filter]. destruct (truthy (trim l)); reflexivity.
Qed.

Lemma escapeCsvField_no_LF f : ~ In LF f -> ~ In LF (escapeCsvField f).
Proof.
  intros Hn. unfold escapeCsvField. destruct (needs_quoting f); [|exact Hn].
  intros [H|H]; [discriminate H|].
  apply in_app_or in H. destruct H as [H|[H|[]]]; [|discriminate H].
  exact (double_quotes_no_LF f Hn H).
Qed.

Lemma join_no_LF sep xs :
  ~ In LF sep -> Forall (fun x => ~ In LF x) xs -> ~ In LF (join sep xs).
Proof.
  intros Hs. induction 1 as [|x xs Hx Hxs IH]; [intros []|].
  destruct xs as [|y ys]; [exact Hx|]. rewrite join_cons2.
  intros H. apply in_app_or in H. destruct H as [H|H]; [exact (Hx H)|].
  apply in_app_or in H. destruct H as [H|H]; [exact (Hs H) | exact (IH H)].
Qed.

Lemma row_line_no_LF r :
  forallb (fun f => negb (has_LF f)) r = true -> ~ In LF (row_line r).
Proof.
  intros H. apply join_no_LF; [intros [H'|[]]; discriminate H'|].
  apply List.Forall_forall. intros e He. apply in_map_iff in He as (f & <- & Hf).
  apply escapeCsvField_no_LF, has_LF_false.
  rewrite forallb_forall in H. apply negb_true_iff, H, Hf.
Qed.

Lemma trimmed_last s : s <> [] -> trim s = s -> last s <> Some CR.
Proof.
  intros Hs Ht. destruct (trim_ends s) as [H|[_ (t & c & H & Hc)]].
  - congruence.
  - rewrite Ht in H. rewrite H, last_snoc. intros [= ->]. discriminate Hc.
Qed.

(** What [readable_row] gives. *)
Lemma readable_row_spec r :
  readable_row r = true ->
  r <> [] /\ ~ In LF (row_line r) /\ row_line r <> [] /\
  trim (row_line r) = row_line r /\ last (row_line r) <> Some CR.
Proof.
  unfold readable_row. rewrite !andb_true_iff. intros [[Hne Hlf] Heq].
  apply bool_decide_eq_true in Heq.
  assert (row_line r <> []) as Hl by (destruct (row_line r); [discriminate Hne | discriminate]).
  repeat split; [|apply row_line_no_LF, Hlf|exact Hl|exact Heq|apply trimmed_last; assumption].
  intros ->. apply Hl. reflexivity.
Qed.

Lemma splitCsvLine_row_line r : r <> [] -> splitCsvLine (row_line r) = r.
Proof.
  destruct r as [|f fs]; [congruence|]. intros _. apply (split_scan_row f fs []).
Qed.

(** The lines of a text hold no newline. *)
Lemma split_lines_lines text : Forall (fun l => ~ In LF l) (split_lines text).
Proof.
  induction text as [|c t IHt IHtl] using scan_ind.
  - repeat constructor. intros [].
  - destruct (N.eqb_spec c LF) as [->|Hc].
    { cbn [split_lines]. change (LF =? LF) with true. cbv iota.
      constructor; [intros []|exact IHt]. }
    destruct (N.eqb_spec c CR) as [->|Hcr].
    + destruct t as [|c' t'].
      * cbn. repeat constructor. intros [H|[]]. discriminate H.
      * destruct (N.eqb_spec c' LF) as [->|Hc'].
        { cbn [split_lines]. change (CR =? LF) with false.
          change (CR =? CR) with true. change (LF =? LF) with true. cbv iota.
          constructor; [intros []|exact IHtl]. }
        rewrite split_lines_cons; [|exact Hc|intros _ t'' [= ? _]; congruence].
        destruct IHt as [|l ls Hl Hls].
        -- constructor; [|constructor]. intros [H|[]]. discriminate H.
        -- constructor; [|exact Hls]. intros [H|H]; [discriminate H | exact (Hl H)].
    + rewrite split_lines_cons; [|exact Hc|congruence].
      destruct IHt as [|l ls Hl Hls].
      * constructor; [|constructor]. intros [H|[]]. congruence.
      * constructor; [|exact Hls]. intros [H|H]; [congruence | exact (Hl H)].
Qed.

(** The lines of a text are made of code units of the text. *)
Lemma split_lines_In text l c : In l (split_lines text) -> In c l -> In c text.
Proof.
  revert l. induction text as [|x t IHt IHtl] using scan_ind; intros l.
  - intros [<-|[]] [].
  - assert (forall l, In l (match split_lines t with
                            | l :: ls => (x :: l) :: ls
                            | [] => [[x]] end) -> In c l -> In c (x :: t)) as Hcons.
    { intros l0 Hl0 Hc0. destruct (split_lines t) as [|l1 ls] eqn:Hs.
      - destruct Hl0 as [<-|[]]. destruct Hc0 as [->|[]]. left. reflexivity.
      - destruct Hl0 as [<-|Hl0].
        + destruct Hc0 as [->|Hc0]; [left; reflexivity|].
          right. apply (IHt l1); [left; reflexivity | exact Hc0].
        + right. apply (IHt l0); [right; exact Hl0 | exact Hc0]. }
    cbn [split_lines]. destruct (x =? LF).
    { intros [<-|Hl] Hc; [destruct Hc|]. right. exact (IHt l Hl Hc). }
    destruct (x =? CR); [|apply Hcons].
    destruct t as [|c' t']; [apply Hcons|].
    destruct (c' =? LF); [|apply Hcons].
    intros [<-|Hl] Hc; [destruct Hc|]. right. right. exact (IHtl l Hl Hc).
Qed.

Lemma trim_In s c : In c (trim s) -> In c s.
Proof.
  intros H. destruct (trimStart_split s) as [pre [Hs _]].
  destruct (trimEnd_split (trimStart s)) as [post [Hs' _]].
  rewrite Hs, Hs'. apply in_or_app. right. apply in_or_app. left. exact H.
Qed.

Lemma In_tail {A} (x : A) l : In x (tail l) -> In x l.
Proof. destruct l; [trivial | right; assumption]. Qed.

Lemma marks_In c rest : forall q, In (Some c) (marks rest q) -> In c rest.
Proof.
  induction rest as [|x l IHl IHt] using scan_ind; intros q; [intros []|].
  rewrite marks_cons. destruct (N.eqb_spec x QUOTE) as [->|Hx].
  - destruct (q && next_is_quote l).
    + intros [[= <-]|H]; [left; reflexivity|]. right. eapply In_tail, IHt, H.
    + intros H. right. eapply IHl, H.
  - destruct ((x =? COMMA) && negb q).
    + intros [H|H]; [discriminate H|]. right. eapply IHl, H.
    + intros [[= <-]|H]; [left; reflexivity|]. right. eapply IHl, H.
Qed.

Lemma pieces_In ms : forall p c, In p (pieces ms) -> In c p -> In (Some c) ms.
Proof.
  induction ms as [|[x|] ms IH]; intros p c; cbn [pieces].
  - intros [<-|[]] [].
  - destruct (pieces ms) as [|p0 ps] eqn:Hp.
    + intros [<-|[]] [->|[]]. left. reflexivity.
    + intros [<-|Hin] Hc.
      * destruct Hc as [->|Hc]; [left; reflexivity|].
        right. apply (IH p0); [left; reflexivity | exact Hc].
      * right. apply (IH p); [right; exact Hin | exact Hc].
  - intros [<-|Hin] Hc; [destruct Hc|]. right. exact (IH p c Hin Hc).
Qed.

(** The cells of a line are made of code units of the line. *)
Lemma splitCsvLine_In line cell c :
  In cell (splitCsvLine line) -> In c cell -> In c line.
Proof.
  rewrite splitCsvLine_pieces. intros Hcell Hc.
  eapply marks_In, pieces_In; eassumption.
Qed.

Lemma trimStart_ws s : forallb is_ws s = true -> trimStart s = [].
Proof.
  induction s as [|c t IH]; [reflexivity|]. cbn [forallb trimStart].
  intros H. apply andb_true_iff in H as [-> Ht]. exact (IH Ht).
Qed.

Lemma trim_ws s : forallb is_ws s = true -> trim s = [].
Proof. intros H. unfold trim. rewrite (trimStart_ws s H). reflexivity. Qed.

Lemma trimStart_keeps s c :
  In c s -> is_ws c = false -> In c (trimStart s).
Proof.
  induction s as [|x t IH]; [intros []|]. intros Hin Hc. cbn [trimStart].
  destruct (is_ws x) eqn:Hx; [|exact Hin].
  destruct Hin as [->|Hin]; [congruence | exact (IH Hin Hc)].
Qed.

Lemma trim_keeps s c : In c s -> is_ws c = false -> In c (trim s).
Proof.
  intros Hin Hc. unfold trim, trimEnd. apply in_rev.
  rewrite rev_involutive. apply trimStart_keeps; [|exact Hc].
  apply -> in_rev. apply trimStart_keeps; assumption.
Qed.

(** A code unit other than a newline and a carriage return is on some
    line. *)
Lemma split_lines_keeps text c :
  In c text -> c <> LF -> c <> CR -> exists l, In l (split_lines text) /\ In c l.
Proof.
  intros Hin Hlf Hcr.
  induction text as [|x t IHt IHtl] using scan_ind; [destruct Hin|].
  assert (x <> LF -> (x = CR -> forall t', t <> LF :: t') ->
          exists l, In l (split_lines (x :: t)) /\ In c l) as Hcons.
  { intros H1 H2. rewrite split_lines_cons by assumption.
    destruct Hin as [->|Hin].
    - destruct (split_lines t) as [|l1 ls]; eexists; (split; [left; reflexivity|]);
        left; reflexivity.
    - destruct (IHt Hin) as (l & Hl & Hc).
      destruct (split_lines t) as [|l1 ls]; [destruct Hl|].
      destruct Hl as [->|Hl].
      + exists (x :: l). split; [left; reflexivity | right; exact Hc].
      + exists l. split; [right; exact Hl | exact Hc]. }
  destruct (N.eqb_spec x LF) as [->|Hx].
  { destruct Hin as [Hin|Hin]; [congruence|].
    destruct (IHt Hin) as (l & Hl & Hc). exists l. split; [|exact Hc].
    cbn [split_lines]. change (LF =? LF) with true. right. exact Hl. }
  destruct (N.eqb_spec x CR) as [->|Hx'].
  - destruct Hin as [Hin|Hin]; [congruence|].
    destruct t as [|c' t']; [destruct Hin|].
    destruct (N.eqb_spec c' LF) as [->|Hc'].
    + destruct Hin as [Hin|Hin]; [congruence|].
      destruct (IHtl Hin) as (l & Hl & Hc). exists l. split; [|exact Hc].
      cbn [split_lines]. change (CR =? LF) with false.
      change (CR =? CR) with true. change (LF =? LF) with true. right. exact Hl.
    + apply Hcons; [exact Hx|]. intros _ t'' [= ? _]. congruence.
  - apply Hcons; [exact Hx | congruence].
Qed.

Lemma parseCsv_readable_rows (rows : list (list jsstring)) :
  forallb readable_row rows = true -> parseCsv (rows_to_csv rows) = rows.
Proof.
  induction rows as [|r rows IH]; [reflexivity|].
  cbn [forallb]. intros H. apply andb_true_iff in H as [Hr Hrows].
  apply readable_row_spec in Hr as (Hne & Hlf & Hl & Htrim & Hlast).
  specialize (IH Hrows).
  assert (truthy (row_line r) = true) as Ht
    by (destruct (row_line r); [congruence | reflexivity]).
  destruct rows as [|r' rows'].
  - change (rows_to_csv [r]) with (row_line r). unfold parseCsv.
    rewrite (split_lines_no_LF _ Hlf). cbn [List.map]. rewrite Htrim.
    cbn [List.filter]. rewrite Ht. cbn [List.map].
    rewrite (splitCsvLine_row_line r Hne). reflexivity.
  - change (rows_to_csv (r :: r' :: rows'))
      with (row_line r ++ [LF] ++ rows_to_csv (r' :: rows')).
    change ([LF] ++ ?x) with (LF :: x).
    rewrite (parseCsv_line _ _ Hlf Hlast), Htrim, Ht, IH.
    rewrite (splitCsvLine_row_line r Hne). reflexivity.
Qed.

Lemma parseCsv_blank_iff (text : jsstring) :
  parseCsv text = [] <-> forallb is_ws text = true.
Proof.
  unfold parseCsv. split.
  - intros H. apply forallb_forall. intros c Hc.
    destruct (is_ws c) eqn:Hw; [reflexivity|]. exfalso.
    destruct (split_lines_keeps text c Hc) as (l & Hl & Hcl).
    { intros ->. discriminate Hw. }
    { intros ->. discriminate Hw. }
    assert (In (splitCsvLine (trim l))
              (List.map splitCsvLine
                 (List.filter truthy (List.map trim (split_lines text))))) as Hin.
    { apply in_map, filter_In. split; [apply in_map, Hl|].
      pose proof (trim_keeps l c Hcl Hw) as Hk.
      destruct (trim l); [destruct Hk | reflexivity]. }
    rewrite H in Hin. destruct Hin.
  - intros H.
    assert (forall l, In l (split_lines text) -> trim l = []) as Hall.
    { intros l Hl. apply trim_ws, forallb_forall. intros c Hc.
      rewrite forallb_forall in H. eapply H, split_lines_In; eassumption. }
    induction (split_lines text) as [|l ls IH]; [reflexivity|].
    cbn [List.map List.filter]. rewrite (Hall l) by (left; reflexivity).
    cbn [truthy]. apply IH. intros l' Hl'. apply Hall. right. exact Hl'.
Qed.

End FileFacts.

(** X2: rows written by [rows_to_csv] are read back by [parseCsv] as they
    were, provided each row is readable line by line: no field holds a
    newline, and the line of the row is not empty and has no white space
    at its ends (the parser trims every line and drops the empty ones). *)
Theorem parseCsv_rows_to_csv (rows : list (list jsstring)) :
  forallb readable_row rows = true -> parseCsv (rows_to_csv rows) = rows.
Proof. apply parseCsv_readable_rows. Qed.

Lemma parseCsv_rows_to_csv_witness :
  let rows := [[js "id"; js "a,b"]; [js "1"; [QUOTE] ++ js " x "; []]] in
  forallb readable_row rows = true /\ parseCsv (rows_to_csv rows) = rows.
Proof.
  split; [reflexivity|]. apply parseCsv_rows_to_csv. reflexivity.
Defined.

(** X3: what [parseCsv] never returns.  No row is empty and no cell holds a
    newline, quoted or not: the text is cut at the newlines before the
    quotes are looked at. *)
Theorem parseCsv_rows_shape (text : jsstring) :
  Forall (fun row => row <> [] /\ Forall (fun cell => ~ In LF cell) row)
         (parseCsv text).
Proof.
  unfold parseCsv. apply List.Forall_forall. intros row Hrow.
  apply in_map_iff in Hrow as (line & <- & Hline).
  apply filter_In in Hline as [Hline _].
  apply in_map_iff in Hline as (l & <- & Hl).
  split.
  - rewrite splitCsvLine_pieces. apply pieces_nonempty.
  - apply List.Forall_forall. intros cell Hcell Hc.
    pose proof (split_lines_lines text) as Hlines.
    rewrite List.Forall_forall in Hlines. apply (Hlines l Hl).
    apply trim_In. eapply splitCsvLine_In; eassumption.
Qed.

(** X4: [parseCsv] returns no row exactly for the texts that consist of
    white space only (blank lines included). *)
Theorem parseCsv_nil_iff (text : jsstring) :
  parseCsv text = [] <-> forallb is_ws text = true.
Proof. apply parseCsv_blank_iff. Qed.



(** ** The steps of a case *)

Section StepListFacts.

Lemma has_LF_true s : has_LF s = true -> In LF s.
Proof.
  unfold has_LF. intros H. apply existsb_exists in H as (x & Hx & Heq).
  apply N.eqb_eq in Heq. subst x. exact Hx.
Qed.

Lemma not_In_has_LF s : ~ In LF s -> has_LF s = false.
Proof.
  intros H. destruct (has_LF s) eqn:E; [|reflexivity].
  exfalso. exact (H (has_LF_true s E)).
Qed.

Lemma trim_idempotent s : trim (trim s) = trim s.
Proof.
  destruct (trim_ends s) as [->|[(c & t & Hs & Hc) (t' & c' & Hs' & Hc')]];
    [reflexivity|].
  unfold trim at 1. rewrite Hs, (trimStart_id c t Hc), <- Hs, Hs'.
  apply trimEnd_id, Hc'.
Qed.

Lemma split_newlines_cons c t :
  c <> LF ->
  split_newlines (c :: t)
  = match split_newlines t with l :: ls => (c :: l) :: ls | [] => [[c]] end.
Proof.
  intros Hc. apply N.eqb_neq in Hc. cbn [split_newlines]. rewrite Hc. reflexivity.
Qed.

Lemma split_newlines_nonempty s : split_newlines s <> [].
Proof.
  induction s as [|c t IH]; [discriminate|].
  destruct (N.eqb_spec c LF) as [->|Hc].
  - cbn [split_newlines]. change (LF =? LF) with true. cbv iota.
    destruct t as [|c' t']; [discriminate|]. destruct (c' =? LF); [exact IH | discriminate].
  - rewrite split_newlines_cons by exact Hc. destruct (split_newlines t); discriminate.
Qed.

(** After a newline the first piece is empty, also when a run of newlines
    is taken as one separator. *)
Lemma hd_split_newlines_LF t : hd [] (split_newlines (LF :: t)) = [].
Proof.
  induction t as [|c' t' IH]; [reflexivity|].
  cbn [split_newlines]. change (LF =? LF) with true. cbv iota.
  destruct (N.eqb_spec c' LF) as [->|Hc']; [exact IH | reflexivity].
Qed.

Lemma Forall_split_newlines_LF (P : jsstring -> Prop) t :
  P [] -> Forall P (split_newlines t) -> Forall P (split_newlines (LF :: t)).
Proof.
  intros H0 H. cbn [split_newlines]. change (LF =? LF) with true. cbv iota.
  destruct t as [|c' t']; [constructor; assumption|].
  destruct (c' =? LF); [exact H | constructor; assumption].
Qed.

Lemma split_newlines_pieces s : Forall (fun p => ~ In LF p) (split_newlines s).
Proof.
  induction s as [|c t IH]; [repeat constructor; intros []|].
  destruct (N.eqb_spec c LF) as [->|Hc].
  - apply Forall_split_newlines_LF; [intros [] | exact IH].
  - rewrite split_newlines_cons by exact Hc.
    destruct IH as [|l ls Hl Hls].
    + constructor; [|constructor]. intros [H|[]]. congruence.
    + constructor; [|exact Hls]. intros [H|H]; [congruence | exact (Hl H)].
Qed.

(** The pieces between the newlines of the replaced text hold no marker:
    a marker in a piece would have been found in the raw text, of which
    the first piece is a prefix. *)
Lemma replace_br_from_pieces s : forall skip,
  Forall (fun p => has_br p = false) (split_newlines (replace_br_from skip s)) /\
  (skip = 0%nat ->
   exists rest, s = hd [] (split_newlines (replace_br_from 0 s)) ++ rest).
Proof.
  induction s as [|c t IH]; intros skip.
  - split; [repeat constructor|]. intros _. exists []. reflexivity.
  - destruct skip as [|k]; cbn [replace_br_from].
    + destruct (match_br (c :: t)) as [n|] eqn:Hm.
      * split.
        -- apply Forall_split_newlines_LF; [reflexivity | apply IH].
        -- intros _. rewrite hd_split_newlines_LF. exists (c :: t). reflexivity.
      * destruct (IH 0%nat) as [HF Hpre]. destruct (Hpre eq_refl) as [rest Hrest].
        destruct (N.eqb_spec c LF) as [->|Hc].
        -- split; [apply Forall_split_newlines_LF; [reflexivity | exact HF]|].
           intros _. rewrite hd_split_newlines_LF. exists (LF :: t). reflexivity.
        -- rewrite split_newlines_cons by exact Hc.
           pose proof (split_newlines_nonempty (replace_br_from 0 t)) as Hne.
           destruct (split_newlines (replace_br_from 0 t)) as [|p ps]; [congruence|].
           cbn [hd] in Hrest |- *. inversion HF as [|? ? Hp Hps]; subst p ps.
           split.
           ++ constructor; [|exact Hps]. cbn [has_br]. rewrite Hp, orb_false_r.
              apply bool_decide_eq_false. intros [n Hn].
              apply (match_br_app _ rest) in Hn.
              rewrite <- app_comm_cons in Hn. congruence.
           ++ intros _. exists rest. rewrite <- app_comm_cons. congruence.
    + split; [apply IH | discriminate].
Qed.

Lemma has_br_trim p : has_br p = false -> has_br (trim p) = false.
Proof.
  intros H. destruct (trimStart_split p) as [pre [Hs _]].
  destruct (trimEnd_split (trimStart p)) as [post [Hs' _]].
  rewrite Hs in H. apply has_br_app_r in H. rewrite Hs' in H.
  apply has_br_app_l in H. exact H.
Qed.

Lemma split_newlines_app p : ~ In LF p -> forall rest,
  head rest <> Some LF ->
  split_newlines (p ++ LF :: rest) = p :: split_newlines rest.
Proof.
  induction p as [|c t IH]; intros Hn rest Hr.
  - rewrite app_nil_l. cbn [split_newlines]. change (LF =? LF) with true. cbv iota.
    destruct rest as [|c' t']; [reflexivity|].
    destruct (N.eqb_spec c' LF) as [->|_]; [|reflexivity].
    exfalso. apply Hr. reflexivity.
  - assert (c <> LF) as Hc by (intros ->; apply Hn; left; reflexivity).
    rewrite <- app_comm_cons, split_newlines_cons by exact Hc.
    rewrite IH; [reflexivity | | exact Hr]. intros H. apply Hn. right. exact H.
Qed.

Lemma head_join_LF s steps :
  s <> [] -> ~ In LF s -> head (join [LF] (s :: steps)) <> Some LF.
Proof.
  intros Hs Hn. destruct s as [|c s']; [congruence|].
  assert (head (join [LF] ((c :: s') :: steps)) = Some c) as ->
    by (destruct steps; reflexivity).
  intros [= ->]. apply Hn. left. reflexivity.
Qed.

Lemma split_newlines_join steps :
  steps <> [] -> Forall (fun s => s <> [] /\ ~ In LF s) steps ->
  split_newlines (join [LF] steps) = steps.
Proof.
  intros Hne H. induction H as [|s steps [Hs Hn] Hrest IH]; [congruence|].
  destruct steps as [|s' steps']; [apply split_newlines_no_LF, Hn|].
  rewrite join_cons2. change ([LF] ++ ?x) with (LF :: x).
  inversion Hrest as [|? ? [Hs' Hn'] _]; subst.
  rewrite split_newlines_app; [|exact Hn|apply head_join_LF; assumption].
  rewrite IH by discriminate. reflexivity.
Qed.

Lemma normalized_step_spec s :
  normalized_step s = true <-> s <> [] /\ trim s = s /\ ~ In LF s.
Proof.
  unfold normalized_step. rewrite !andb_true_iff, negb_true_iff. split.
  - intros [[H1 H2] H3]. apply bool_decide_eq_true in H2.
    repeat split; [intros ->; discriminate H1 | exact H2 | apply has_LF_false, H3].
  - intros (H1 & H2 & H3). repeat split.
    + destruct s; [congruence | reflexivity].
    + apply bool_decide_eq_true, H2.
    + apply not_In_has_LF, H3.
Qed.

Lemma normalizeSteps_joined (steps : list jsstring) :
  forallb normalized_step steps = true ->
  has_br (join [LF] steps) = false ->
  normalizeSteps (join [LF] steps) = steps.
Proof.
  intros Hsteps Hbr. unfold normalizeSteps. rewrite (replace_br_none _ Hbr).
  destruct steps as [|s0 steps0]; [reflexivity|].
  rewrite forallb_forall in Hsteps.
  rewrite split_newlines_join; [|discriminate|].
  - clear Hbr. induction (s0 :: steps0) as [|s steps IH]; [reflexivity|].
    destruct (proj1 (normalized_step_spec s)) as (Hs & Ht & _);
      [apply Hsteps; left; reflexivity|].
    cbn [List.map List.filter]. rewrite Ht.
    destruct s as [|c s']; [congruence|]. cbn [truthy]. f_equal.
    apply IH. intros x Hx. apply Hsteps. right. exact Hx.
  - apply List.Forall_forall. intros s Hs.
    destruct (proj1 (normalized_step_spec s) (Hsteps s Hs)) as (H1 & _ & H3).
    split; assumption.
Qed.

End StepListFacts.

(** *** The claim about the steps *)

Section TightFacts.

Lemma trimStart_blank_app pre x :
  forallb is_ws pre = true -> trimStart (pre ++ x) = trimStart x.
Proof.
  induction pre as [|c pre IH]; [reflexivity|]. cbn [forallb]. intros H.
  apply andb_true_iff in H as [Hc Hpre].
  rewrite <- app_comm_cons. cbn [trimStart]. rewrite Hc. exact (IH Hpre).
Qed.

Lemma trimEnd_app_blank x post :
  forallb is_ws post = true -> trimEnd (x ++ post) = trimEnd x.
Proof.
  intros H. unfold trimEnd. rewrite rev_app_distr, trimStart_blank_app;
    [reflexivity|].
  apply forallb_forall. intros c Hc. rewrite forallb_forall in H.
  apply H, in_rev, Hc.
Qed.

Lemma tight_ends s :
  tight s = true ->
  (exists c t, s = c :: t /\ is_ws c = false) /\
  (exists t c, s = t ++ [c] /\ is_ws c = false).
Proof.
  unfold tight. destruct s as [|c t]; [discriminate|]. cbn [head].
  destruct (exists_last (l := c :: t)) as (t' & c' & Hl); [discriminate|].
  rewrite Hl at 1. rewrite last_snoc, andb_true_iff, !negb_true_iff.
  intros [Hc Hc']. split; [exists c, t | exists t', c']; split; auto.
Qed.

(** What [trim] does, without [trim]: white space around a tight string
    goes, the tight string stays. *)
Lemma trim_padded pre core post :
  forallb is_ws pre = true -> forallb is_ws post = true -> tight core = true ->
  trim (pre ++ core ++ post) = core.
Proof.
  intros Hpre Hpost Hc.
  destruct (tight_ends core Hc) as [(c & t & Hs & Hw) (t' & c' & Hs' & Hw')].
  unfold trim. rewrite (trimStart_blank_app _ _ Hpre).
  rewrite Hs at 1. rewrite <- app_comm_cons, (trimStart_id _ _ Hw).
  rewrite app_comm_cons, <- Hs, (trimEnd_app_blank _ _ Hpost), Hs'.
  apply trimEnd_id, Hw'.
Qed.

Lemma tight_trim s : trim s <> [] -> tight (trim s) = true.
Proof.
  intros Hne.
  destruct (trim_ends s) as [H|[(c & t & Hs & Hw) (t' & c' & Hs' & Hw')]];
    [congruence|].
  unfold tight. rewrite Hs at 1. cbn [head]. rewrite Hs', last_snoc, Hw, Hw'.
  reflexivity.
Qed.

Lemma tight_normalized s :
  tight s = true -> ~ In LF s -> normalized_step s = true.
Proof.
  intros Ht Hn. apply normalized_step_spec. repeat split; [| |exact Hn].
  - intros ->. discriminate Ht.
  - rewrite <- (app_nil_r s) at 1. apply (trim_padded [] s []); auto.
Qed.

Lemma normalizeSteps_tight raw :
  Forall (fun s => tight s = true /\ ~ In LF s) (normalizeSteps raw).
Proof.
  unfold normalizeSteps. apply List.Forall_forall. intros s Hs.
  apply filter_In in Hs as [Hs Ht].
  apply in_map_iff in Hs as (p & <- & Hp). split.
  - apply tight_trim. intros E. rewrite E in Ht. discriminate Ht.
  - pose proof (split_newlines_pieces (replace_br raw)) as Hlf.
    rewrite List.Forall_forall in Hlf. intros H. apply (Hlf p Hp), trim_In, H.
Qed.

Lemma normalizeSteps_two p1 m p2 core1 core2 :
  is_marker m -> has_br p1 = false -> has_br p2 = false ->
  ~ In LF p1 -> ~ In LF p2 ->
  trim p1 = core1 -> trim p2 = core2 -> core1 <> [] -> core2 <> [] ->
  normalizeSteps (p1 ++ m ++ p2) = [core1; core2].
Proof.
  intros Hm Hb1 Hb2 Hn1 Hn2 <- <- Ht1 Ht2. unfold normalizeSteps.
  rewrite replace_br_marker by assumption.
  rewrite (replace_br_none p2 Hb2), split_newlines_two by assumption.
  cbn [List.map List.filter].
  destruct (trim p1); [congruence|]. destruct (trim p2); [congruence|].
  reflexivity.
Qed.

End TightFacts.

(** Claim C5 as stated fails in its last part: the marker expression lets
    white space, hence a newline, stand between [<br] and [>], so that two
    fragments can form a marker across the newline that joins them.  The
    fragments [<br] and [>] joined by the marker [<br>] give the two steps
    [<br] and [>]; joined by a newline they give no step at all. *)
Theorem normalizeSteps_styles_differ :
  let m := js "<br>" in
  let fs := [js "<br"; js ">"] in
  is_marker m /\
  normalizeSteps (join m fs) = [js "<br"; js ">"] /\
  normalizeSteps (join [LF] fs) = [] /\
  normalizeSteps (join m fs) <> normalizeSteps (join [LF] fs).
Proof. vm_compute. repeat split. discriminate. Qed.

(** Claim C5, amended.  For every raw cell, each step that [normalizeSteps]
    returns is tight (not empty, no white space at its first and last
    place) and holds no newline.  A cell made of two phrases with one
    marker between them, each phrase a tight text with white space around
    it and without newline or marker, gives exactly the two tight texts.
    Fragments joined by a marker normalise like the same fragments joined
    by newlines, provided the newline-joined text holds no match of the
    marker; when the fragments are tight and without newline, both ways
    give the fragments themselves. *)
Theorem normalizeSteps_spec :
  (forall raw,
     Forall (fun s => tight s = true /\ ~ In LF s) (normalizeSteps raw)) /\
  (forall pre1 core1 post1 m pre2 core2 post2,
     let p1 := pre1 ++ core1 ++ post1 in
     let p2 := pre2 ++ core2 ++ post2 in
     is_marker m ->
     forallb is_ws pre1 = true -> forallb is_ws post1 = true ->
     forallb is_ws pre2 = true -> forallb is_ws post2 = true ->
     tight core1 = true -> tight core2 = true ->
     has_br p1 = false -> has_br p2 = false -> ~ In LF p1 -> ~ In LF p2 ->
     normalizeSteps (p1 ++ m ++ p2) = [core1; core2]) /\
  (forall m fs,
     is_marker m -> has_br (join [LF] fs) = false ->
     normalizeSteps (join m fs) = normalizeSteps (join [LF] fs)) /\
  (forall m fs,
     is_marker m -> has_br (join [LF] fs) = false ->
     Forall (fun s => tight s = true /\ ~ In LF s) fs ->
     normalizeSteps (join m fs) = fs /\ normalizeSteps (join [LF] fs) = fs).
Proof.
  assert (forall m fs,
            is_marker m -> has_br (join [LF] fs) = false ->
            normalizeSteps (join m fs) = normalizeSteps (join [LF] fs)) as Hsame.
  { intros m fs Hm Hb. unfold normalizeSteps.
    rewrite (replace_br_join m fs Hm Hb), (replace_br_none _ Hb). reflexivity. }
  split; [exact normalizeSteps_tight|]. split; [|split; [exact Hsame|]].
  - intros pre1 core1 post1 m pre2 core2 post2 p1 p2
           Hm Hpre1 Hpost1 Hpre2 Hpost2 Hc1 Hc2 Hb1 Hb2 Hn1 Hn2.
    apply normalizeSteps_two; try assumption.
    + apply trim_padded; assumption.
    + apply trim_padded; assumption.
    + intros ->. discriminate Hc1.
    + intros ->. discriminate Hc2.
  - intros m fs Hm Hb Hfs. rewrite (Hsame m fs Hm Hb).
    assert (normalizeSteps (join [LF] fs) = fs) as ->; [|split; reflexivity].
    apply normalizeSteps_joined; [|exact Hb].
    apply forallb_forall. intros s Hs. rewrite List.Forall_forall in Hfs.
    destruct (Hfs s Hs) as [Ht Hn]. apply tight_normalized; assumption.
Qed.

(** Two instances, with the markers [<BR />] and [<br>]. *)
Lemma normalizeSteps_spec_witness :
  normalizeSteps ((js " " ++ js "open the app" ++ js "  ")
                  ++ js "<BR />" ++ ([] ++ js "log in" ++ [CR]))
  = [js "open the app"; js "log in"] /\
  normalizeSteps (join (js "<br>") [js "a"; js "b"; js " "; js "c"])
  = normalizeSteps (join [LF] [js "a"; js "b"; js " "; js "c"]).
Proof.
  split.
  - apply (proj1 (proj2 normalizeSteps_spec)
             (js " ") (js "open the app") (js "  ") (js "<BR />")
             [] (js "log in") [CR]);
      try reflexivity; vm_compute; intuition discriminate.
  - apply (proj1 (proj2 (proj2 normalizeSteps_spec))); vm_compute; reflexivity.
Defined.


(** X6: every step that [normalizeSteps] returns, for any raw cell, is not
    empty, has no white space at its ends, holds no newline, and holds no
    match of the line-break marker. *)
Theorem normalizeSteps_steps (raw : jsstring) :
  Forall (fun s => normalized_step s = true /\ has_br s = false)
         (normalizeSteps raw).
Proof.
  unfold normalizeSteps. apply List.Forall_forall. intros s Hs.
  apply filter_In in Hs as [Hs Ht].
  apply in_map_iff in Hs as (p & <- & Hp).
  pose proof (split_newlines_pieces (replace_br raw)) as Hlf.
  destruct (replace_br_from_pieces raw 0) as [Hbr _]. fold (replace_br raw) in Hbr.
  rewrite List.Forall_forall in Hlf, Hbr. split.
  - apply normalized_step_spec. repeat split.
    + intros E. rewrite E in Ht. discriminate Ht.
    + apply trim_idempotent.
    + intros H. apply (Hlf p Hp). apply trim_In, H.
  - apply has_br_trim, Hbr, Hp.
Qed.

(** X7: steps that are normalised come back from [normalizeSteps] when
    they are joined by newlines, as [casesToCsv] joins them for the steps
    cell, provided the joined text holds no match of the marker (a match
    may span the newline between two steps: the steps [<br] and [>]). *)
Theorem normalizeSteps_join (steps : list jsstring) :
  forallb normalized_step steps = true ->
  has_br (join [LF] steps) = false ->
  normalizeSteps (join [LF] steps) = steps.
Proof. apply normalizeSteps_joined. Qed.

Lemma normalizeSteps_join_witness :
  let steps := [js "open the page"; js "click <b>"; js "check"] in
  forallb normalized_step steps = true /\ has_br (join [LF] steps) = false /\
  normalizeSteps (join [LF] steps) = steps.
Proof.
  split; [reflexivity|]. split; [reflexivity|].
  apply normalizeSteps_join; reflexivity.
Defined.

(** Without the last condition the steps do not come back: the raw cell
    [<br<br>>] gives the steps [<br] and [>], which joined by a newline
    form one match of the marker. *)
Example normalizeSteps_join_marker_ex :
  normalizeSteps (js "<br<br>>") = [js "<br"; js ">"] /\
  normalizeSteps (join [LF] [js "<br"; js ">"]) = [].
Proof. vm_compute. split; reflexivity. Qed.

(** ** The counters of the summary *)

Section CounterFacts.

Local Open Scope Z_scope.

Lemma filter_length_cons {A} (f : A -> bool) c l :
  Z.of_nat (length (List.filter f (c :: l)))
  = (if f c then 1 else 0) + Z.of_nat (length (List.filter f l)).
Proof. cbn [List.filter]. destruct (f c); cbn [length]; lia. Qed.

(** A status belongs to exactly one of the six classes. *)
Lemma status_classes c :
  (if has_status STATUS_NOT_RUN c then 1 else 0)
  + (if has_status STATUS_PASSED c then 1 else 0)
  + (if has_status STATUS_FAILED c then 1 else 0)
  + (if has_status STATUS_BLOCKED c then 1 else 0)
  + (if has_status STATUS_SKIPPED c then 1 else 0)
  + (if unknown_status c then 1 else 0) = 1.
Proof.
  unfold has_status, unknown_status, JsString.eqb.
  generalize (Case.status c). intros s.
  destruct (decide (s = STATUS_NOT_RUN)) as [->|H1]; [vm_compute; reflexivity|].
  destruct (decide (s = STATUS_PASSED)) as [->|H2]; [vm_compute; reflexivity|].
  destruct (decide (s = STATUS_FAILED)) as [->|H3]; [vm_compute; reflexivity|].
  destruct (decide (s = STATUS_BLOCKED)) as [->|H4]; [vm_compute; reflexivity|].
  destruct (decide (s = STATUS_SKIPPED)) as [->|H5]; [vm_compute; reflexivity|].
  rewrite !bool_decide_eq_false_2; [reflexivity| |assumption..].
  unfold STATUS_OPTIONS. rewrite !elem_of_cons, elem_of_nil. tauto.
Qed.

Lemma status_partition cases :
  Z.of_nat (length cases)
  = Z.of_nat (length (List.filter (has_status STATUS_NOT_RUN) cases))
    + Z.of_nat (length (List.filter (has_status STATUS_PASSED) cases))
    + Z.of_nat (length (List.filter (has_status STATUS_FAILED) cases))
    + Z.of_nat (length (List.filter (has_status STATUS_BLOCKED) cases))
    + Z.of_nat (length (List.filter (has_status STATUS_SKIPPED) cases))
    + Z.of_nat (length (List.filter unknown_status cases)).
Proof.
  induction cases as [|c cases IH]; [reflexivity|].
  rewrite !filter_length_cons. pose proof (status_classes c).
  cbn [length]. lia.
Qed.

Lemma fold_summarize_priority cases : forall sc tx pc,
  snd (fold_left summarize_step cases (sc, tx, pc))
  = fold_left priority_step cases pc.
Proof.
  induction cases as [|c cases IH]; intros sc tx pc; [reflexivity|].
  cbn [fold_left]. destruct (summarize_step_counters sc tx pc c) as [tx' ->].
  apply IH.
Qed.

Lemma incr_lookup key obj k :
  incr key obj !! k
  = if JsString.eqb key k then Z.succ <$> obj !! k else obj !! k.
Proof.
  unfold incr, JsString.eqb. destruct (decide (key = k)) as [->|Hne].
  - rewrite bool_decide_eq_true_2 by reflexivity.
    destruct (obj !! k) as [n|] eqn:Hn; [|rewrite Hn; reflexivity].
    rewrite lookup_insert_eq. reflexivity.
  - rewrite bool_decide_eq_false_2 by exact Hne.
    destruct (obj !! key) as [n|]; [|reflexivity].
    apply lookup_insert_ne. exact Hne.
Qed.

Lemma priority_step_lookup pc c k :
  priority_step pc c !! k = if bumps k c then Z.succ <$> pc !! k else pc !! k.
Proof.
  unfold priority_step, bumps. case_bool_decide; apply incr_lookup.
Qed.

Lemma fold_priority_lookup cases : forall pc k,
  fold_left priority_step cases pc !! k
  = (fun n => n + Z.of_nat (length (List.filter (bumps k) cases))) <$> pc !! k.
Proof.
  induction cases as [|c cases IH]; intros pc k; cbn [fold_left List.filter].
  - destruct (pc !! k); cbn; [f_equal; lia | reflexivity].
  - rewrite IH, priority_step_lookup. destruct (bumps k c).
    + destruct (pc !! k); cbn; [f_equal; lia | reflexivity].
    + reflexivity.
Qed.

Lemma summarize_priority cases k :
  In k (PRIORITY_OTHER :: PRIORITY_ORDER) ->
  Summary.priorityCount (summarize cases) !! k
  = Some (Z.of_nat (length (List.filter (bumps k) cases))).
Proof.
  intros Hk. unfold summarize.
  pose proof (fold_summarize_priority cases (zero_counts STATUS_OPTIONS ∅) ∅
                (zero_counts PRIORITY_ORDER {[PRIORITY_OTHER := 0]})) as Hfold.
  destruct (fold_left summarize_step cases _) as [[sc tx] pc]. cbn [snd] in Hfold.
  cbn [Summary.priorityCount]. rewrite Hfold, fold_priority_lookup.
  assert (zero_counts PRIORITY_ORDER {[PRIORITY_OTHER := 0]} !! k = Some 0) as ->.
  { repeat (destruct Hk as [<-|Hk]; [vm_compute; reflexivity|]). destruct Hk. }
  reflexivity.
Qed.

Lemma bumps_known k c :
  k ∈ PRIORITY_ORDER -> bumps k c = has_priority k c.
Proof.
  intros Hk. unfold bumps, has_priority, JsString.eqb.
  case_bool_decide as Hc; [reflexivity|].
  rewrite (bool_decide_eq_false_2 (Case.priority c = k)) by (intros E; rewrite E in Hc; exact (Hc Hk)).
  apply bool_decide_eq_false_2. intros <-. unfold PRIORITY_ORDER in Hk.
  rewrite !elem_of_cons, elem_of_nil in Hk.
  destruct Hk as [H|[H|[H|[]]]]; vm_compute in H; discriminate H.
Qed.

Lemma bumps_other c : bumps PRIORITY_OTHER c = other_priority c.
Proof.
  unfold bumps, other_priority, JsString.eqb. case_bool_decide as Hc; cbn [negb].
  - apply bool_decide_eq_false_2. intros E. rewrite E in Hc.
    unfold PRIORITY_ORDER in Hc. rewrite !elem_of_cons, elem_of_nil in Hc.
    destruct Hc as [H|[H|[H|[]]]]; vm_compute in H; discriminate H.
  - apply bool_decide_eq_true_2. reflexivity.
Qed.

(** A priority belongs to exactly one of the four classes. *)
Lemma priority_classes c :
  (if has_priority PRIORITY_HIGH c then 1 else 0)
  + (if has_priority PRIORITY_MEDIUM c then 1 else 0)
  + (if has_priority PRIORITY_LOW c then 1 else 0)
  + (if other_priority c then 1 else 0) = 1.
Proof.
  unfold has_priority, other_priority, JsString.eqb.
  generalize (Case.priority c). intros s.
  destruct (decide (s = PRIORITY_HIGH)) as [->|H1]; [vm_compute; reflexivity|].
  destruct (decide (s = PRIORITY_MEDIUM)) as [->|H2]; [vm_compute; reflexivity|].
  destruct (decide (s = PRIORITY_LOW)) as [->|H3]; [vm_compute; reflexivity|].
  rewrite !bool_decide_eq_false_2; [reflexivity| |assumption..].
  unfold PRIORITY_ORDER. rewrite !elem_of_cons, elem_of_nil. tauto.
Qed.

Lemma priority_partition cases :
  Z.of_nat (length cases)
  = Z.of_nat (length (List.filter (has_priority PRIORITY_HIGH) cases))
    + Z.of_nat (length (List.filter (has_priority PRIORITY_MEDIUM) cases))
    + Z.of_nat (length (List.filter (has_priority PRIORITY_LOW) cases))
    + Z.of_nat (length (List.filter other_priority cases)).
Proof.
  induction cases as [|c cases IH]; [reflexivity|].
  rewrite !filter_length_cons. pose proof (priority_classes c).
  cbn [length]. lia.
Qed.

Lemma filter_length_ext {A} (f g : A -> bool) l :
  (forall x, f x = g x) -> length (List.filter f l) = length (List.filter g l).
Proof. intros H. rewrite (filter_ext f g H). reflexivity. Qed.

Lemma executed_bounds cases :
  0 <= Summary.executed (summarize cases) <= Summary.total (summarize cases).
Proof.
  rewrite summarize_executed, summarize_total, summarize_count
    by (left; reflexivity).
  pose proof (filter_length_le (has_status STATUS_NOT_RUN) cases). lia.
Qed.

End CounterFacts.

(** X8: the executed count of [summarize] is the number of passed, failed,
    blocked and skipped cases plus the number of cases whose status is
    none of the five; such a case is counted as executed although no
    status counter counts it. *)
Theorem summarize_executed_partition (cases : list Case.t) :
  let s := summarize cases in
  Summary.executed s
  = (count_of (Summary.statusCount s) STATUS_PASSED
     + count_of (Summary.statusCount s) STATUS_FAILED
     + count_of (Summary.statusCount s) STATUS_BLOCKED
     + count_of (Summary.statusCount s) STATUS_SKIPPED
     + Z.of_nat (length (List.filter unknown_status cases)))%Z.
Proof.
  cbn zeta. rewrite summarize_executed, summarize_total.
  rewrite !summarize_count by (unfold STATUS_OPTIONS; cbn [In]; tauto).
  pose proof (status_partition cases). lia.
Qed.

(** X9: the priority counters of [summarize] are always present; the
    counters of high, medium and low count the cases with that priority,
    the counter of the others counts the cases with any other priority,
    and the four add up to the total. *)
Theorem summarize_priorities (cases : list Case.t) :
  let s := summarize cases in
  let count f := Z.of_nat (length (List.filter f cases)) in
  Summary.priorityCount s !! PRIORITY_HIGH = Some (count (has_priority PRIORITY_HIGH)) /\
  Summary.priorityCount s !! PRIORITY_MEDIUM = Some (count (has_priority PRIORITY_MEDIUM)) /\
  Summary.priorityCount s !! PRIORITY_LOW = Some (count (has_priority PRIORITY_LOW)) /\
  Summary.priorityCount s !! PRIORITY_OTHER = Some (count other_priority) /\
  (count (has_priority PRIORITY_HIGH) + count (has_priority PRIORITY_MEDIUM)
   + count (has_priority PRIORITY_LOW) + count other_priority = Summary.total s)%Z.
Proof.
  cbn zeta.
  rewrite !summarize_priority by (unfold PRIORITY_ORDER; cbn [In]; tauto).
  rewrite (filter_length_ext (bumps PRIORITY_HIGH) (has_priority PRIORITY_HIGH))
    by (intros c; apply bumps_known; unfold PRIORITY_ORDER; set_solver).
  rewrite (filter_length_ext (bumps PRIORITY_MEDIUM) (has_priority PRIORITY_MEDIUM))
    by (intros c; apply bumps_known; unfold PRIORITY_ORDER; set_solver).
  rewrite (filter_length_ext (bumps PRIORITY_LOW) (has_priority PRIORITY_LOW))
    by (intros c; apply bumps_known; unfold PRIORITY_ORDER; set_solver).
  rewrite (filter_length_ext (bumps PRIORITY_OTHER) other_priority)
    by (intros c; apply bumps_other).
  repeat split. rewrite summarize_total. symmetry. apply priority_partition.
Qed.

(** X10: the two percentages on the cards of [statCards], the share of
    executed cases and the pass rate, are whole numbers between 0 and 100,
    computed in binary64 as the source does. *)
Theorem statCards_percentages (cases : list Case.t) :
  (Z.of_nat (length cases) < 2 ^ 53)%Z ->
  exists r1 r2 : Z,
    (0 <= r1 <= 100)%Z /\ (0 <= r2 <= 100)%Z /\
    sub <$> statCards cases !! 1%nat = Some (JsNumber.to_string r1 ++ js "%") /\
    sub <$> statCards cases !! 2%nat
    = Some (js "通过率 " ++ JsNumber.to_string r2 ++ js "%").
Proof.
  intros Hlen. unfold statCards. cbn [lookup list_lookup fmap option_fmap option_map sub].
  pose proof (executed_bounds cases) as Hex.
  rewrite summarize_passRate. rewrite summarize_total in *.
  destruct (Z.eqb_spec (Z.of_nat (length cases)) 0) as [|Hne].
  - exists 0%Z, 0%Z. repeat split; lia.
  - destruct (pass_rate_bounds (Summary.executed (summarize cases))
                (Z.of_nat (length cases))) as (r1 & -> & Hr1); [lia | lia|].
    destruct (pass_rate_bounds
                (count_of (Summary.statusCount (summarize cases)) STATUS_PASSED)
                (Z.of_nat (length cases))) as (r2 & -> & Hr2); [|lia|].
    { rewrite summarize_count by (right; left; reflexivity).
      pose proof (filter_length_le (has_status STATUS_PASSED) cases). lia. }
    exists r1, r2. repeat split; lia.
Qed.

Lemma statCards_percentages_witness :
  let cases := List.map (fun status => case_with [] status [] [])
                 [STATUS_PASSED; STATUS_FAILED; STATUS_NOT_RUN] in
  exists r1 r2 : Z,
    (0 <= r1 <= 100)%Z /\ (0 <= r2 <= 100)%Z /\
    sub <$> statCards cases !! 1%nat = Some (JsNumber.to_string r1 ++ js "%") /\
    sub <$> statCards cases !! 2%nat
    = Some (js "通过率 " ++ JsNumber.to_string r2 ++ js "%").
Proof. intros cases. apply statCards_percentages. vm_compute. reflexivity. Defined.

(** ** The blocks of the report *)

Section ReportBlockFacts.

Local Open Scope Z_scope.

Lemma or_else_text_or (a b : list N) : or_else a b = text_or a b.
Proof. destruct a; reflexivity. Qed.

Lemma count_of_status cases s :
  In s STATUS_OPTIONS ->
  count_of (Summary.statusCount (summarize cases)) s
  = count_cases (status_is s) cases.
Proof. intros Hs. rewrite summarize_count by exact Hs. reflexivity. Qed.

Lemma priority_count cases k :
  k ∈ PRIORITY_ORDER ->
  template_count (Summary.priorityCount (summarize cases) !! k)
  = JsNumber.to_string (count_cases (priority_is k) cases).
Proof.
  intros Hk. rewrite summarize_priority.
  - cbn [template_count]. unfold count_cases.
    rewrite (filter_length_ext (bumps k) (has_priority k))
      by (intros c; apply bumps_known, Hk).
    reflexivity.
  - right. apply list_elem_of_In, Hk.
Qed.

(** The rows that [buildReportCsv] starts from are the summary, an empty
    row and the header of the abnormal cases. *)
Lemma report_head_blocks cases :
  report_head (summarize cases)
  = summary_block cases
    ++ [ []; [js "异常用例汇总"; js "模块"; js "场景"; js "状态"; js "备注/实际"] ].
Proof.
  unfold report_head, summary_block.
  rewrite summarize_total, summarize_executed, summarize_passRate, summarize_total.
  rewrite !count_of_status by (unfold STATUS_OPTIONS; cbn [In]; tauto).
  rewrite !priority_count by (unfold PRIORITY_ORDER; set_solver).
  destruct (Z.of_nat (length cases) =? 0); reflexivity.
Qed.

Lemma abnormal_rows l :
  List.map abnormal_row l
  = List.map (fun c => [ Case.id c; text_or (Case.module c) (js "未分组");
                         Case.scenario c; Case.status c;
                         text_or (text_or (Case.actual c) (Case.remark c)) (js "-") ])
             l.
Proof.
  apply map_ext. intros c. unfold abnormal_row. rewrite !or_else_text_or.
  reflexivity.
Qed.

Lemma listing_rows l :
  List.map listing_row l
  = List.map (fun c => [ Case.id c; text_or (Case.module c) (js "未分组");
                         Case.scenario c; Case.status c;
                         text_or (Case.priority c) (js "-"); Case.expected c;
                         text_or (text_or (Case.actual c) (Case.remark c)) (js "-") ])
             l.
Proof.
  apply map_ext. intros c. unfold listing_row. rewrite !or_else_text_or.
  reflexivity.
Qed.

Lemma report_rows_blocks cases :
  report_rows cases
  = summary_block cases ++ [[]] ++ abnormal_block cases ++ [[]]
    ++ listing_block cases.
Proof.
  unfold report_rows. rewrite fold_push, report_head_blocks, listing_rows.
  unfold abnormal_block, listing_block.
  change (List.filter (has_status STATUS_FAILED) cases)
    with (List.filter (status_is (js "失败")) cases).
  change (List.filter (has_status STATUS_BLOCKED) cases)
    with (List.filter (status_is (js "阻塞")) cases).
  destruct (List.filter (status_is (js "失败")) cases) as [|f fs] eqn:Hf;
    destruct (List.filter (status_is (js "阻塞")) cases) as [|b bs] eqn:Hb.
  - unfold push. normalize_app. reflexivity.
  - rewrite app_nil_l, fold_push, abnormal_rows. unfold push.
    normalize_app. reflexivity.
  - rewrite app_nil_r, fold_push, abnormal_rows. unfold push.
    normalize_app. reflexivity.
  - rewrite <- app_comm_cons, fold_push, app_comm_cons, map_app, !abnormal_rows.
    unfold push. normalize_app. reflexivity.
Qed.

End ReportBlockFacts.

Section ReportTextFacts.

Lemma utf16_of_bytes_ascii bs :
  Forall (fun b => b < 128) bs -> utf16_of_bytes bs = bs.
Proof.
  induction 1 as [|b bs Hb _ IH]; [reflexivity|].
  cbn [utf16_of_bytes]. apply N.ltb_lt in Hb. rewrite Hb, IH. reflexivity.
Qed.

Lemma string_of_uint_digits d :
  Forall (fun a => 48 <= N_of_ascii a <= 57)
         (list_ascii_of_string (NilEmpty.string_of_uint d)).
Proof.
  induction d; cbn [NilEmpty.string_of_uint list_ascii_of_string];
    constructor; try assumption; vm_compute; split; discriminate.
Qed.

(** The decimal text of a number is made of digits and, at most, a sign. *)
Lemma string_of_int_chars i :
  Forall (fun a => N_of_ascii a = 45 \/ 48 <= N_of_ascii a <= 57)
         (list_ascii_of_string (NilZero.string_of_int i)).
Proof.
  assert (forall d,
            Forall (fun a => N_of_ascii a = 45 \/ 48 <= N_of_ascii a <= 57)
                   (list_ascii_of_string (NilZero.string_of_uint d))) as Hu.
  { intros d.
    assert (Forall (fun a => N_of_ascii a = 45 \/ 48 <= N_of_ascii a <= 57)
                   (list_ascii_of_string (NilEmpty.string_of_uint d))) as Hd.
    { eapply List.Forall_impl; [|apply string_of_uint_digits]. intros a Ha. right. exact Ha. }
    destruct d; try exact Hd.
    constructor; [|constructor]. right. vm_compute. split; discriminate. }
  destruct i as [d|d]; cbn [NilZero.string_of_int list_ascii_of_string].
  - apply Hu.
  - constructor; [left; reflexivity | apply Hu].
Qed.

Lemma has_LF_to_string z : has_LF (JsNumber.to_string z) = false.
Proof.
  apply not_In_has_LF. unfold JsNumber.to_string, js.
  pose proof (string_of_int_chars (Z.to_int z)) as H.
  rewrite utf16_of_bytes_ascii.
  - intros Hin. apply in_map_iff in Hin as (a & Ha & Hin).
    rewrite List.Forall_forall in H. specialize (H a Hin). rewrite Ha in H.
    unfold LF in H. lia.
  - apply List.Forall_forall. intros b Hb. apply in_map_iff in Hb as (a & <- & Hin).
    rewrite List.Forall_forall in H. specialize (H a Hin). lia.
Qed.

Lemma has_LF_app a b : has_LF (a ++ b) = has_LF a || has_LF b.
Proof. apply existsb_app. Qed.

Lemma has_LF_template_rate r : has_LF (template_rate r) = false.
Proof. destruct r; [apply has_LF_to_string | reflexivity]. Qed.

Lemma has_LF_text_or a b :
  has_LF a = false -> has_LF b = false -> has_LF (text_or a b) = false.
Proof. destruct a; auto. Qed.

Lemma split_LF_no_LF l : ~ In LF l -> split_LF l = [l].
Proof.
  induction l as [|c l IH]; [reflexivity|]. intros Hn.
  assert ((c =? LF) = false) as Hc
    by (apply N.eqb_neq; intros ->; apply Hn; left; reflexivity).
  cbn [split_LF]. rewrite Hc, IH; [reflexivity|].
  intros H. apply Hn. right. exact H.
Qed.

Lemma split_LF_app l rest :
  ~ In LF l -> split_LF (l ++ LF :: rest) = l :: split_LF rest.
Proof.
  induction l as [|c l IH]; intros Hn.
  - rewrite app_nil_l. cbn [split_LF]. change (LF =? LF) with true. reflexivity.
  - assert ((c =? LF) = false) as Hc
      by (apply N.eqb_neq; intros ->; apply Hn; left; reflexivity).
    rewrite <- app_comm_cons. cbn [split_LF]. rewrite Hc, IH; [reflexivity|].
    intros H. apply Hn. right. exact H.
Qed.

Lemma split_LF_join lines :
  lines <> [] -> Forall (fun l => ~ In LF l) lines ->
  split_LF (join [LF] lines) = lines.
Proof.
  intros Hne H. induction H as [|l lines Hl Hlines IH]; [congruence|].
  destruct lines as [|l' lines']; [apply split_LF_no_LF, Hl|].
  rewrite join_cons2. change ([LF] ++ ?x) with (LF :: x).
  rewrite (split_LF_app _ _ Hl), IH by discriminate. reflexivity.
Qed.

Lemma group_blocks_lines xs :
  Forall (fun l => l <> []) xs -> group_blocks xs = [xs].
Proof.
  induction 1 as [|l xs Hl _ IH]; [reflexivity|].
  cbn [group_blocks]. rewrite IH. destruct l; [congruence | reflexivity].
Qed.

Lemma group_blocks_app xs ys :
  Forall (fun l => l <> []) xs ->
  group_blocks (xs ++ [] :: ys) = xs :: group_blocks ys.
Proof.
  induction 1 as [|l xs Hl _ IH]; [reflexivity|].
  rewrite <- app_comm_cons. cbn [group_blocks]. rewrite IH.
  destruct l; [congruence | reflexivity].
Qed.

(** A row of two cells or more is written as a line with a comma. *)
Lemma row_line_wide a b r : row_line (a :: b :: r) <> [].
Proof.
  unfold row_line. cbn [List.map]. rewrite join_cons2.
  destruct (escapeCsvField a); discriminate.
Qed.

Lemma lines_of_rows rows :
  Forall (fun r => exists a b rest, r = a :: b :: rest) rows ->
  Forall (fun l => l <> []) (List.map row_line rows) /\
  List.map splitCsvLine (List.map row_line rows) = rows.
Proof.
  induction 1 as [|r rows (a & b & rest & ->) _ [IH1 IH2]]; [split; [constructor | reflexivity]|].
  cbn [List.map]. split.
  - constructor; [apply row_line_wide | exact IH1].
  - rewrite IH2, splitCsvLine_row_line by discriminate. reflexivity.
Qed.

Lemma summary_block_rows cases :
  Forall (fun r => exists a b rest, r = a :: b :: rest) (summary_block cases) /\
  forallb (forallb (fun cell => negb (has_LF cell))) (summary_block cases) = true.
Proof.
  unfold summary_block. split; [repeat constructor; eauto|].
  cbn [forallb]. rewrite !has_LF_app, !has_LF_to_string.
  destruct (Z.of_nat (length cases) =? 0)%Z;
    rewrite ?has_LF_template_rate; reflexivity.
Qed.

Lemma shown_without_LF_spec c :
  shown_without_LF c = true ->
  has_LF (Case.id c) = false /\ has_LF (Case.module c) = false /\
  has_LF (Case.scenario c) = false /\ has_LF (Case.status c) = false /\
  has_LF (Case.priority c) = false /\ has_LF (Case.expected c) = false /\
  has_LF (Case.actual c) = false /\ has_LF (Case.remark c) = false.
Proof.
  unfold shown_without_LF. cbn [forallb].
  rewrite !andb_true_iff, !negb_true_iff. tauto.
Qed.

Lemma abnormal_block_rows cases :
  forallb shown_without_LF cases = true ->
  Forall (fun r => exists a b rest, r = a :: b :: rest) (abnormal_block cases) /\
  forallb (forallb (fun cell => negb (has_LF cell))) (abnormal_block cases) = true.
Proof.
  intros H. rewrite forallb_forall in H. unfold abnormal_block.
  set (shows := fun c : Case.t => _).
  assert (forall l, (forall c, In c l -> In c cases) ->
            Forall (fun r => exists a b rest, r = a :: b :: rest) (List.map shows l) /\
            forallb (forallb (fun cell => negb (has_LF cell))) (List.map shows l) = true)
    as Hrows.
  { induction l as [|c l IH]; intros Hl; [split; [constructor | reflexivity]|].
    destruct IH as [IH1 IH2]; [intros x Hx; apply Hl; right; exact Hx|].
    cbn [List.map]. split; [constructor; [unfold shows; eauto | exact IH1]|].
    cbn [forallb]. rewrite IH2, andb_true_r.
    destruct (shown_without_LF_spec c (H c (Hl c (or_introl eq_refl))))
      as (H1 & H2 & H3 & H4 & _ & _ & H7 & H8).
    unfold shows. cbn [forallb].
    rewrite H1, H3, H4, !has_LF_text_or
      by (repeat apply has_LF_text_or; assumption || reflexivity).
    reflexivity. }
  destruct (Hrows (List.filter (status_is (js "失败")) cases)) as [F1 F2];
    [intros c Hc; apply filter_In in Hc; tauto|].
  destruct (Hrows (List.filter (status_is (js "阻塞")) cases)) as [B1 B2];
    [intros c Hc; apply filter_In in Hc; tauto|].
  assert (Forall (fun r => exists a b rest, r = a :: b :: rest)
            (List.map shows (List.filter (status_is (js "失败")) cases)
             ++ List.map shows (List.filter (status_is (js "阻塞")) cases)) /\
          forallb (forallb (fun cell => negb (has_LF cell)))
            (List.map shows (List.filter (status_is (js "失败")) cases)
             ++ List.map shows (List.filter (status_is (js "阻塞")) cases)) = true)
    as [R1 R2].
  { split; [apply Forall_app; split; assumption|].
    rewrite forallb_app, F2, B2. reflexivity. }
  destruct (List.filter (status_is (js "失败")) cases) as [|f fs];
    destruct (List.filter (status_is (js "阻塞")) cases) as [|b bs];
    (split; [constructor; [eauto|] | cbn [forallb]; apply andb_true_iff; split;
                                     [reflexivity|]]);
    try exact R1; try exact R2.
  repeat constructor. eauto.
Qed.

Lemma listing_block_rows cases :
  forallb shown_without_LF cases = true ->
  Forall (fun r => exists a b rest, r = a :: b :: rest) (listing_block cases) /\
  forallb (forallb (fun cell => negb (has_LF cell))) (listing_block cases) = true.
Proof.
  intros H. rewrite forallb_forall in H. unfold listing_block.
  set (shows := fun c : Case.t => _).
  assert (Forall (fun r => exists a b rest, r = a :: b :: rest) (List.map shows cases) /\
          forallb (forallb (fun cell => negb (has_LF cell))) (List.map shows cases) = true)
    as [R1 R2].
  { induction cases as [|c l IH]; [split; [constructor | reflexivity]|].
    destruct IH as [IH1 IH2]; [intros x Hx; apply H; right; exact Hx|].
    cbn [List.map]. split; [constructor; [unfold shows; eauto | exact IH1]|].
    cbn [forallb]. rewrite IH2, andb_true_r.
    destruct (shown_without_LF_spec c (H c (or_introl eq_refl)))
      as (H1 & H2 & H3 & H4 & H5 & H6 & H7 & H8).
    unfold shows. cbn [forallb].
    rewrite H1, H3, H4, H6, !has_LF_text_or
      by (repeat apply has_LF_text_or; assumption || reflexivity).
    reflexivity. }
  split; [constructor; [eauto | exact R1]|].
  cbn [forallb]. apply andb_true_iff. split; [reflexivity | exact R2].
Qed.

Lemma rows_no_LF rows :
  forallb (forallb (fun cell => negb (has_LF cell))) rows = true ->
  Forall (fun l => ~ In LF l) (List.map row_line rows).
Proof.
  intros H. rewrite forallb_forall in H. apply List.Forall_forall.
  intros l Hl. apply in_map_iff in Hl as (r & <- & Hr).
  apply row_line_no_LF, H, Hr.
Qed.

(** The text of the report, when no shown field holds a newline: cut at its
    empty lines and split line by line, it gives the three blocks. *)
Lemma text_blocks_report cases :
  forallb shown_without_LF cases = true ->
  List.map (List.map splitCsvLine) (text_blocks (buildReportCsv cases))
  = [summary_block cases; abnormal_block cases; listing_block cases].
Proof.
  intros H. unfold buildReportCsv, text_blocks. rewrite report_rows_blocks.
  destruct (summary_block_rows cases) as [S1 S2].
  destruct (abnormal_block_rows cases H) as [A1 A2].
  destruct (listing_block_rows cases H) as [L1 L2].
  change (rows_to_csv ?rows) with (join [LF] (List.map row_line rows)).
  rewrite split_LF_join.
  - rewrite !map_app. cbn [List.map]. change (row_line []) with (@nil N).
    change ([[]] ++ ?x ++ [[]] ++ ?y) with ([] :: x ++ [] :: y).
    destruct (lines_of_rows _ S1) as [S3 S4].
    destruct (lines_of_rows _ A1) as [A3 A4].
    destruct (lines_of_rows _ L1) as [L3 L4].
    rewrite (group_blocks_app _ _ S3), (group_blocks_app _ _ A3),
      (group_blocks_lines _ L3).
    cbn [List.map]. rewrite S4, A4, L4. reflexivity.
  - destruct (summary_block cases); discriminate.
  - apply rows_no_LF. rewrite !forallb_app. cbn [forallb].
    rewrite S2, A2, L2. reflexivity.
Qed.

End ReportTextFacts.

(** Claim C4 as stated fails for the text of the report: a field with an
    empty line in it is written between quotes with its newlines, so that
    the text has blank lines that are not between blocks.  One failed case
    whose scenario holds two newlines in a row gives a text that falls
    into five blocks at its blank lines, not three. *)
Theorem buildReportCsv_field_with_blank_line :
  let cases := [Case.mk (js "TC-1") (js "login") (js "a" ++ [LF; LF] ++ js "b")
                        [] [] (js "ok") [] [] STATUS_FAILED [] []] in
  length (text_blocks (buildReportCsv cases)) = 5%nat /\
  List.map (List.map splitCsvLine) (text_blocks (buildReportCsv cases))
  <> [summary_block cases; abnormal_block cases; listing_block cases].
Proof. vm_compute. split; [reflexivity | discriminate]. Qed.

(** Claim C4, amended.  For every collection the rows that
    [buildReportCsv] serialises are three blocks in this order, with an
    empty row between them: the summary (nine rows under fixed labels: the
    total, the executed count, the counts of the passed, failed, blocked
    and skipped cases, the pass rate, the counts of the three priorities);
    the abnormal cases (the header of the section, then the failed cases
    followed by the blocked cases, each with its identifier, module,
    scenario, status and actual result or remark, or one row saying that
    there is none); and the listing (its header, then every given case in
    order).  The text is the three blocks serialised, with a blank line
    between them.  When no field of a case that the report shows holds a
    newline, the text cut at its blank lines falls into exactly three
    blocks, whose lines split back into the rows of the three blocks. *)
Theorem buildReportCsv_blocks (cases : list Case.t) :
  report_rows cases
  = summary_block cases ++ [[]] ++ abnormal_block cases ++ [[]]
    ++ listing_block cases /\
  buildReportCsv cases
  = rows_to_csv (summary_block cases) ++ [LF; LF]
    ++ rows_to_csv (abnormal_block cases) ++ [LF; LF]
    ++ rows_to_csv (listing_block cases) /\
  (forallb shown_without_LF cases = true ->
   List.map (List.map splitCsvLine) (text_blocks (buildReportCsv cases))
   = [summary_block cases; abnormal_block cases; listing_block cases]).
Proof.
  split; [apply report_rows_blocks|]. split; [|apply text_blocks_report].
  unfold buildReportCsv. rewrite report_rows_blocks.
  assert (summary_block cases <> []) as HS by (unfold summary_block; discriminate).
  assert (abnormal_block cases <> []) as HA by (unfold abnormal_block; discriminate).
  assert (listing_block cases <> []) as HL by (unfold listing_block; discriminate).
  rewrite rows_to_csv_app by (assumption || discriminate).
  change ([[]] ++ abnormal_block cases ++ [[]] ++ listing_block cases)
    with ([] :: (abnormal_block cases ++ [[]] ++ listing_block cases)).
  rewrite rows_to_csv_blank
    by (intros E; apply app_eq_nil in E; destruct E; contradiction).
  rewrite rows_to_csv_app by (assumption || discriminate).
  change ([[]] ++ listing_block cases) with ([] :: listing_block cases).
  rewrite rows_to_csv_blank by assumption.
  normalize_app. reflexivity.
Qed.

(** An instance: a failed, a blocked and a passed case. *)
Lemma buildReportCsv_blocks_witness :
  let cases := [Case.mk (js "TC-1") (js "login") (js "a, b") [] [] (js "ok")
                        PRIORITY_HIGH [] STATUS_BLOCKED [] [];
                Case.mk (js "TC-2") [] (js "pay") [] [] [] [] (js "later")
                        STATUS_FAILED (js "crash") [];
                Case.mk (js "TC-3") (js "login") [QUOTE] [] [] [] PRIORITY_LOW []
                        STATUS_PASSED [] []] in
  List.map (List.map splitCsvLine) (text_blocks (buildReportCsv cases))
  = [summary_block cases; abnormal_block cases; listing_block cases].
Proof.
  intros cases. apply (proj2 (proj2 (buildReportCsv_blocks cases))). reflexivity.
Defined.


(** ** The list of modules *)

Section ModuleFacts.

Lemma str_ltb_cons x a y b :
  str_ltb (x :: a) (y :: b) = true <-> (x < y \/ (x = y /\ str_ltb a b = true)).
Proof.
  cbn [str_ltb]. rewrite orb_true_iff, andb_true_iff, N.ltb_lt, N.eqb_eq. tauto.
Qed.

Lemma str_ltb_irrefl a : str_ltb a a = false.
Proof.
  induction a as [|x a IH]; [reflexivity|].
  apply not_true_is_false. rewrite str_ltb_cons. intros [H|[_ H]]; [lia | congruence].
Qed.

Lemma str_ltb_trans a : forall b c,
  str_ltb a b = true -> str_ltb b c = true -> str_ltb a c = true.
Proof.
  induction a as [|x a IH]; intros [|y b] [|z c]; try discriminate; try reflexivity.
  rewrite !str_ltb_cons. intros [H1|[-> H1]] [H2|[-> H2]].
  - left. lia.
  - left. exact H1.
  - left. exact H2.
  - right. split; [reflexivity | exact (IH b c H1 H2)].
Qed.

Lemma str_ltb_total a : forall b,
  str_ltb a b = false -> str_ltb b a = false -> a = b.
Proof.
  induction a as [|x a IH]; intros [|y b]; try discriminate; [reflexivity|].
  intros H1 H2. apply not_true_iff_false in H1, H2. rewrite str_ltb_cons in H1, H2.
  assert (x = y) as -> by lia. f_equal. apply IH; apply not_true_is_false; tauto.
Qed.

Lemma str_ltb_asym a b : str_ltb a b = true -> str_ltb b a = false.
Proof.
  intros H. apply not_true_is_false. intros H'.
  pose proof (str_ltb_trans a b a H H') as Ht. rewrite str_ltb_irrefl in Ht.
  discriminate Ht.
Qed.

Lemma str_le_trans a b c : str_le a b -> str_le b c -> str_le a c.
Proof.
  unfold str_le. intros H1 H2. apply not_true_is_false. intros H3.
  destruct (str_ltb a b) eqn:Hab.
  - rewrite (str_ltb_trans c a b H3 Hab) in H2. discriminate H2.
  - rewrite (str_ltb_total a b Hab H1) in H3. congruence.
Qed.

Lemma sort_insert_Permutation x l : sort_insert x l ≡ₚ x :: l.
Proof.
  induction l as [|y l IH]; [reflexivity|]. cbn [sort_insert].
  destruct (str_ltb y x); [|reflexivity].
  rewrite IH. apply perm_swap.
Qed.

Lemma sort_Permutation l : sort l ≡ₚ l.
Proof.
  induction l as [|x l IH]; [reflexivity|].
  cbn [sort fold_right]. rewrite sort_insert_Permutation. f_equiv. exact IH.
Qed.

Lemma sort_insert_sorted x l :
  StronglySorted str_le l -> StronglySorted str_le (sort_insert x l).
Proof.
  induction 1 as [|y l Hl IH Hy]; [repeat constructor|].
  cbn [sort_insert]. destruct (str_ltb y x) eqn:Hyx.
  - constructor; [exact IH|]. rewrite sort_insert_Permutation.
    constructor; [|exact Hy]. apply str_ltb_asym, Hyx.
  - constructor; [constructor; assumption|].
    constructor; [exact Hyx|].
    eapply Forall_impl; [exact Hy|]. intros z Hz.
    apply (str_le_trans x y z); [exact Hyx | exact Hz].
Qed.

Lemma sort_sorted l : StronglySorted str_le (sort l).
Proof.
  induction l as [|x l IH]; [constructor|]. apply sort_insert_sorted, IH.
Qed.

Lemma fold_add_distinct xs : forall acc,
  NoDup acc ->
  NoDup (fold_left add_distinct xs acc) /\
  (forall x, x ∈ fold_left add_distinct xs acc <-> x ∈ acc \/ x ∈ xs).
Proof.
  induction xs as [|y xs IH]; intros acc Hacc; cbn [fold_left].
  - split; [exact Hacc|]. intros x. rewrite elem_of_nil. tauto.
  - unfold add_distinct at 2 4. case_bool_decide as Hy.
    + destruct (IH acc Hacc) as [Hn Hm]. split; [exact Hn|].
      intros x. rewrite Hm, elem_of_cons. split; [tauto|].
      intros [H|[->|H]]; tauto.
    + assert (NoDup (acc ++ [y])) as Hacc'.
      { apply NoDup_app. repeat split; [exact Hacc| |apply NoDup_singleton].
        intros x Hx Hx'. apply list_elem_of_singleton in Hx'. subst x. exact (Hy Hx). }
      destruct (IH _ Hacc') as [Hn Hm]. split; [exact Hn|].
      intros x. rewrite Hm, elem_of_app, list_elem_of_singleton, elem_of_cons. tauto.
Qed.

Lemma distinct_spec xs :
  NoDup (distinct xs) /\ (forall x, x ∈ distinct xs <-> x ∈ xs).
Proof.
  destruct (fold_add_distinct xs [] (NoDup_nil_2)) as [Hn Hm].
  split; [exact Hn|]. intros x. unfold distinct.
  rewrite Hm, elem_of_nil. tauto.
Qed.

Lemma sorted_strict l :
  NoDup l -> StronglySorted str_le l -> StronglySorted str_lt l.
Proof.
  intros Hn Hs. induction Hs as [|x l Hl IH Hx]; [constructor|].
  apply NoDup_cons in Hn as [Hx' Hn]. constructor; [exact (IH Hn)|].
  apply List.Forall_forall. intros y Hy.
  rewrite List.Forall_forall in Hx. specialize (Hx y Hy).
  unfold str_lt. destruct (str_ltb x y) eqn:E; [reflexivity|].
  exfalso. apply Hx'. rewrite (str_ltb_total x y E Hx).
  apply list_elem_of_In, Hy.
Qed.

End ModuleFacts.

(** X11: the list of modules that [refreshLookups] builds is strictly
    increasing in the order of the code units (so it has no duplicates), it
    holds exactly the non-empty module names of the cases, and it is the
    only sorted arrangement of the distinct names: whatever procedure
    [sort] runs, this is its result. *)
Theorem refreshLookups_spec (cs : list Case.t) :
  let ms := refreshLookups cs in
  StronglySorted str_lt ms /\
  (forall m, In m ms <-> m <> [] /\ exists c, In c cs /\ Case.module c = m) /\
  (forall l, StronglySorted str_le l ->
             l ≡ₚ distinct (List.filter truthy (List.map Case.module cs)) ->
             l = ms).
Proof.
  cbn zeta. unfold refreshLookups.
  set (names := List.filter truthy (List.map Case.module cs)).
  destruct (distinct_spec names) as [Hn Hm].
  pose proof (sort_Permutation (distinct names)) as Hp.
  pose proof (sort_sorted (distinct names)) as Hs.
  split; [|split].
  - apply sorted_strict; [|exact Hs]. rewrite Hp. exact Hn.
  - intros m. rewrite <- list_elem_of_In, Hp, Hm, list_elem_of_In.
    unfold names. rewrite filter_In, in_map_iff. split.
    + intros [(c & <- & Hc) Ht]. split; [|eauto].
      intros E. rewrite E in Ht. discriminate Ht.
    + intros [Hne (c & Hc & <-)]. split; [eauto|].
      destruct (Case.module c); [congruence | reflexivity].
  - intros l Hl Hperm. apply (StronglySorted_unique_strong str_le); [|assumption..|].
    + intros x1 x2 _ _ H1 H2. symmetry. apply str_ltb_total; assumption.
    + rewrite Hperm, Hp. reflexivity.
Qed.

(** ** The store and the flags *)

Section StoreFacts.

Variable toLowerCase : list N -> list N.

Lemma init_cases store :
  cases (app (init store))
  = cases (app (restoreFromLocal (mk_world initial_state store))) /\
  sourceFile (app (init store))
  = sourceFile (app (restoreFromLocal (mk_world initial_state store))).
Proof.
  unfold init.
  destruct (cases (app (restoreFromLocal (mk_world initial_state store)))) eqn:E;
    cbn [app cases sourceFile set_message]; rewrite ?E; split; reflexivity.
Qed.

(** What [restoreFromLocal] reads does not depend on the state it starts
    from: either it takes the collection and the file name from the store,
    or it leaves the state as it is. *)
Lemma restoreFromLocal_cases st st' store :
  let r := restoreFromLocal (mk_world st store) in
  let r' := restoreFromLocal (mk_world st' store) in
  (cases (app r) = cases (app r') /\ sourceFile (app r) = sourceFile (app r')) \/
  (app r = st /\ app r' = st').
Proof.
  unfold restoreFromLocal. cbn [localStorage app].
  destruct store as [[raw|[| |cs sf ls]]|]; cbn; auto.
Qed.

Lemma restoreFromLocal_store w : localStorage (restoreFromLocal w) = localStorage w.
Proof.
  unfold restoreFromLocal. destruct w as [st store]. cbn [localStorage].
  destruct store; reflexivity.
Qed.

Lemma persist_reload_safe w now : reload_safe (persist w now).
Proof.
  unfold reload_safe, reload. cbn [persist localStorage app cases sourceFile].
  destruct (init_cases (Some (Json (JSnapshot (Some (cases (app w)))
                                    (Some (sourceFile (app w))) (Some now)))))
    as [-> ->].
  cbn. unfold or_else. destruct (sourceFile (app w)); split; reflexivity.
Qed.

Lemma restoreFromLocal_reload_safe w :
  reload_safe w -> reload_safe (restoreFromLocal w).
Proof.
  unfold reload_safe, reload. rewrite restoreFromLocal_store.
  destruct w as [st store]. cbn [localStorage app]. intros [Hc Hs].
  destruct (init_cases store) as [Ec Es]. rewrite Ec, Es in *.
  destruct (restoreFromLocal_cases st initial_state store) as [[H1 H2]|[H1 H2]].
  - split; symmetry; assumption.
  - rewrite H1. rewrite H2 in *. split; assumption.
Qed.

Lemma init_reload_safe store : reload_safe (init store).
Proof.
  unfold reload_safe, reload.
  assert (localStorage (init store) = store) as ->; [|split; reflexivity].
  unfold init.
  destruct (cases (app (restoreFromLocal (mk_world initial_state store))));
    cbn [localStorage]; apply (restoreFromLocal_store (mk_world initial_state store)).
Qed.

Lemma step_reload_safe w o now :
  keeps_store o -> reload_safe w -> reload_safe (step toLowerCase w (o, now)).
Proof.
  intros Ho Hw. destruct o; cbn [step].
  - unfold applyRows. destruct rows; [exact Hw | apply persist_reload_safe].
  - unfold applyCsv, applyRows.
    destruct (parseCsv text); [exact Hw | apply persist_reload_safe].
  - unfold setStatus. destruct (cases (app w) !! i); [|exact Hw].
    apply persist_reload_safe.
  - apply persist_reload_safe.
  - apply persist_reload_safe.
  - apply restoreFromLocal_reload_safe, Hw.
  - destruct Ho.
Qed.

Lemma persist_dirty w now : dirty (app (persist w now)) = false.
Proof. reflexivity. Qed.

Lemma restoreFromLocal_dirty w :
  dirty (app (restoreFromLocal w)) = dirty (app w).
Proof.
  unfold restoreFromLocal. destruct w as [st store]. cbn [localStorage app].
  destruct store as [[raw|[| |cs sf ls]]|]; reflexivity.
Qed.

Lemma step_dirty w o now :
  dirty (app w) = false -> dirty (app (step toLowerCase w (o, now))) = false.
Proof.
  intros Hw. destruct o; cbn [step].
  - unfold applyRows. destruct rows; [exact Hw | reflexivity].
  - unfold applyCsv, applyRows. destruct (parseCsv text); [exact Hw | reflexivity].
  - unfold setStatus. destruct (cases (app w) !! i); [reflexivity | exact Hw].
  - reflexivity.
  - reflexivity.
  - rewrite restoreFromLocal_dirty. exact Hw.
  - exact Hw.
Qed.

Lemma init_dirty store : dirty (app (init store)) = false.
Proof.
  unfold init.
  pose proof (restoreFromLocal_dirty (mk_world initial_state store)) as H.
  destruct (cases (app (restoreFromLocal (mk_world initial_state store))));
    exact H.
Qed.

End StoreFacts.

(** X12: nothing is lost on a reload.  From the start of the page, after
    any sequence of imports, status edits, saves and restores (the store
    not being cleared), the collection and the file name in memory are the
    ones that [init] reads back from the store. *)
Theorem run_reload_safe (toLowerCase : jsstring -> jsstring)
    (store : option blob) (ops : list (operation * clock)) :
  Forall (fun o => keeps_store (fst o)) ops ->
  reload_safe (run toLowerCase (init store) ops).
Proof.
  unfold run. generalize (init_reload_safe store). generalize (init store).
  induction ops as [|[o now] ops IH]; intros w Hw Hops; [exact Hw|].
  apply Forall_cons in Hops. destruct Hops as [Ho Hops].
  cbn [fold_left]. apply IH; [|exact Hops].
  apply step_reload_safe; assumption.
Qed.

Lemma run_reload_safe_witness :
  reload_safe
    (run (fun s => s) (init (Some (Malformed (js "{"))))
       [(ImportCsv (js "TC-1,login" ++ [LF] ++ js "TC-2,pay") (js "cases.csv"),
         ticks (js "t0-"));
        (SetStatus 0 STATUS_PASSED, ticks (js "t1-"));
        (Restore, ticks (js "t2-"));
        (SetAllStatus STATUS_BLOCKED, ticks (js "t3-"))]).
Proof.
  apply run_reload_safe. repeat constructor.
Defined.

(** X13: the [dirty] flag is never left set.  [markDirty] sets it and
    calls [persist], which clears it, so that after every operation of a
    run from the start of the page the flag is [false]. *)
Theorem run_never_dirty (toLowerCase : jsstring -> jsstring)
    (store : option blob) (ops : list (operation * clock)) :
  dirty (app (run toLowerCase (init store) ops)) = false.
Proof.
  unfold run. generalize (init_dirty store). generalize (init store).
  induction ops as [|[o now] ops IH]; intros w Hw; [exact Hw|].
  cbn [fold_left]. apply IH, step_dirty, Hw.
Qed.

(** X14: the first row of an import is taken as the header, and left out,
    exactly when its first cell contains the marker text, whatever else the
    row holds; the other rows become the cases, in their order.  A file
    that holds such a row and nothing else is therefore not an empty file:
    the collection is replaced by the empty one, which is written to the
    store. *)
Theorem applyRows_header_row (w : world) (first : jsstring)
    (rest : list jsstring) (rows : list (list jsstring))
    (filename now : jsstring) :
  let w' := applyRows w ((first :: rest) :: rows) filename now in
  cases (app w')
  = List.map (reconcile (savedMap (cases (app w))))
             (if includes first HEADER_MARKER then rows
              else (first :: rest) :: rows) /\
  localStorage w'
  = Some (Json (JSnapshot (Some (cases (app w'))) (Some filename) (Some now))).
Proof.
  cbn zeta. rewrite applyRows_cases by discriminate.
  split; [|reflexivity]. unfold startIndex. cbn [lookup list_lookup].
  destruct (includes first HEADER_MARKER) eqn:Hm.
  - assert (truthy first = true) as ->
      by (destruct first; [discriminate Hm | reflexivity]).
    reflexivity.
  - rewrite andb_false_r. reflexivity.
Qed.

(** ** The filtered view and the status edits *)

Section ViewFacts.

Variable toLowerCase : list N -> list N.

Hypothesis toLowerCase_empty : toLowerCase [] = [].

Lemma filter_all {A} (f : A -> bool) l :
  (forall x, f x = true) -> List.filter f l = l.
Proof.
  intros H. induction l as [|x l IH]; [reflexivity|].
  cbn [List.filter]. rewrite H, IH. reflexivity.
Qed.

Lemma filter_none {A} (f : A -> bool) l :
  (forall x, In x l -> f x = false) -> List.filter f l = [].
Proof.
  intros H. induction l as [|x l IH]; [reflexivity|].
  cbn [List.filter]. rewrite (H x) by (left; reflexivity).
  apply IH. intros y Hy. apply H. right. exact Hy.
Qed.

Lemma visible_initial item : visible toLowerCase initial_filters item = true.
Proof using toLowerCase_empty.
  unfold visible, initial_filters.
  cbn [search filter_module filter_priority filter_status onlyChanged onlyFailed
       truthy andb].
  change (trim []) with (@nil N). rewrite toLowerCase_empty. reflexivity.
Qed.

Lemma visible_priority_only p item :
  p <> [] ->
  visible toLowerCase (mk_filters [] [] p [] false false) item = has_priority p item.
Proof using toLowerCase_empty.
  intros Hp. unfold visible, has_priority.
  cbn [search filter_module filter_priority filter_status onlyChanged onlyFailed
       andb].
  change (trim []) with (@nil N). rewrite toLowerCase_empty.
  destruct p; [congruence|]. cbn [truthy andb].
  destruct (JsString.eqb (Case.priority item) (n :: p)); reflexivity.
Qed.

Lemma visible_status_only s item :
  s <> [] ->
  visible toLowerCase (mk_filters [] [] [] s false false) item = has_status s item.
Proof using toLowerCase_empty.
  intros Hs. unfold visible, has_status.
  cbn [search filter_module filter_priority filter_status onlyChanged onlyFailed
       andb].
  change (trim []) with (@nil N). rewrite toLowerCase_empty.
  destruct s; [congruence|]. cbn [truthy andb].
  destruct (JsString.eqb (Case.status item) (n :: s)); reflexivity.
Qed.

End ViewFacts.

Section EditFacts.

Variable toLowerCase : list N -> list N.

(** A status filter hides every case with another status. *)
Lemma visible_status f item :
  filter_status f <> [] -> Case.status item <> filter_status f ->
  visible toLowerCase f item = false.
Proof.
  intros Hf Hs. unfold visible.
  destruct (truthy (filter_module f)
            && negb (JsString.eqb (Case.module item) (filter_module f)));
    [reflexivity|].
  destruct (truthy (filter_priority f)
            && negb (JsString.eqb (Case.priority item) (filter_priority f)));
    [reflexivity|].
  assert (truthy (filter_status f) = true) as ->
    by (destruct (filter_status f); [congruence | reflexivity]).
  unfold JsString.eqb. rewrite (bool_decide_eq_false_2 _ Hs). reflexivity.
Qed.



Lemma stamp_shown_all (shown : Case.t -> bool) status now cs : forall k,
  (forall item, shown item = true) ->
  stamp_shown shown status now k cs
  = imap (fun j item => Case.with_status item status (now (k + j)%nat)) cs.
Proof.
  intros k H. revert k. induction cs as [|x cs IH]; intros k; [reflexivity|].
  cbn [stamp_shown]. rewrite H, imap_cons, Nat.add_0_r. f_equal.
  rewrite IH. apply imap_ext. intros j item _. cbn.
  rewrite Nat.add_succ_r. reflexivity.
Qed.

End EditFacts.

(** X15: after [resetFilters] the filtered view is the whole collection,
    in its order; after a following [quickFilter] it is the cases of high
    priority, the failed cases or the blocked cases, as asked for.
    ([toLowerCase] maps the empty string to itself.) *)
Theorem quickFilter_view (toLowerCase : jsstring -> jsstring) (st : state) :
  toLowerCase [] = [] ->
  filteredCases toLowerCase (resetFilters st) = cases st /\
  filteredCases toLowerCase (quickFilter (resetFilters st) PRIORITY_HIGH)
  = List.filter (has_priority PRIORITY_HIGH) (cases st) /\
  filteredCases toLowerCase (quickFilter (resetFilters st) STATUS_FAILED)
  = List.filter (has_status STATUS_FAILED) (cases st) /\
  filteredCases toLowerCase (quickFilter (resetFilters st) STATUS_BLOCKED)
  = List.filter (has_status STATUS_BLOCKED) (cases st).
Proof.
  intros H0. unfold filteredCases. repeat split.
  - apply filter_all. intros item. apply (visible_initial toLowerCase H0).
  - apply filter_ext. intros item.
    apply (visible_priority_only toLowerCase H0 PRIORITY_HIGH). discriminate.
  - apply filter_ext. intros item.
    apply (visible_status_only toLowerCase H0 STATUS_FAILED). discriminate.
  - apply filter_ext. intros item.
    apply (visible_status_only toLowerCase H0 STATUS_BLOCKED). discriminate.
Qed.

Lemma quickFilter_view_witness :
  let st := mk_state [case_with (js "T1") STATUS_FAILED [] [];
                      case_with (js "T2") STATUS_PASSED [] []]
                     (mk_filters (js "x") (js "m") [] STATUS_PASSED true true)
                     [] [] None false in
  filteredCases (fun s => s) (resetFilters st) = cases st /\
  filteredCases (fun s => s) (quickFilter (resetFilters st) PRIORITY_HIGH)
  = List.filter (has_priority PRIORITY_HIGH) (cases st) /\
  filteredCases (fun s => s) (quickFilter (resetFilters st) STATUS_FAILED)
  = List.filter (has_status STATUS_FAILED) (cases st) /\
  filteredCases (fun s => s) (quickFilter (resetFilters st) STATUS_BLOCKED)
  = List.filter (has_status STATUS_BLOCKED) (cases st).
Proof. intros st. apply quickFilter_view. reflexivity. Defined.

(** X16: a bulk edit under a status filter empties the view.  When the
    view is filtered by a status and [setAllStatus] sets another one, no
    case is shown afterwards. *)
Theorem setAllStatus_empties_view (toLowerCase : jsstring -> jsstring)
    (w : world) (status : jsstring) (now : clock) :
  filter_status (current_filters (app w)) <> [] ->
  status <> filter_status (current_filters (app w)) ->
  filteredCases toLowerCase (app (setAllStatus toLowerCase w status now)) = [].
Proof.
  intros Hf Hs. unfold setAllStatus, filteredCases.
  cbn [markDirty persist app set_dirty set_cases cases current_filters localStorage].
  apply filter_none. intros c Hc.
  apply stamp_shown_In in Hc as [[_ Hv]|(item & j & _ & _ & ->)]; [exact Hv|].
  apply visible_status; [exact Hf|]. destruct item. exact Hs.
Qed.

Lemma setAllStatus_empties_view_witness :
  let w := mk_world
             (mk_state [case_with (js "T1") STATUS_FAILED [] [];
                        case_with (js "T2") STATUS_PASSED [] []]
                       (mk_filters [] [] [] STATUS_FAILED false false)
                       [] [] None false) None in
  filteredCases (fun s => s)
    (app (setAllStatus (fun s => s) w STATUS_PASSED (ticks (js "t")))) = [].
Proof. intros w. apply setAllStatus_empties_view; discriminate. Defined.





(** ** The plain export read back *)

Section ExportFacts.

Variable format_date : list N -> option (list N).

(** The row of a case, when it is written: the time column apart, it holds
    the fields of the case. *)
Lemma export_row_Ok c row :
  export_row format_date c = Ok row ->
  exists time,
    row = [ Case.id c; Case.module c; Case.scenario c; Case.precondition c;
            join [LF] (Case.steps c); Case.expected c; Case.priority c;
            Case.remark c; Case.status c; Case.actual c; time ].
Proof.
  unfold export_row.
  destruct (if truthy (Case.updatedAt c)
            then formatDateTime format_date (Case.updatedAt c) else Ok [])
    as [time|e]; cbn [bind]; [|discriminate].
  intros [= <-]. exists time. reflexivity.
Qed.

Lemma reimportable_spec c :
  reimportable format_date c = true ->
  exists row,
    export_row format_date c = Ok row /\ readable_row row = true /\
    normalizeSteps (join [LF] (Case.steps c)) = Case.steps c.
Proof.
  unfold reimportable. destruct (export_row format_date c) as [row|e];
    [|discriminate].
  rewrite !andb_true_iff, negb_true_iff. intros [[H1 H2] H3].
  exists row. repeat split; [exact H1|]. apply normalizeSteps_joined; assumption.
Qed.

(** The steps cell of a readable row holds no newline, so that the case
    has one step at most. *)
Lemma reimportable_steps c :
  reimportable format_date c = true -> (length (Case.steps c) <= 1)%nat.
Proof.
  intros H. apply reimportable_spec in H as (row & Hrow & H & _).
  apply export_row_Ok in Hrow as [time ->].
  unfold readable_row in H. rewrite !andb_true_iff in H.
  destruct H as [[_ H] _]. rewrite forallb_forall in H.
  specialize (H (join [LF] (Case.steps c))).
  rewrite negb_true_iff in H.
  assert (has_LF (join [LF] (Case.steps c)) = false) as Hn.
  { apply H. cbn [In]. tauto. }
  destruct (Case.steps c) as [|s [|s' steps]]; cbn [length]; [lia | lia|].
  exfalso. apply has_LF_false in Hn. apply Hn.
  rewrite join_cons2. apply in_or_app. right. left. reflexivity.
Qed.

(** The rows of cases that can be exported are all written. *)
Lemma map_result_export_row cs :
  forallb (reimportable format_date) cs = true ->
  exists rows,
    map_result (export_row format_date) cs = Ok rows /\
    Forall2 (fun c row => export_row format_date c = Ok row) cs rows /\
    forallb readable_row rows = true.
Proof.
  induction cs as [|c cs IH]; cbn [forallb map_result].
  - intros _. exists []. repeat split. constructor.
  - intros H. apply andb_true_iff in H as [Hc Hcs].
    destruct (IH Hcs) as (rows & -> & Hrows & Hread).
    destruct (reimportable_spec c Hc) as (row & Hrow & Hr & _).
    rewrite Hrow. cbn [bind]. exists (row :: rows). repeat split.
    + constructor; assumption.
    + cbn [forallb]. rewrite Hr, Hread. reflexivity.
Qed.

Lemma startIndex_export rows : startIndex (export_header :: rows) = 1%nat.
Proof. reflexivity. Qed.

Lemma reconcile_export_row m c row :
  export_row format_date c = Ok row ->
  normalizeSteps (join [LF] (Case.steps c)) = Case.steps c ->
  same_description c (reconcile m row).
Proof.
  intros Hrow Hs. apply export_row_Ok in Hrow as [time ->].
  unfold same_description, reconcile, cell.
  cbn [lookup list_lookup default Case.id Case.module Case.scenario
       Case.precondition Case.steps Case.expected Case.priority Case.remark].
  change (@Datatypes.id (list N) ?x) with x.
  rewrite !or_else_nil, Hs. repeat split; reflexivity.
Qed.

Lemma reconcile_export_row_same m c row :
  export_row format_date c = Ok row ->
  normalizeSteps (join [LF] (Case.steps c)) = Case.steps c ->
  m !! Case.id c = Some c -> Case.status c <> [] ->
  reconcile m row = c.
Proof.
  intros Hrow Hs Hm Hst. apply export_row_Ok in Hrow as [time ->].
  unfold reconcile, cell.
  cbn [lookup list_lookup default]. change (@Datatypes.id (list N) ?x) with x.
  rewrite !or_else_nil, Hs, Hm.
  cbn [saved_field]. rewrite or_else_nonempty by exact Hst.
  rewrite !or_else_nil. destruct c. reflexivity.
Qed.

(** The export of such cases returns a text, and importing the text gives
    the rows of the cases, reconciled. *)
Lemma applyCsv_casesToCsv w cs filename now :
  forallb (reimportable format_date) cs = true ->
  exists text rows,
    casesToCsv format_date cs = Ok text /\
    Forall2 (fun c row => export_row format_date c = Ok row) cs rows /\
    cases (app (applyCsv w text filename now))
    = List.map (reconcile (savedMap (cases (app w)))) rows.
Proof.
  intros H. destruct (map_result_export_row cs H) as (rows & Hmap & Hrows & Hread).
  exists (rows_to_csv (export_header :: rows)), rows.
  split; [unfold casesToCsv; rewrite Hmap; reflexivity|].
  split; [exact Hrows|].
  unfold applyCsv. rewrite parseCsv_readable_rows.
  - rewrite applyRows_cases by discriminate. rewrite startIndex_export. reflexivity.
  - cbn [forallb]. rewrite Hread. reflexivity.
Qed.

(** The export throws exactly when a time stamp cannot be formatted. *)
Lemma casesToCsv_Throw cs :
  (exists e, casesToCsv format_date cs = Throw e) <->
  exists c, In c cs /\ Case.updatedAt c <> [] /\
            format_date (Case.updatedAt c) = None.
Proof.
  unfold casesToCsv.
  assert (forall c,
            (exists e, export_row format_date c = Throw e) <->
            Case.updatedAt c <> [] /\ format_date (Case.updatedAt c) = None)
    as Hrow.
  { intros c. unfold export_row, formatDateTime.
    destruct (Case.updatedAt c) as [|x t]; cbn [truthy bind].
    - split; [intros [e He]; discriminate He | intros [H _]; congruence].
    - destruct (format_date (x :: t)); cbn [bind].
      + split; [intros [e He]; discriminate He | intros [_ H]; discriminate H].
      + split; [intros _; split; [discriminate | reflexivity] | eauto]. }
  induction cs as [|c cs IH]; cbn [map_result bind].
  - split; [intros [e He]; discriminate He | intros (c & [] & _)].
  - destruct (export_row format_date c) as [row|e] eqn:Hc; cbn [bind].
    + destruct (map_result (export_row format_date) cs) as [rows|e'];
        cbn [bind] in *.
      * split; [intros [e He]; discriminate He|].
        intros (c' & [<-|Hin] & Hc').
        -- apply Hrow in Hc'. destruct Hc' as [e He]. congruence.
        -- destruct (proj2 IH) as [e He]; [eauto | discriminate He].
      * split; [|eauto]. intros _.
        destruct (proj1 IH) as (c' & Hin & Hc'); [eauto|].
        exists c'. split; [right; exact Hin | exact Hc'].
    + split; [|eauto]. intros _. exists c. split; [left; reflexivity|].
      apply Hrow. eauto.
Qed.

End ExportFacts.

Section RateFacts.

Local Open Scope Z_scope.

Lemma pass_rate_none total :
  0 < total < 2 ^ 53 -> pass_rate 0 total = Some 0.
Proof.
  intros Ht. unfold pass_rate, JsNumber.Math_round.
  rewrite FloatAxioms.mul_spec, FloatAxioms.div_spec.
  rewrite (Prim2SF_of_Z 0), (Prim2SF_of_Z total) by lia.
  rewrite (Prim2SF_of_Z 100) by (split; [lia | reflexivity]).
  unfold SF64mul, SF64div, prec, emax.
  destruct (binary_normalize_int total Ht) as (m & -> & _).
  reflexivity.
Qed.

Lemma pass_rate_all total :
  0 < total < 2 ^ 53 -> pass_rate total total = Some 100.
Proof.
  intros Ht. unfold pass_rate, JsNumber.Math_round.
  rewrite FloatAxioms.mul_spec, FloatAxioms.div_spec.
  rewrite (Prim2SF_of_Z total) by lia.
  rewrite (Prim2SF_of_Z 100) by (split; [lia | reflexivity]).
  unfold SF64mul, SF64div, prec, emax.
  rewrite SFdiv_int_same by exact Ht. vm_compute. reflexivity.
Qed.

End RateFacts.

(** X19: at the two ends the pass rate is exact, in the binary64
    arithmetic of the source: it is 0 when no case has passed and 100 when
    every case has passed. *)
Theorem summarize_passRate_ends (cases : list Case.t) :
  (0 < Z.of_nat (length cases) < 2 ^ 53)%Z ->
  let passed := length (List.filter (has_status STATUS_PASSED) cases) in
  (passed = 0%nat -> Summary.passRate (summarize cases) = Some 0%Z) /\
  (passed = length cases -> Summary.passRate (summarize cases) = Some 100%Z).
Proof.
  intros Hlen passed. subst passed.
  rewrite summarize_passRate, summarize_total.
  destruct (Z.eqb_spec (Z.of_nat (length cases)) 0) as [|_]; [lia|].
  rewrite summarize_count by (right; left; reflexivity).
  split; intros ->.
  - apply pass_rate_none, Hlen.
  - apply pass_rate_all, Hlen.
Qed.

Lemma summarize_passRate_ends_witness :
  let cases := List.map (fun status => case_with [] status [] [])
                 [STATUS_PASSED; STATUS_PASSED; STATUS_PASSED] in
  Summary.passRate (summarize cases) = Some 100%Z.
Proof.
  intros cases.
  apply (proj2 (summarize_passRate_ends cases ltac:(vm_compute; split; reflexivity))).
  reflexivity.
Defined.

(** X20: the plain export read back.  When every case can be exported and
    read back (a time stamp, if present, that can be formatted; a row
    readable line by line: no newline in a field, hence one step at most,
    and no white space at the ends of the line; steps that are normalised
    and without a match of the marker), [casesToCsv] returns a text, and
    importing that text gives, case by case and in the same order, the same
    identifier, module, scenario, precondition, steps, expected result,
    priority and remark, whatever the session held before.  Without the
    first condition there is no text: the export throws exactly when some
    case has a time stamp that cannot be formatted. *)
Theorem casesToCsv_roundtrip (format_date : jsstring -> option jsstring)
    (w : world) (cs : list Case.t) (filename now : jsstring) :
  ((exists e, casesToCsv format_date cs = Throw e) <->
   exists c, In c cs /\ Case.updatedAt c <> [] /\
             format_date (Case.updatedAt c) = None) /\
  (forallb (reimportable format_date) cs = true ->
   exists text,
     casesToCsv format_date cs = Ok text /\
     Forall2 same_description cs (cases (app (applyCsv w text filename now)))).
Proof.
  split; [apply casesToCsv_Throw|]. intros H.
  destruct (applyCsv_casesToCsv format_date w cs filename now H)
    as (text & rows & Htext & Hrows & Heq).
  exists text. split; [exact Htext|]. rewrite Heq. clear Heq Htext.
  rewrite forallb_forall in H. generalize (savedMap (cases (app w))) as m. intros m.
  induction Hrows as [|c row cs rows Hrow _ IH]; [constructor|].
  cbn [List.map]. constructor.
  - apply (reconcile_export_row format_date m c row Hrow).
    destruct (reimportable_spec format_date c (H c (or_introl eq_refl)))
      as (_ & _ & _ & Hs). exact Hs.
  - apply IH. intros x Hx. apply H. right. exact Hx.
Qed.

Lemma casesToCsv_roundtrip_witness :
  let format_date := fun s => if JsString.eqb s (js "2024-01-02T03:04:05.000Z")
                              then Some (js "2024/01/02 03:04") else None in
  let cs := [Case.mk (js "TC-1") (js "login") (js "a, b") (js "none")
                     [js "open the page"] (js "ok") PRIORITY_HIGH []
                     STATUS_PASSED (js "fine") (js "2024-01-02T03:04:05.000Z");
             Case.mk (js "TC-2") [] [QUOTE] [] [] [] [] [] STATUS_NOT_RUN [] []] in
  exists text,
    casesToCsv format_date cs = Ok text /\
    Forall2 same_description cs
      (cases (app (applyCsv (init None) text (js "f.csv") (js "t")))).
Proof.
  intros format_date cs.
  apply (proj2 (casesToCsv_roundtrip format_date (init None) cs (js "f.csv") (js "t"))).
  reflexivity.
Defined.

(** X21: exporting the collection and importing the text again in the
    same session changes no case, when every case can be exported and read
    back as for the round trip above, the identifiers are pairwise distinct
    and no status is the empty string: [casesToCsv] returns a text, and
    after the import of that text the collection is as it was. *)
Theorem casesToCsv_reimport (format_date : jsstring -> option jsstring)
    (w : world) (filename now : jsstring) :
  forallb (reimportable format_date) (cases (app w)) = true ->
  NoDup (List.map Case.id (cases (app w))) ->
  Forall (fun c => Case.status c <> []) (cases (app w)) ->
  exists text,
    casesToCsv format_date (cases (app w)) = Ok text /\
    cases (app (applyCsv w text filename now)) = cases (app w).
Proof.
  intros H Hnd Hst.
  destruct (applyCsv_casesToCsv format_date w _ filename now H)
    as (text & rows & Htext & Hrows & Heq).
  exists text. split; [exact Htext|]. rewrite Heq. clear Heq.
  rewrite forallb_forall in H. rewrite List.Forall_forall in Hst.
  assert (forall c row, In c (cases (app w)) ->
            export_row format_date c = Ok row ->
            reconcile (savedMap (cases (app w))) row = c)
    as Hall.
  { intros c row Hc Hrow. apply (reconcile_export_row_same format_date _ c row Hrow).
    - destruct (reimportable_spec format_date c (H c Hc)) as (_ & _ & _ & Hs).
      exact Hs.
    - rewrite savedMap_lookup. apply prior_NoDup; assumption.
    - apply Hst, Hc. }
  clear H Hnd Hst Htext. revert Hall.
  generalize (savedMap (cases (app w))) as m. intros m.
  induction Hrows as [|c row cs rows Hrow _ IH]; intros Hall; [reflexivity|].
  cbn [List.map]. rewrite (Hall c row (or_introl eq_refl) Hrow). f_equal.
  apply IH. intros x r Hx Hr. apply Hall; [right; exact Hx | exact Hr].
Qed.

Lemma casesToCsv_reimport_witness :
  let format_date := fun s => if JsString.eqb s (js "2024-01-02T03:04:05.000Z")
                              then Some (js "2024/01/02 03:04") else None in
  let cs := [Case.mk (js "TC-1") (js "login") (js "a, b") (js "none")
                     [js "open the page"] (js "ok") PRIORITY_HIGH []
                     STATUS_PASSED (js "fine") (js "2024-01-02T03:04:05.000Z");
             Case.mk (js "TC-2") [] [QUOTE] [] [] [] [] [] STATUS_NOT_RUN [] []] in
  let w := mk_world (mk_state cs initial_filters (js "f.csv") [] None false) None in
  exists text,
    casesToCsv format_date cs = Ok text /\
    cases (app (applyCsv w text (js "f.csv") (js "t"))) = cs.
Proof.
  intros format_date cs w. apply (casesToCsv_reimport format_date w).
  - reflexivity.
  - apply (bool_decide_unpack _). vm_compute. exact I.
  - repeat constructor; discriminate.
Defined.

(** ** Edits and the summary *)

Section EditSummaryFacts.

Local Open Scope Z_scope.

Lemma filter_length_insert {A} (f : A -> bool) (l : list A) : forall i x y,
  l !! i = Some x ->
  Z.of_nat (length (List.filter f (<[i := y]> l)))
  = Z.of_nat (length (List.filter f l))
    - (if f x then 1 else 0) + (if f y then 1 else 0).
Proof.
  induction l as [|z l IH]; intros [|i] x y Hi; try discriminate Hi.
  - injection Hi as ->. change (<[0%nat := y]> (x :: l)) with (y :: l).
    rewrite !filter_length_cons. lia.
  - change (<[S i := y]> (z :: l)) with (z :: <[i := y]> l).
    rewrite !filter_length_cons. specialize (IH i x y Hi). lia.
Qed.

Lemma filter_all_In {A} (f : A -> bool) l :
  (forall x, In x l -> f x = true) -> List.filter f l = l.
Proof.
  intros H. induction l as [|x l IH]; [reflexivity|].
  cbn [List.filter]. rewrite (H x) by (left; reflexivity). f_equal.
  apply IH. intros y Hy. apply H. right. exact Hy.
Qed.

Lemma length_stamp_shown shown status now cs : forall k,
  length (stamp_shown shown status now k cs) = length cs.
Proof.
  induction cs as [|x cs IH]; intros k; [reflexivity|].
  cbn [stamp_shown]. destruct (shown x); cbn [length]; rewrite IH; reflexivity.
Qed.

(** When every case is shown, every case has the new status afterwards. *)
Lemma stamp_shown_status shown status now cs k c :
  (forall item, shown item = true) ->
  In c (stamp_shown shown status now k cs) -> Case.status c = status.
Proof.
  intros Hall Hc.
  apply stamp_shown_In in Hc as [[_ Hv]|(item & j & _ & _ & ->)].
  - rewrite Hall in Hv. discriminate Hv.
  - reflexivity.
Qed.

End EditSummaryFacts.

(** X22: a search text of white space only does not filter: the view is
    the one with the search text cleared. *)
Theorem filteredCases_blank_search (toLowerCase : jsstring -> jsstring)
    (st : state) :
  let f := current_filters st in
  forallb is_ws (search f) = true ->
  filteredCases toLowerCase st
  = filteredCases toLowerCase
      (set_filters st (mk_filters [] (filter_module f) (filter_priority f)
                                  (filter_status f) (onlyChanged f) (onlyFailed f))).
Proof.
  intros f H. unfold filteredCases. cbn [set_filters current_filters cases].
  apply filter_ext. intros item. unfold visible.
  cbn [search filter_module filter_priority filter_status onlyChanged onlyFailed].
  fold f. rewrite (trim_ws _ H). reflexivity.
Qed.

Lemma filteredCases_blank_search_witness :
  let st := mk_state [case_with (js "T1") STATUS_FAILED [] [];
                      case_with (js "T2") STATUS_PASSED [] []]
                     (mk_filters (js "   ") [] [] STATUS_PASSED false false)
                     [] [] None false in
  filteredCases (fun s => s) st
  = filteredCases (fun s => s)
      (set_filters st (mk_filters [] [] [] STATUS_PASSED false false)).
Proof. intros st. apply (filteredCases_blank_search (fun s => s) st). reflexivity. Defined.

(** X23: marking every case as passed gives a pass rate of 100.  With the
    filters reset, [setAllStatus] with the passed status edits the whole
    collection, after which [summarize] counts every case as executed and
    computes the pass rate 100. *)
Theorem setAllStatus_passed_rate (toLowerCase : jsstring -> jsstring)
    (w : world) (now : clock) :
  toLowerCase [] = [] ->
  current_filters (app w) = initial_filters ->
  (0 < Z.of_nat (length (cases (app w))) < 2 ^ 53)%Z ->
  let s := summarize (cases (app (setAllStatus toLowerCase w STATUS_PASSED now))) in
  Summary.passRate s = Some 100%Z /\ Summary.executed s = Summary.total s.
Proof.
  intros H0 Hf Hlen. unfold setAllStatus.
  cbn [markDirty persist app set_dirty set_cases cases current_filters localStorage].
  rewrite Hf.
  pose proof (fun c => stamp_shown_status (visible toLowerCase initial_filters)
                         STATUS_PASSED now (cases (app w)) 0 c
                         (visible_initial toLowerCase H0)) as Hall.
  cbn zeta. rewrite summarize_passRate, summarize_executed, summarize_total.
  rewrite !summarize_count by (unfold STATUS_OPTIONS; cbn [In]; tauto).
  rewrite (filter_all_In (has_status STATUS_PASSED)).
  - rewrite (filter_none (has_status STATUS_NOT_RUN)).
    + rewrite length_stamp_shown.
      destruct (Z.eqb_spec (Z.of_nat (length (cases (app w)))) 0) as [|_]; [lia|].
      split; [apply pass_rate_all, Hlen | cbn [length]; lia].
    + intros c Hc. unfold has_status. rewrite (Hall c Hc). reflexivity.
  - intros c Hc. unfold has_status. rewrite (Hall c Hc). reflexivity.
Qed.

Lemma setAllStatus_passed_rate_witness :
  let w := mk_world
             (mk_state [case_with (js "T1") STATUS_FAILED [] [];
                        case_with (js "T2") STATUS_NOT_RUN [] []]
                       initial_filters [] [] None false) None in
  let s := summarize (cases (app (setAllStatus (fun s => s) w STATUS_PASSED
                                                (ticks (js "t"))))) in
  Summary.passRate s = Some 100%Z /\ Summary.executed s = Summary.total s.
Proof.
  intros w. apply setAllStatus_passed_rate; [reflexivity | reflexivity|].
  vm_compute. split; reflexivity.
Defined.

(** X24: how one status edit moves the executed count.  After [setStatus]
    the total is unchanged, and the executed count has grown by one when a
    not-run case got another status, shrunk by one when a case was set
    back to not-run, and is unchanged otherwise. *)
Theorem setStatus_executed (w : world) (i : nat) (item : Case.t)
    (status : jsstring) (now : clock) :
  cases (app w) !! i = Some item ->
  let before := summarize (cases (app w)) in
  let after := summarize (cases (app (setStatus w i status now))) in
  Summary.total after = Summary.total before /\
  Summary.executed after
  = (Summary.executed before
     + (if has_status STATUS_NOT_RUN item then 1 else 0)
     - (if JsString.eqb status STATUS_NOT_RUN then 1 else 0))%Z.
Proof.
  intros Hi. unfold setStatus. rewrite Hi.
  cbn [markDirty persist app set_dirty set_cases cases localStorage]. cbn zeta.
  rewrite !summarize_executed, !summarize_total.
  rewrite !summarize_count by (left; reflexivity).
  rewrite length_insert.
  rewrite (filter_length_insert _ _ i item _ Hi).
  change (has_status STATUS_NOT_RUN (Case.with_status item status (now 0%nat)))
    with (JsString.eqb status STATUS_NOT_RUN).
  split; [reflexivity | lia].
Qed.

Lemma setStatus_executed_witness :
  let w := mk_world
             (mk_state [case_with (js "T1") STATUS_NOT_RUN [] [];
                        case_with (js "T2") STATUS_PASSED [] []]
                       initial_filters [] [] None false) None in
  let before := summarize (cases (app w)) in
  let after := summarize (cases (app (setStatus w 0 STATUS_FAILED (ticks (js "t"))))) in
  Summary.total after = Summary.total before /\
  Summary.executed after
  = (Summary.executed before
     + (if has_status STATUS_NOT_RUN (case_with (js "T1") STATUS_NOT_RUN [] [])
        then 1 else 0)
     - (if JsString.eqb STATUS_FAILED STATUS_NOT_RUN then 1 else 0))%Z.
Proof. intros w. apply (setStatus_executed w 0). reflexivity. Defined.

(** ** Line ends *)

Section LineEndFacts.

Lemma trimStart_app l r : trimStart l <> [] -> trimStart (l ++ r) = trimStart l ++ r.
Proof.
  induction l as [|c l IH]; [intros H; exfalso; apply H; reflexivity|]. intros H.
  rewrite <- app_comm_cons. cbn [trimStart] in *.
  destruct (is_ws c); [exact (IH H) | reflexivity].
Qed.

Lemma trimStart_nil_ws l : trimStart l = [] -> forallb is_ws l = true.
Proof.
  induction l as [|c l IH]; [reflexivity|]. cbn [trimStart forallb].
  destruct (is_ws c); [exact IH | discriminate].
Qed.

Lemma trimEnd_snoc_ws y c : is_ws c = true -> trimEnd (y ++ [c]) = trimEnd y.
Proof.
  intros Hc. unfold trimEnd. rewrite rev_app_distr.
  change (rev [c] ++ rev y) with (c :: rev y). cbn [trimStart]. rewrite Hc.
  reflexivity.
Qed.

(** White space at the end of a line does not survive [trim]. *)
Lemma trim_snoc_ws l c : is_ws c = true -> trim (l ++ [c]) = trim l.
Proof.
  intros Hc. destruct (trimStart l) as [|x t] eqn:Hl.
  - apply trimStart_nil_ws in Hl. rewrite (trim_ws l Hl). apply trim_ws.
    rewrite forallb_app, Hl. cbn. rewrite Hc. reflexivity.
  - unfold trim. rewrite trimStart_app by (rewrite Hl; discriminate).
    apply trimEnd_snoc_ws, Hc.
Qed.

Lemma up_to_CR_trim l l' : up_to_CR l l' -> trim l' = trim l.
Proof. intros [->| ->]; [reflexivity | apply trim_snoc_ws; reflexivity]. Qed.

Lemma up_to_CR_cons c (X Y : list jsstring) :
  Forall2 up_to_CR X Y ->
  Forall2 up_to_CR
    (match X with l :: ls => (c :: l) :: ls | [] => [[c]] end)
    (match Y with l :: ls => (c :: l) :: ls | [] => [[c]] end).
Proof.
  intros [|l l' ls ls' Hl Hls].
  - repeat constructor.
  - constructor; [|exact Hls]. destruct Hl as [->| ->]; [left | right]; reflexivity.
Qed.

(** The lines of [split_lines] are those of [split_LF], up to a carriage
    return at the end of a line. *)
Lemma split_lines_split_LF text :
  Forall2 up_to_CR (split_lines text) (split_LF text).
Proof.
  induction text as [|x t IHt IHtl] using scan_ind.
  - repeat constructor.
  - destruct (N.eqb_spec x LF) as [->|Hx].
    { cbn [split_lines split_LF]. change (LF =? LF) with true. cbv iota.
      constructor; [left; reflexivity | exact IHt]. }
    cbn [split_LF]. rewrite (proj2 (N.eqb_neq x LF) Hx).
    destruct (N.eqb_spec x CR) as [->|Hcr].
    + destruct t as [|c' t']; [repeat constructor|].
      destruct (N.eqb_spec c' LF) as [->|Hc'].
      * cbn [split_lines split_LF]. change (CR =? LF) with false.
        change (CR =? CR) with true. change (LF =? LF) with true. cbv iota.
        constructor; [right; reflexivity | exact IHtl].
      * rewrite split_lines_cons; [|exact Hx|intros _ t'' [= ? _]; congruence].
        apply up_to_CR_cons, IHt.
    + rewrite split_lines_cons; [|exact Hx|congruence].
      apply up_to_CR_cons, IHt.
Qed.

Lemma split_LF_CRLF a b :
  Forall2 up_to_CR (split_LF (a ++ LF :: b)) (split_LF (a ++ CR :: LF :: b)).
Proof.
  induction a as [|c a IH].
  - rewrite !app_nil_l. cbn [split_LF]. change (LF =? LF) with true.
    change (CR =? LF) with false. cbv iota.
    constructor; [right; reflexivity|].
    induction (split_LF b); constructor; [left; reflexivity | assumption].
  - rewrite <- !app_comm_cons. cbn [split_LF]. destruct (c =? LF).
    + constructor; [left; reflexivity | exact IH].
    + apply up_to_CR_cons, IH.
Qed.

Lemma map_trim_up_to_CR X Y :
  Forall2 up_to_CR X Y -> List.map trim Y = List.map trim X.
Proof.
  induction 1 as [|l l' ls ls' Hl _ IH]; [reflexivity|].
  cbn [List.map]. rewrite (up_to_CR_trim l l' Hl), IH. reflexivity.
Qed.

Lemma parseCsv_split_LF text :
  parseCsv text
  = List.map splitCsvLine (List.filter truthy (List.map trim (split_LF text))).
Proof.
  unfold parseCsv.
  rewrite (map_trim_up_to_CR _ _ (split_lines_split_LF text)). reflexivity.
Qed.

End LineEndFacts.

(** X25: line ends with and without a carriage return are read alike.  A
    carriage return put in front of a newline of a text does not change
    what [parseCsv] returns: it is either taken with the newline by the
    line split or removed by [trim]. *)
Theorem parseCsv_CRLF (a b : jsstring) :
  parseCsv (a ++ CR :: LF :: b) = parseCsv (a ++ LF :: b).
Proof.
  rewrite !parseCsv_split_LF.
  rewrite (map_trim_up_to_CR _ _ (split_LF_CRLF a b)). reflexivity.
Qed.

(** ** The name of a backup file *)

Section NameFacts.

Local Open Scope Z_scope.





End NameFacts.


